(** * Backward-induction dice strategy engine (widget.py)

    A shallow embedding of [Widget] and [iter_possible_rolls] together with
    the properties of the roll enumerator, the table validator, the
    conditional value computer, the two strategy resolvers and the
    backward-induction driver.

    Modelling conventions.
    - A [Roll] ([tuple[int, ...]]) is a [list Z].
    - A value ([float]) is an exact rational [Qc]: Python's [==], [!=] and
      [>] on values become Leibniz equality and [Qccompare]; rounding is
      not modelled there.  The one place where the code does arithmetic on
      values, the mean of [_compute_values_given_kept], is modelled a
      second time with the arithmetic as a parameter, and instantiated with
      exact rationals and with binary64 floats.
    - A [dict] keyed by rolls is a [gmap (list Z) _]; [d[k]] on a missing
      key raises [KeyError].
    - Exceptions are the [Raise] results of the monad [res].
    - A Python [set] object that is stored in several dictionary slots is a
      cell of a heap (a list of sets indexed by reference); the dictionary
      holds references.
    - [num_dice] and [num_rolls] are naturals, [num_faces] is an integer;
      the generator [iter_possible_rolls] is run with fuel, and terminates
      exactly when [1 <= num_faces] (or [num_dice = 0]). *)

From Stdlib Require Import ZArith QArith Qcanon Lia.
From Stdlib Require SpecFloat.
From stdpp Require Import gmap list fin_maps sorting strings.

Open Scope Z_scope.

(** ** Rolls, values, exceptions *)

Abbreviation Roll := (list Z).

Inductive exn : Type :=
  | InconsistentValue (roll : Roll) (pre_existing_value value : Qc)
  | MissingRoll (roll : Roll)
  | KeyError (roll : Roll)
  | IndexError (idx : nat)
  | ZeroDivisionError
  | AssertionError
  | OverflowError.

Inductive res (A : Type) : Type :=
  | Ok (a : A)
  | Raise (e : exn).
Arguments Ok {A} a.
Arguments Raise {A} e.

Definition res_bind {A B : Type} (m : res A) (k : A → res B) : res B :=
  match m with
  | Ok a => k a
  | Raise e => Raise e
  end.

Notation "'do' x <- m ; k" := (res_bind m (λ x, k))
  (at level 10, x pattern, m at level 100, k at level 200).

(** [for x in xs: s = body x s], stopping at the first exception. *)
Fixpoint for_each {A S : Type} (xs : list A) (body : A → S → res S) (s : S) : res S :=
  match xs with
  | [] => Ok s
  | x :: xs' => do s' <- body x s; for_each xs' body s'
  end.

(** [d[k]] *)
Definition getitem {V : Type} (d : gmap (list Z) V) (k : Roll) : res V :=
  match d !! k with
  | Some v => Ok v
  | None => Raise (KeyError k)
  end.

(** [tuple(sorted(roll))] *)
Definition sorted (roll : Roll) : Roll := merge_sort Z.le roll.

(** Comparisons of values. *)
Definition gt (x y : Qc) : bool :=
  match (x ?= y)%Qc with Gt => true | _ => false end.
Definition eqv (x y : Qc) : bool :=
  match (x ?= y)%Qc with Eq => true | _ => false end.

(** [range(lo, hi)] *)
Definition range (lo hi : Z) : list Z := seqZ lo (hi - lo).

(** [range(hi - 1, -1, -1)] on naturals: [hi-1, ..., 0]. *)
Definition range_down (hi : nat) : list nat := reverse (seq 0 hi).

(** ** The roll enumerator *)

(** [list(enumerate(roll))], counting from [i]. *)
Fixpoint enumerate_from (i : nat) (roll : list Z) : list (nat * Z) :=
  match roll with
  | [] => []
  | v :: roll' => (i, v) :: enumerate_from (S i) roll'
  end.

(** The [for ... in reversed(list(enumerate(roll)))] search: the rightmost
    position whose face differs from [num_faces]. *)
Definition rightmost_below (num_faces : Z) (roll : list Z) : option (nat * Z) :=
  List.find (λ p, negb (p.2 =? num_faces)) (reverse (enumerate_from 0 roll)).

(** One turn of the [while] body: increment the position found and copy
    the new face to every position on its right.  The [else] branch of the
    search is [assert False]. *)
Definition advance (num_faces : Z) (roll : list Z) : res (list Z) :=
  match rightmost_below num_faces roll with
  | None => Raise AssertionError
  | Some (idx_to_increment, face_value) =>
      let roll := <[idx_to_increment := face_value + 1]> roll in
      Ok (foldl (λ r idx, <[idx := default 0 (r !! idx_to_increment)]> r) roll
                (seq (S idx_to_increment) (length roll - S idx_to_increment)))
  end.

(** The [while any(face_value != num_faces ...)] loop; each turn yields the
    advanced roll.  [None] is "out of fuel". *)
Fixpoint odometer (fuel : nat) (num_faces : Z) (roll : list Z) : option (res (list Roll)) :=
  match fuel with
  | O => None
  | S fuel' =>
      if existsb (λ face_value, negb (face_value =? num_faces)) roll then
        match advance num_faces roll with
        | Raise e => Some (Raise e)
        | Ok roll' =>
            match odometer fuel' num_faces roll' with
            | None => None
            | Some (Raise e) => Some (Raise e)
            | Some (Ok rest) => Some (Ok (roll' :: rest))
            end
        end
      else Some (Ok [])
  end.

Definition iter_possible_rolls_fuel (fuel : nat) (num_dice : nat) (num_faces : Z)
  : option (res (list Roll)) :=
  match num_dice with
  | O => Some (Ok [[]])
  | _ =>
      let roll := replicate num_dice 1 in
      match odometer fuel num_faces roll with
      | None => None
      | Some (Raise e) => Some (Raise e)
      | Some (Ok rest) => Some (Ok (roll :: rest))
      end
  end.

(** Pascal's triangle: [binom n k] is "n choose k". *)
Fixpoint binom (n k : nat) : nat :=
  match n, k with
  | _, O => 1%nat
  | O, S _ => 0%nat
  | S n', S k' => (binom n' k' + binom n' k)%nat
  end.

(** The number of rolls of [num_dice] dice with [num_faces] faces. *)
Definition roll_count (num_dice : nat) (num_faces : Z) : nat :=
  binom (Z.to_nat num_faces + num_dice - 1) num_dice.

(** The generator run to completion.  [roll_count] turns of the loop are
    enough when [1 <= num_faces] (lemma [iter_possible_rolls_fuel_rolls_from]);
    for other face counts the Python generator does not terminate and this
    list is not meaningful. *)
Definition iter_possible_rolls (num_dice : nat) (num_faces : Z) : list Roll :=
  match iter_possible_rolls_fuel (roll_count num_dice num_faces) num_dice num_faces with
  | Some (Ok rolls) => rolls
  | _ => []
  end.

(** [Counter(subroll) <= Counter(roll)] *)
Definition Counter (roll : Roll) (v : Z) : nat := length (filter (λ x, x = v) roll).
Definition is_subroll (subroll roll : Roll) : bool :=
  forallb (λ v, (Counter subroll v <=? Counter roll v)%nat) subroll.

(** ** The widget *)

(** An [int] used as a value. *)
Definition qz (z : Z) : Qc := Q2Qc (inject_Z z).

(** [total / num_faces], in exact arithmetic. *)
Definition divide (total : Qc) (num_faces : Z) : res Qc :=
  if num_faces =? 0 then Raise ZeroDivisionError
  else Ok (total / qz num_faces)%Qc.

(** [l[idx]] on a Python list. *)
Definition list_getitem {A : Type} (l : list A) (idx : nat) : res A :=
  match l !! idx with
  | Some a => Ok a
  | None => Raise (IndexError idx)
  end.

(** The heap of [set] objects of the lattice resolver. *)
Abbreviation Heap := (list (gset (list Z))).

(** The set object a reference points to. *)
Definition deref (heap : Heap) (ref : nat) : gset (list Z) := default ∅ (heap !! ref).

(** The object state: the per-round tables. *)
Record Widget : Type := {
  roll_values : list (gmap (list Z) Qc);
  optimal_moves : list (gmap (list Z) (list (list Z)))
}.

Section WidgetMethods.
Variables (num_dice : nat) (num_faces : Z) (num_rolls : nat).
Variables (keep_all_optimal use_dynamic_programming : bool).

(** One turn of the canonicalisation loop of [_parse_roll_values]. *)
Definition parse_entry (item : Roll * Qc) (parsed_roll_values : gmap (list Z) Qc)
  : res (gmap (list Z) Qc) :=
  let roll := sorted item.1 in
  let value := item.2 in
  match parsed_roll_values !! roll with
  | Some pre_existing_value =>
      if negb (eqv pre_existing_value value)
      then Raise (InconsistentValue roll pre_existing_value value)
      else Ok (<[roll := value]> parsed_roll_values)
  | None => Ok (<[roll := value]> parsed_roll_values)
  end.

(** One turn of the totality loop of [_parse_roll_values]. *)
Definition check_present (parsed_roll_values : gmap (list Z) Qc) (roll : Roll) (_ : unit)
  : res unit :=
  match parsed_roll_values !! roll with
  | None => Raise (MissingRoll roll)
  | Some _ => Ok tt
  end.

(** The input [dict] is the list of its items, in iteration order. *)
Definition _parse_roll_values (input : list (Roll * Qc)) : res (gmap (list Z) Qc) :=
  do parsed_roll_values <- for_each input parse_entry ∅;
  do _ <- for_each (iter_possible_rolls num_dice num_faces)
            (check_present parsed_roll_values) tt;
  Ok parsed_roll_values.

(** [sum(values_given_kept[tuple(sorted(kept + (i,)))] for i in range(...))]:
    one term added to the running total, in exact arithmetic.  The same
    method with the arithmetic as a parameter is [average_kept_with]. *)
Definition add_term (values_given_kept : gmap (list Z) Qc) (kept : Roll) (i : Z) (acc : Qc)
  : res Qc :=
  do v <- getitem values_given_kept (sorted (kept ++ [i]));
  Ok (acc + v)%Qc.

Definition average_kept (kept : Roll) (values_given_kept : gmap (list Z) Qc)
  : res (gmap (list Z) Qc) :=
  do total <- for_each (range 1 (num_faces + 1)) (add_term values_given_kept kept) 0%Qc;
  do mean <- divide total num_faces;
  Ok (<[kept := mean]> values_given_kept).

Definition _compute_values_given_kept (next_roll_values : gmap (list Z) Qc)
  : res (gmap (list Z) Qc) :=
  for_each (range_down num_dice) (λ num_kept values_given_kept,
    for_each (iter_possible_rolls num_kept num_faces) average_kept values_given_kept)
    next_roll_values.

(** The state of the lattice resolver: [roll_values], [optimal_moves]
    (each slot holds a reference to a set object) and the heap. *)
Definition dp_relax (value : Qc) (moves : nat) (prev_kept : Roll) (die : Z)
    (st : gmap (list Z) Qc * gmap (list Z) nat * Heap)
  : res (gmap (list Z) Qc * gmap (list Z) nat * Heap) :=
  let '(roll_values, optimal_moves, heap) := st in
  let kept := sorted (prev_kept ++ [die]) in
  do current <- getitem roll_values kept;
  if gt value current then
    Ok (<[kept := value]> roll_values, <[kept := moves]> optimal_moves, heap)
  else if keep_all_optimal && eqv value current then
    do target <- getitem optimal_moves kept;
    Ok (roll_values, optimal_moves,
        <[target := deref heap target ∪ deref heap moves]> heap)
  else Ok st.

Definition dp_init (values_given_kept : gmap (list Z) Qc) (kept : Roll)
    (st : gmap (list Z) Qc * gmap (list Z) nat * Heap)
  : res (gmap (list Z) Qc * gmap (list Z) nat * Heap) :=
  let '(roll_values, optimal_moves, heap) := st in
  do v <- getitem values_given_kept kept;
  Ok (<[kept := v]> roll_values, <[kept := length heap]> optimal_moves,
      heap ++ [ {[ kept ]} ]).

Definition dp_propagate (prev_kept : Roll)
    (st : gmap (list Z) Qc * gmap (list Z) nat * Heap)
  : res (gmap (list Z) Qc * gmap (list Z) nat * Heap) :=
  do value <- getitem st.1.1 prev_kept;
  do moves <- getitem st.1.2 prev_kept;
  for_each (range 1 (num_faces + 1)) (dp_relax value moves prev_kept) st.

Definition dp_layer (values_given_kept : gmap (list Z) Qc) (num_kept : nat)
    (st : gmap (list Z) Qc * gmap (list Z) nat * Heap)
  : res (gmap (list Z) Qc * gmap (list Z) nat * Heap) :=
  do st <- for_each (iter_possible_rolls num_kept num_faces)
             (dp_init values_given_kept) st;
  for_each (iter_possible_rolls (num_kept - 1) num_faces) dp_propagate st.

Definition _compute_from_cond_dp (values_given_kept : gmap (list Z) Qc)
  : res (gmap (list Z) Qc * gmap (list Z) (list (list Z))) :=
  do v0 <- getitem values_given_kept [];
  do st <- for_each (seq 1 num_dice) (dp_layer values_given_kept)
             ({[ [] := v0 ]}, {[ [] := 0%nat ]}, [ {[ [] ]} ]);
  let '(roll_values, optimal_moves, heap) := st in
  Ok (filter (λ p, length p.1 = num_dice) roll_values,
      (λ moves, elements (deref heap moves))
        <$> filter (λ p, length p.1 = num_dice) optimal_moves).

(** In the brute-force resolver every list stored in [optimal_moves] is
    freshly built and referenced from one slot only, so lists are values. *)
Definition bf_relax (value : Qc) (kept other_dice : Roll)
    (st : gmap (list Z) Qc * gmap (list Z) (list (list Z)))
  : res (gmap (list Z) Qc * gmap (list Z) (list (list Z))) :=
  let '(roll_values, optimal_moves) := st in
  let roll := sorted (kept ++ other_dice) in
  do current <- getitem roll_values roll;
  if gt value current then
    Ok (<[roll := value]> roll_values, <[roll := [kept]]> optimal_moves)
  else if keep_all_optimal && eqv value current then
    do moves <- getitem optimal_moves roll;
    Ok (roll_values, <[roll := moves ++ [kept]]> optimal_moves)
  else Ok st.

Definition bf_kept (values_given_kept : gmap (list Z) Qc) (num_kept : nat) (kept : Roll)
    (st : gmap (list Z) Qc * gmap (list Z) (list (list Z)))
  : res (gmap (list Z) Qc * gmap (list Z) (list (list Z))) :=
  do value <- getitem values_given_kept kept;
  for_each (iter_possible_rolls (num_dice - num_kept) num_faces)
    (bf_relax value kept) st.

Definition bf_init (values_given_kept : gmap (list Z) Qc) (roll : Roll)
    (roll_values : gmap (list Z) Qc) : res (gmap (list Z) Qc) :=
  do v <- getitem values_given_kept roll;
  Ok (<[roll := v]> roll_values).

Definition bf_layer (values_given_kept : gmap (list Z) Qc) (num_kept : nat)
    (st : gmap (list Z) Qc * gmap (list Z) (list (list Z)))
  : res (gmap (list Z) Qc * gmap (list Z) (list (list Z))) :=
  for_each (iter_possible_rolls num_kept num_faces)
    (bf_kept values_given_kept num_kept) st.

Definition _compute_from_cond (values_given_kept : gmap (list Z) Qc)
  : res (gmap (list Z) Qc * gmap (list Z) (list (list Z))) :=
  do roll_values <-
    for_each (iter_possible_rolls num_dice num_faces) (bf_init values_given_kept) ∅;
  let optimal_moves :=
    foldl (λ optimal_moves roll, <[roll := [roll]]> optimal_moves) ∅
      (iter_possible_rolls num_dice num_faces) in
  for_each (range_down num_dice) (bf_layer values_given_kept)
    (roll_values, optimal_moves).

Definition _compute_from_conditional_values (values_given_kept : gmap (list Z) Qc)
  : res (gmap (list Z) Qc * gmap (list Z) (list (list Z))) :=
  if use_dynamic_programming then _compute_from_cond_dp values_given_kept
  else _compute_from_cond values_given_kept.

Definition _compute_strategy_one_roll (next_roll_values : gmap (list Z) Qc)
  : res (gmap (list Z) Qc * gmap (list Z) (list (list Z))) :=
  do values_given_kept <- _compute_values_given_kept next_roll_values;
  _compute_from_conditional_values values_given_kept.

Definition strategy_step (idx : nat) (self : Widget) : res Widget :=
  do next_roll_values <- list_getitem (roll_values self) (idx + 1);
  do result <- _compute_strategy_one_roll next_roll_values;
  Ok {| roll_values := <[idx := result.1]> (roll_values self);
        optimal_moves := <[idx := result.2]> (optimal_moves self) |}.

(** [range(num_rolls - 2, -1, -1)] is [range_down (num_rolls - 1)]. *)
Definition _compute_strategy_and_values (self : Widget) : res Widget :=
  for_each (range_down (num_rolls - 1)) strategy_step self.

(** [Widget.__init__]: an exception leaves no object behind. *)
Definition Widget_init (input : list (Roll * Qc)) : res Widget :=
  do parsed <- _parse_roll_values input;
  _compute_strategy_and_values
    {| roll_values := replicate (num_rolls - 1) ∅ ++ [parsed];
       optimal_moves := replicate (num_rolls - 1) ∅ |}.

End WidgetMethods.

(** ** Sorting *)

Lemma sorted_Permutation (roll : list Z) : sorted roll ≡ₚ roll.
Proof. apply merge_sort_Permutation. Qed.

Lemma sorted_Sorted (roll : list Z) : Sorted Z.le (sorted roll).
Proof. apply Sorted_merge_sort. intros x y. lia. Qed.

Lemma Sorted_le_unique (l1 l2 : list Z) :
  Sorted Z.le l1 → Sorted Z.le l2 → l1 ≡ₚ l2 → l1 = l2.
Proof.
  intros H1 H2 Hp.
  apply (StronglySorted_unique Z.le); [| |done].
  - apply Sorted_StronglySorted; [intros x y z; lia | done].
  - apply Sorted_StronglySorted; [intros x y z; lia | done].
Qed.

Lemma sorted_unique (l r : list Z) : Sorted Z.le r → l ≡ₚ r → sorted l = r.
Proof.
  intros Hr Hp. apply Sorted_le_unique; [apply sorted_Sorted | done |].
  by rewrite sorted_Permutation.
Qed.

Lemma sorted_id (r : list Z) : Sorted Z.le r → sorted r = r.
Proof. intros Hr. by apply sorted_unique. Qed.

Lemma sorted_length (l : list Z) : length (sorted l) = length l.
Proof. by rewrite sorted_Permutation. Qed.

Lemma sorted_Forall (P : Z → Prop) (l : list Z) : Forall P (sorted l) ↔ Forall P l.
Proof. by rewrite sorted_Permutation. Qed.

(** ** The odometer step in closed form *)

Definition below (num_faces : Z) (p : nat * Z) : bool := negb (p.2 =? num_faces).

Lemma find_snoc {A} (P : A → bool) (l : list A) (x : A) :
  List.find P (l ++ [x]) =
  match List.find P l with
  | Some y => Some y
  | None => if P x then Some x else None
  end.
Proof. induction l as [|y l IH]; simpl; [done|]. by destruct (P y). Qed.

Lemma find_rightmost_shift (num_faces : Z) (roll : list Z) (i : nat) :
  List.find (below num_faces) (reverse (enumerate_from (S i) roll)) =
  prod_map S id <$> List.find (below num_faces) (reverse (enumerate_from i roll)).
Proof.
  revert i. induction roll as [|v roll IH]; intros i; simpl; [done|].
  rewrite !reverse_cons, !find_snoc, IH.
  destruct (List.find (below num_faces) (reverse (enumerate_from (S i) roll))) as [[j w]|]; simpl; [done|].
  unfold below; simpl. by destruct (negb (v =? num_faces)).
Qed.

Lemma rightmost_below_cons (num_faces v : Z) (roll : list Z) :
  rightmost_below num_faces (v :: roll) =
  match rightmost_below num_faces roll with
  | Some (i, w) => Some (S i, w)
  | None => if v =? num_faces then None else Some (0%nat, v)
  end.
Proof.
  unfold rightmost_below. simpl. rewrite reverse_cons, find_snoc.
  change (λ p : nat * Z, negb (p.2 =? num_faces)) with (below num_faces).
  rewrite find_rightmost_shift.
  destruct (List.find (below num_faces) (reverse (enumerate_from 0 roll))) as [[j w]|]; simpl; [done|].
  unfold below; simpl. by destruct (v =? num_faces).
Qed.

Lemma rightmost_below_lt (num_faces : Z) (roll : list Z) (i : nat) (w : Z) :
  rightmost_below num_faces roll = Some (i, w) →
  roll !! i = Some w ∧ w ≠ num_faces.
Proof.
  revert i. induction roll as [|v roll IH]; intros i; [done|].
  rewrite rightmost_below_cons.
  destruct (rightmost_below num_faces roll) as [[j u]|].
  - intros [= <- <-]. simpl. by apply IH.
  - destruct (Z.eqb_spec v num_faces); [done|]. by intros [= <- <-].
Qed.

Lemma fill_right (w : Z) (i0 : nat) (k a : nat) (r : list Z) :
  r !! i0 = Some w → (i0 < a)%nat → (a + k <= length r)%nat →
  foldl (λ r idx, <[idx := default 0 (r !! i0)]> r) r (seq a k) =
  take a r ++ replicate k w ++ drop (a + k) r.
Proof.
  intros Hw Hlt. induction k as [|k IH]; intros Hlen.
  - simpl. by rewrite Nat.add_0_r, take_drop.
  - rewrite seq_S, foldl_snoc, IH by lia.
    rewrite lookup_app_l by (rewrite length_take; lia).
    rewrite lookup_take_lt by lia. rewrite Hw. simpl.
    rewrite insert_app_r_alt by (rewrite length_take; lia).
    rewrite length_take, Nat.min_l by lia.
    rewrite insert_app_r_alt by (rewrite length_replicate; lia).
    rewrite length_replicate.
    replace (a + k - a - k)%nat with 0%nat by lia.
    destruct (lookup_lt_is_Some_2 r (a + k)%nat) as [y Hy]; [lia|].
    rewrite (drop_S _ _ _ Hy). simpl.
    replace (a + S k)%nat with (S (a + k)) by lia.
    f_equal. change (w :: replicate k w ++ drop (S (a + k)) r) with
      ((w :: replicate k w) ++ drop (S (a + k)) r).
    rewrite replicate_cons_app, <- app_assoc. done.
Qed.

Lemma advance_closed (num_faces : Z) (roll : list Z) :
  advance num_faces roll =
  match rightmost_below num_faces roll with
  | None => Raise AssertionError
  | Some (i, w) => Ok (take i roll ++ replicate (length roll - i) (w + 1))
  end.
Proof.
  unfold advance. destruct (rightmost_below num_faces roll) as [[i w]|] eqn:E; [|done].
  apply rightmost_below_lt in E as [Hi _].
  pose proof (lookup_lt_Some _ _ _ Hi) as Hlt.
  f_equal. rewrite length_insert.
  rewrite (fill_right (w + 1) i).
  - replace (S i + (length roll - S i))%nat with (length roll) by lia.
    rewrite drop_ge by (rewrite length_insert; lia).
    rewrite app_nil_r, (insert_take_drop _ _ _ Hlt), cons_middle, app_assoc.
    rewrite take_app_length' by (rewrite length_app, length_take; simpl; lia).
    replace (length roll - i)%nat with (S (length roll - S i)) by lia.
    simpl. by rewrite <- app_assoc.
  - by apply list_lookup_insert_eq.
  - lia.
  - rewrite length_insert. lia.
Qed.

Lemma advance_cons (num_faces v : Z) (roll : list Z) :
  advance num_faces (v :: roll) =
  match advance num_faces roll with
  | Ok roll' => Ok (v :: roll')
  | Raise _ =>
      if v =? num_faces then Raise AssertionError
      else Ok (replicate (S (length roll)) (v + 1))
  end.
Proof.
  rewrite !advance_closed, rightmost_below_cons.
  destruct (rightmost_below num_faces roll) as [[i w]|]; [done|].
  by destruct (v =? num_faces).
Qed.

Lemma advance_full (num_faces : Z) (n : nat) :
  advance num_faces (replicate n num_faces) = Raise AssertionError.
Proof.
  induction n as [|n IH]; [done|].
  simpl. rewrite advance_cons, IH. by rewrite Z.eqb_refl.
Qed.

Lemma any_below_full (num_faces : Z) (n : nat) :
  existsb (λ face_value, negb (face_value =? num_faces)) (replicate n num_faces) = false.
Proof. induction n as [|n IH]; [done|]. simpl. by rewrite Z.eqb_refl, IH. Qed.

Lemma advance_Ok_any_below (num_faces : Z) (roll roll' : list Z) :
  advance num_faces roll = Ok roll' →
  existsb (λ face_value, negb (face_value =? num_faces)) roll = true.
Proof.
  revert roll'. induction roll as [|v roll IH]; intros roll'; [done|].
  rewrite advance_cons. simpl.
  destruct (advance num_faces roll) as [r|e].
  - intros _. rewrite (IH r eq_refl). apply orb_true_r.
  - destruct (v =? num_faces); [done|]. done.
Qed.

(** ** The rolls in lexicographic order, by recursion *)

(** The rolls that start with a face in [lo, lo + m), given for each first
    face [x] the tails [tails x] that may follow it. *)
Fixpoint blocks (tails : Z → list (list Z)) (m : nat) (lo : Z) : list (list Z) :=
  match m with
  | O => []
  | S m' => (cons lo <$> tails lo) ++ blocks tails m' (lo + 1)
  end.

(** The sorted tuples of length [n] with entries in [lo, num_faces]. *)
Fixpoint rolls_from (num_faces : Z) (n : nat) (lo : Z) : list (list Z) :=
  match n with
  | O => [[]]
  | S n' => blocks (rolls_from num_faces n') (Z.to_nat (num_faces - lo + 1)) lo
  end.

(** Python's order on tuples. *)
Inductive lex_lt : list Z → list Z → Prop :=
  | lex_lt_nil y ys : lex_lt [] (y :: ys)
  | lex_lt_head x y xs ys : x < y → lex_lt (x :: xs) (y :: ys)
  | lex_lt_tail x xs ys : lex_lt xs ys → lex_lt (x :: xs) (x :: ys).

(** A canonical roll: ascending, faces in [1, num_faces]. *)
Definition canonical (num_faces : Z) (roll : list Z) : Prop :=
  Sorted Z.le roll ∧ Forall (λ x, 1 ≤ x ≤ num_faces) roll.

Lemma lex_lt_irrefl (r : list Z) : ¬ lex_lt r r.
Proof. induction r as [|x r IH]; inversion 1; subst; [lia | done]. Qed.

Lemma lex_lt_trans (a b c : list Z) : lex_lt a b → lex_lt b c → lex_lt a c.
Proof.
  intros Hab. revert c. induction Hab; intros c Hbc; inversion Hbc; subst;
    first [ apply lex_lt_nil | apply lex_lt_head; lia | apply lex_lt_tail; eauto ].
Qed.

Lemma elem_of_blocks (tails : Z → list (list Z)) (m : nat) (lo : Z) (r : list Z) :
  r ∈ blocks tails m lo ↔
  ∃ x r', r = x :: r' ∧ lo ≤ x < lo + Z.of_nat m ∧ r' ∈ tails x.
Proof.
  revert lo. induction m as [|m IH]; intros lo; simpl.
  - split; [by intros ?%elem_of_nil | intros (x & r' & _ & ? & _); lia].
  - rewrite elem_of_app, list_elem_of_fmap, IH. split.
    + intros [(r' & -> & Hr')|(x & r' & -> & Hx & Hr')].
      * exists lo, r'. repeat split; first [lia | done].
      * exists x, r'. repeat split; first [lia | done].
    + intros (x & r' & -> & Hx & Hr').
      destruct (decide (x = lo)) as [->|Hne].
      * left. by exists r'.
      * right. exists x, r'. repeat split; first [lia | done].
Qed.

Lemma Sorted_cons_ge (x : Z) (r : list Z) :
  Sorted Z.le (x :: r) ↔ Sorted Z.le r ∧ Forall (λ y, x ≤ y) r.
Proof.
  split.
  - intros H. apply (Sorted_StronglySorted Z.le) in H.
    inversion H; subst. split; [by apply StronglySorted_Sorted | done].
  - intros [Hs Hf]. constructor; [done|].
    destruct r as [|y r]; constructor. by inversion Hf.
Qed.

Lemma elem_of_rolls_from (num_faces : Z) (n : nat) (lo : Z) (r : list Z) :
  r ∈ rolls_from num_faces n lo ↔
  length r = n ∧ Sorted Z.le r ∧ Forall (λ x, lo ≤ x ≤ num_faces) r.
Proof.
  revert lo r. induction n as [|n IH]; intros lo r; simpl.
  - rewrite list_elem_of_singleton. split.
    + intros ->. repeat split; constructor.
    + intros [Hl _]. by destruct r.
  - rewrite elem_of_blocks. split.
    + intros (x & r' & -> & Hx & Hr'). apply IH in Hr' as (Hl & Hs & Hf).
      repeat split.
      * simpl. by rewrite Hl.
      * apply Sorted_cons_ge. split; [done|].
        eapply Forall_impl; [exact Hf|]. simpl. lia.
      * constructor; [lia|]. eapply Forall_impl; [exact Hf|]. simpl. lia.
    + intros (Hl & Hs & Hf). destruct r as [|x r']; [done|].
      apply Sorted_cons_ge in Hs as [Hs Hge]. inversion Hf; subst.
      exists x, r'. split; [done|]. split; [lia|].
      apply IH. repeat split; [simpl in Hl; lia | done |].
      apply Forall_forall. intros y Hy.
      rewrite Forall_forall in Hge, H2. specialize (Hge y Hy). specialize (H2 y Hy). lia.
Qed.

(** *** Counting *)

Lemma binom_above (n k : nat) : (n < k)%nat → binom n k = 0%nat.
Proof.
  revert k. induction n as [|n IH]; intros [|k] Hlt; simpl; try lia.
  rewrite !IH by lia. done.
Qed.

Lemma length_blocks (num_faces : Z) (n : nat) (m : nat) (lo : Z) :
  (∀ x, length (rolls_from num_faces n x) =
        binom (Z.to_nat (num_faces - x + 1) + n - 1) n) →
  num_faces - lo + 1 = Z.of_nat m →
  length (blocks (rolls_from num_faces n) m lo) = binom (m + n) (S n).
Proof.
  intros Hn. revert lo. induction m as [|m IH]; intros lo Hm; simpl.
  - symmetry. apply binom_above. lia.
  - rewrite length_app, length_fmap, Hn, IH by lia.
    replace (Z.to_nat (num_faces - lo + 1)) with (S m) by lia.
    replace (S m + n - 1)%nat with (m + n)%nat by lia. done.
Qed.

Lemma length_rolls_from (num_faces : Z) (n : nat) (lo : Z) :
  length (rolls_from num_faces n lo) =
  binom (Z.to_nat (num_faces - lo + 1) + n - 1) n.
Proof.
  revert lo. induction n as [|n IH]; intros lo; simpl.
  - by destruct (Z.to_nat (num_faces - lo + 1) + 0 - 1)%nat.
  - destruct (decide (lo ≤ num_faces)) as [Hle|Hgt].
    + rewrite (length_blocks num_faces n _ lo IH) by lia.
      replace (Z.to_nat (num_faces - lo + 1) + S n - 1)%nat
        with (S (Z.to_nat (num_faces - lo + 1) + n - 1)) by lia.
      simpl. replace (Z.to_nat (num_faces - lo + 1) + n - 1)%nat
        with (pred (Z.to_nat (num_faces - lo + 1) + n)) by lia.
      destruct (Z.to_nat (num_faces - lo + 1)) as [|m] eqn:E; [lia|]. simpl. lia.
    + replace (Z.to_nat (num_faces - lo + 1)) with 0%nat by lia. simpl.
      symmetry. apply binom_above. lia.
Qed.

(** *** Lexicographic order and absence of repetitions *)

Lemma StronglySorted_fmap_cons (x : Z) (l : list (list Z)) :
  StronglySorted lex_lt l → StronglySorted lex_lt (cons x <$> l).
Proof.
  induction 1 as [|r l Hl IH Hall]; simpl; constructor; [done|].
  apply Forall_fmap. eapply Forall_impl; [exact Hall|].
  intros r' Hr'. by apply lex_lt_tail.
Qed.

Lemma StronglySorted_blocks (tails : Z → list (list Z)) (m : nat) (lo : Z) :
  (∀ x, StronglySorted lex_lt (tails x)) →
  StronglySorted lex_lt (blocks tails m lo).
Proof.
  intros Ht. revert lo. induction m as [|m IH]; intros lo; simpl; [constructor|].
  apply StronglySorted_app_2; [|by apply StronglySorted_fmap_cons|apply IH].
  intros r1 r2 (r' & -> & _)%list_elem_of_fmap (x & r'' & -> & Hx & _)%elem_of_blocks.
  apply lex_lt_head. lia.
Qed.

Lemma StronglySorted_rolls_from (num_faces : Z) (n : nat) (lo : Z) :
  StronglySorted lex_lt (rolls_from num_faces n lo).
Proof.
  revert lo. induction n as [|n IH]; intros lo; simpl.
  - repeat constructor.
  - by apply StronglySorted_blocks.
Qed.

Lemma StronglySorted_lex_NoDup (l : list (list Z)) :
  StronglySorted lex_lt l → NoDup l.
Proof.
  induction 1 as [|r l Hl IH Hall]; constructor; [|done].
  intros Hin. rewrite Forall_forall in Hall.
  by apply (lex_lt_irrefl r), Hall.
Qed.

(** *** The odometer walks through [rolls_from] *)

(** [chain f r l]: each roll of [r :: l] is the [advance] of the one before. *)
Fixpoint chain (num_faces : Z) (r : list Z) (l : list (list Z)) : Prop :=
  match l with
  | [] => True
  | r' :: l' => advance num_faces r = Ok r' ∧ chain num_faces r' l'
  end.

Lemma last_cons_head {A} (a d : A) (l : list A) :
  List.last (a :: l) d = List.last l a.
Proof.
  revert a d. induction l as [|b l IH]; intros a d; [done|].
  change (List.last (a :: b :: l) d) with (List.last (b :: l) d).
  by rewrite !(IH b).
Qed.

Lemma chain_app (num_faces : Z) (r r2 : list Z) (l1 l2 : list (list Z)) :
  chain num_faces r l1 →
  advance num_faces (List.last l1 r) = Ok r2 →
  chain num_faces r2 l2 →
  chain num_faces r (l1 ++ r2 :: l2).
Proof.
  revert r. induction l1 as [|r1 l1 IH]; intros r.
  - done.
  - rewrite last_cons_head. intros [H1 Hc] Hl H2. split; [done|]. by apply IH.
Qed.

Lemma chain_fmap_cons (num_faces x : Z) (r : list Z) (l : list (list Z)) :
  chain num_faces r l → chain num_faces (x :: r) (cons x <$> l).
Proof.
  revert r. induction l as [|r' l IH]; intros r; simpl; [done|].
  intros [H Hc]. split; [|by apply IH]. by rewrite advance_cons, H.
Qed.

Lemma last_fmap_cons (x : Z) (l : list (list Z)) (r : list Z) :
  List.last (cons x <$> l) (x :: r) = x :: List.last l r.
Proof.
  revert r. induction l as [|r' l IH]; intros r; [done|].
  rewrite fmap_cons, !last_cons_head. apply IH.
Qed.

Lemma last_app_cons {A} (l1 l2 : list A) (x d : A) :
  List.last (l1 ++ x :: l2) d = List.last l2 x.
Proof.
  revert d. induction l1 as [|y l1 IH]; intros d.
  - apply last_cons_head.
  - change ((y :: l1) ++ x :: l2) with (y :: (l1 ++ x :: l2)).
    by rewrite last_cons_head.
Qed.

Lemma odometer_chain (num_faces : Z) (l : list (list Z)) (r : list Z) (fuel : nat) :
  chain num_faces r l →
  existsb (λ v, negb (v =? num_faces)) (List.last l r) = false →
  (length l < fuel)%nat →
  odometer fuel num_faces r = Some (Ok l).
Proof.
  revert r fuel. induction l as [|r' l IH]; intros r fuel Hc Hlast Hfuel.
  - destruct fuel; [simpl in Hfuel; lia|]. simpl in *. by rewrite Hlast.
  - destruct fuel; [simpl in Hfuel; lia|]. destruct Hc as [Hadv Hc].
    cbn [odometer].
    rewrite (advance_Ok_any_below _ _ _ Hadv), Hadv.
    rewrite last_cons_head in Hlast.
    rewrite (IH r' fuel); [done|done|done|simpl in Hfuel; lia].
Qed.

(** The recursive enumeration starts at all-[lo], ends at all-[num_faces]
    and is a chain of [advance] steps. *)
Definition walk (num_faces : Z) (n : nat) (lo : Z) (rolls : list (list Z)) : Prop :=
  ∃ l, rolls = replicate n lo :: l ∧
       chain num_faces (replicate n lo) l ∧
       List.last l (replicate n lo) = replicate n num_faces.

Lemma walk_blocks (num_faces : Z) (n m : nat) (lo : Z) :
  (∀ x, x ≤ num_faces → walk num_faces n x (rolls_from num_faces n x)) →
  num_faces - lo + 1 = Z.of_nat (S m) →
  walk num_faces (S n) lo (blocks (rolls_from num_faces n) (S m) lo).
Proof.
  intros Hn. revert lo. induction m as [|m IH]; intros lo Hm.
  - destruct (Hn lo) as (l & El & Hc & Hlast); [lia|].
    assert (lo = num_faces) as -> by lia.
    simpl. rewrite El, app_nil_r. exists (cons num_faces <$> l). simpl.
    split; [done|]. split; [by apply chain_fmap_cons|].
    by rewrite last_fmap_cons, Hlast.
  - destruct (Hn lo) as (l & El & Hc & Hlast); [lia|].
    destruct (IH (lo + 1)) as (l2 & El2 & Hc2 & Hlast2); [lia|].
    change (blocks (rolls_from num_faces n) (S (S m)) lo)
      with ((cons lo <$> rolls_from num_faces n lo)
              ++ blocks (rolls_from num_faces n) (S m) (lo + 1)).
    rewrite El, El2. simpl.
    exists ((cons lo <$> l) ++ replicate (S n) (lo + 1) :: l2).
    split; [done|]. split.
    + apply chain_app; [by apply chain_fmap_cons| |done].
      change (replicate (S n) lo) with (lo :: replicate n lo).
      rewrite last_fmap_cons, Hlast, advance_cons, advance_full.
      destruct (Z.eqb_spec lo num_faces); [lia|]. by rewrite length_replicate.
    + by rewrite last_app_cons.
Qed.

Lemma walk_rolls_from (num_faces : Z) (n : nat) (lo : Z) :
  lo ≤ num_faces → walk num_faces n lo (rolls_from num_faces n lo).
Proof.
  revert lo. induction n as [|n IH]; intros lo Hle.
  - exists []. done.
  - simpl. destruct (Z.to_nat (num_faces - lo + 1)) as [|m] eqn:E; [lia|].
    apply walk_blocks; [done | lia].
Qed.

Lemma iter_possible_rolls_fuel_rolls_from (num_dice : nat) (num_faces : Z) (fuel : nat) :
  1 ≤ num_faces →
  (roll_count num_dice num_faces <= fuel)%nat →
  iter_possible_rolls_fuel fuel num_dice num_faces
  = Some (Ok (rolls_from num_faces num_dice 1)).
Proof.
  intros Hf Hfuel. destruct num_dice as [|n]; [done|].
  destruct (walk_rolls_from num_faces (S n) 1 Hf) as (l & El & Hc & Hlast).
  pose proof (length_rolls_from num_faces (S n) 1) as Hlen.
  rewrite El in Hlen. unfold roll_count in Hfuel.
  replace (num_faces - 1 + 1) with num_faces in Hlen by lia.
  unfold iter_possible_rolls_fuel.
  rewrite (odometer_chain num_faces l); [by rewrite El|done| |simpl in Hlen; lia].
  rewrite Hlast. apply any_below_full.
Qed.

Lemma iter_possible_rolls_eq (num_dice : nat) (num_faces : Z) :
  1 ≤ num_faces →
  iter_possible_rolls num_dice num_faces = rolls_from num_faces num_dice 1.
Proof.
  intros Hf. unfold iter_possible_rolls.
  by rewrite iter_possible_rolls_fuel_rolls_from.
Qed.

Lemma elem_of_iter_possible_rolls (num_dice : nat) (num_faces : Z) (r : list Z) :
  1 ≤ num_faces →
  r ∈ iter_possible_rolls num_dice num_faces ↔
  length r = num_dice ∧ canonical num_faces r.
Proof.
  intros Hf. rewrite iter_possible_rolls_eq, elem_of_rolls_from by done.
  unfold canonical. tauto.
Qed.

Lemma NoDup_iter_possible_rolls (num_dice : nat) (num_faces : Z) :
  1 ≤ num_faces → NoDup (iter_possible_rolls num_dice num_faces).
Proof.
  intros Hf. rewrite iter_possible_rolls_eq by done.
  apply StronglySorted_lex_NoDup, StronglySorted_rolls_from.
Qed.

(** C6: for [1 <= faces] the generator terminates ([roll_count n faces]
    turns of its loop are enough) and yields [binom (faces + n - 1) n]
    tuples; a tuple is yielded exactly when it has length [n], is
    non-decreasing and has its entries in [1, faces]; no tuple is yielded
    twice; the tuples come in strictly ascending lexicographic order; for
    [n = 0] the only tuple is the empty one. *)
Theorem iter_possible_rolls_spec (n : nat) (faces : Z) :
  1 ≤ faces →
  (∀ fuel, (roll_count n faces <= fuel)%nat →
     iter_possible_rolls_fuel fuel n faces = Some (Ok (iter_possible_rolls n faces))) ∧
  length (iter_possible_rolls n faces) = binom (Z.to_nat faces + n - 1) n ∧
  (∀ r, r ∈ iter_possible_rolls n faces ↔
        length r = n ∧ Sorted Z.le r ∧ Forall (λ x, 1 ≤ x ≤ faces) r) ∧
  NoDup (iter_possible_rolls n faces) ∧
  StronglySorted lex_lt (iter_possible_rolls n faces) ∧
  iter_possible_rolls 0 faces = [[]].
Proof.
  intros Hf. split; [|split; [|split; [|split; [|split]]]].
  - intros fuel Hfuel. rewrite iter_possible_rolls_eq by done.
    by apply iter_possible_rolls_fuel_rolls_from.
  - rewrite iter_possible_rolls_eq, length_rolls_from by done.
    by replace (faces - 1 + 1) with faces by lia.
  - intros r. by apply elem_of_iter_possible_rolls.
  - by apply NoDup_iter_possible_rolls.
  - rewrite iter_possible_rolls_eq by done. apply StronglySorted_rolls_from.
  - done.
Qed.

Lemma iter_possible_rolls_spec_witness :
  1 ≤ 3 ∧
  length (iter_possible_rolls 2 3) = binom (Z.to_nat 3 + 2 - 1) 2 ∧
  NoDup (iter_possible_rolls 2 3).
Proof.
  split; [lia|].
  split; apply (iter_possible_rolls_spec 2 3); lia.
Defined.

(** ** Loops *)

Lemma for_each_app {A S} (xs ys : list A) (body : A → S → res S) (s : S) :
  for_each (xs ++ ys) body s = do s' <- for_each xs body s; for_each ys body s'.
Proof.
  revert s. induction xs as [|x xs IH]; intros s; simpl; [done|].
  destruct (body x s); simpl; [apply IH | done].
Qed.

Lemma for_each_ext {A S} (xs : list A) (body1 body2 : A → S → res S) (s : S) :
  (∀ x s, x ∈ xs → body1 x s = body2 x s) →
  for_each xs body1 s = for_each xs body2 s.
Proof.
  revert s. induction xs as [|x xs IH]; intros s Hext; simpl; [done|].
  rewrite Hext by left. destruct (body2 x s); simpl; [|done].
  apply IH. intros y s' Hy. apply Hext. by right.
Qed.

(** The invariant rule: [I pre s] holds after the turns for [pre]. *)
Lemma for_each_inv {A S} (I : list A → S → Prop) (xs : list A)
    (body : A → S → res S) (s : S) :
  I [] s →
  (∀ pre x post s, xs = pre ++ x :: post → I pre s →
     ∃ s', body x s = Ok s' ∧ I (pre ++ [x]) s') →
  ∃ s', for_each xs body s = Ok s' ∧ I xs s'.
Proof.
  intros H0 Hstep.
  assert (∀ post pre s, xs = pre ++ post → I pre s →
            ∃ s', for_each post body s = Ok s' ∧ I xs s') as Hgen.
  { induction post as [|x post IH]; intros pre s0 E Hpre.
    - exists s0. rewrite app_nil_r in E. by subst.
    - destruct (Hstep pre x post s0 E Hpre) as (s1 & Hb & H1).
      destruct (IH (pre ++ [x]) s1) as (s2 & Hf & H2); [by rewrite <- app_assoc | done |].
      exists s2. simpl. by rewrite Hb. }
  by apply (Hgen xs []).
Qed.

Lemma getitem_Some {V} (d : gmap (list Z) V) (k : list Z) (v : V) :
  d !! k = Some v → getitem d k = Ok v.
Proof. unfold getitem. by intros ->. Qed.

(** ** Comparisons of values *)

Lemma eqv_true (x y : Qc) : eqv x y = true ↔ x = y.
Proof.
  unfold eqv. rewrite Qceq_alt. destruct (x ?= y)%Qc; split; done.
Qed.

Lemma eqv_refl (x : Qc) : eqv x x = true.
Proof. by apply eqv_true. Qed.

Lemma gt_true (x y : Qc) : gt x y = true ↔ (y < x)%Qc.
Proof.
  unfold gt. rewrite (Qcgt_alt x y). destruct (x ?= y)%Qc; split; done.
Qed.

Lemma gt_false (x y : Qc) : gt x y = false ↔ (x ≤ y)%Qc.
Proof.
  unfold gt. rewrite (Qcle_alt x y). destruct (x ?= y)%Qc; split; done.
Qed.

(** ** The table validator *)

(** Two items whose keys canonicalise to the same roll carry unequal values. *)
Definition conflicting (input : list (list Z * Qc)) : Prop :=
  ∃ k1 v1 k2 v2, (k1, v1) ∈ input ∧ (k2, v2) ∈ input ∧
                  sorted k1 = sorted k2 ∧ v1 ≠ v2.

(** The table holds exactly the items seen, under their canonical keys. *)
Definition holds (input : list (list Z * Qc)) (t : gmap (list Z) Qc) : Prop :=
  (∀ k v, (k, v) ∈ input → t !! sorted k = Some v) ∧
  (∀ r v, t !! r = Some v → ∃ k, (k, v) ∈ input ∧ sorted k = r).

Lemma holds_not_conflicting input t : holds input t → ¬ conflicting input.
Proof.
  intros [H1 _] (k1 & v1 & k2 & v2 & Hi1 & Hi2 & Hk & Hv).
  apply H1 in Hi1, Hi2. rewrite Hk in Hi1. congruence.
Qed.

Lemma holds_snoc_same pre t k v :
  holds pre t → t !! sorted k = Some v →
  holds (pre ++ [(k, v)]) (<[sorted k := v]> t).
Proof.
  intros [H1 H2] E. rewrite insert_id by done. split.
  - intros k' v' [Hin|Hin%list_elem_of_singleton]%elem_of_app; [by apply H1|].
    by inversion Hin; subst.
  - intros r v' Hr. destruct (H2 r v' Hr) as (k' & Hin & Hk').
    exists k'. split; [apply elem_of_app; by left | done].
Qed.

Lemma holds_snoc_new pre t k v :
  holds pre t → t !! sorted k = None →
  holds (pre ++ [(k, v)]) (<[sorted k := v]> t).
Proof.
  intros [H1 H2] E. split.
  - intros k' v' [Hin|Hin%list_elem_of_singleton]%elem_of_app.
    + destruct (decide (sorted k = sorted k')) as [Heq|Hne].
      * apply H1 in Hin. rewrite <- Heq in Hin. congruence.
      * rewrite lookup_insert_ne by done. by apply H1.
    + inversion Hin; subst. by rewrite lookup_insert_eq.
  - intros r v' Hr. destruct (decide (sorted k = r)) as [<-|Hne].
    + rewrite lookup_insert_eq in Hr. inversion Hr; subst.
      exists k. split; [apply elem_of_app; right; by left | done].
    + rewrite lookup_insert_ne in Hr by done.
      destruct (H2 r v' Hr) as (k' & Hin & Hk').
      exists k'. split; [apply elem_of_app; by left | done].
Qed.

Lemma canonicalise_spec (rest pre : list (list Z * Qc)) (t : gmap (list Z) Qc) :
  holds pre t →
  match for_each rest parse_entry t with
  | Ok t' => holds (pre ++ rest) t'
  | Raise e =>
      ∃ k1 v1 k2 v2, e = InconsistentValue (sorted k1) v1 v2 ∧ v1 ≠ v2 ∧
        (k1, v1) ∈ pre ++ rest ∧ (k2, v2) ∈ pre ++ rest ∧ sorted k2 = sorted k1
  end.
Proof.
  revert pre t. induction rest as [|[k v] rest IH]; intros pre t Ht.
  - simpl. by rewrite app_nil_r.
  - simpl. unfold parse_entry at 1. simpl.
    destruct (t !! sorted k) as [w|] eqn:E.
    + destruct (eqv w v) eqn:Ev; simpl.
      * apply eqv_true in Ev as ->.
        specialize (IH (pre ++ [(k, v)]) _ (holds_snoc_same _ _ _ _ Ht E)).
        by rewrite <- app_assoc in IH.
      * destruct Ht as [_ H2]. destruct (H2 _ _ E) as (k' & Hin & Hk').
        exists k', w, k, v. rewrite Hk'. repeat split; try done.
        -- intros ->. by rewrite eqv_refl in Ev.
        -- apply elem_of_app. by left.
        -- apply elem_of_app. right. by left.
    + simpl. specialize (IH (pre ++ [(k, v)]) _ (holds_snoc_new _ _ _ _ Ht E)).
      by rewrite <- app_assoc in IH.
Qed.

Lemma holds_empty : holds [] ∅.
Proof. split; [by intros k v ?%elem_of_nil | by intros r v ?%lookup_empty_Some]. Qed.

Lemma check_present_spec (t : gmap (list Z) Qc) (rolls : list (list Z)) :
  match for_each rolls (check_present t) tt with
  | Ok _ => ∀ r, r ∈ rolls → is_Some (t !! r)
  | Raise e => ∃ r, e = MissingRoll r ∧ r ∈ rolls ∧ t !! r = None
  end.
Proof.
  induction rolls as [|r rolls IH]; simpl.
  - by intros r ?%elem_of_nil.
  - unfold check_present at 1. destruct (t !! r) as [v|] eqn:E; simpl.
    + destruct (for_each rolls (check_present t) tt) as [[]|e].
      * intros r' [->|Hin]%elem_of_cons; [by exists v | by apply IH].
      * destruct IH as (r' & -> & Hin & Hr'). exists r'. repeat split; [by right | done].
    + exists r. repeat split; [by left | done].
Qed.

(** The validator in full: its three outcomes. *)
Lemma _parse_roll_values_spec (num_dice : nat) (num_faces : Z) (input : list (list Z * Qc)) :
  match _parse_roll_values num_dice num_faces input with
  | Ok t =>
      holds input t ∧ ∀ r, r ∈ iter_possible_rolls num_dice num_faces → is_Some (t !! r)
  | Raise e =>
      (∃ k1 v1 k2 v2, e = InconsistentValue (sorted k1) v1 v2 ∧ v1 ≠ v2 ∧
         (k1, v1) ∈ input ∧ (k2, v2) ∈ input ∧ sorted k2 = sorted k1) ∨
      (¬ conflicting input ∧
       ∃ r, e = MissingRoll r ∧ r ∈ iter_possible_rolls num_dice num_faces ∧
            ∀ k v, (k, v) ∈ input → sorted k ≠ r)
  end.
Proof.
  unfold _parse_roll_values.
  pose proof (canonicalise_spec input [] ∅ holds_empty) as H1. simpl in H1.
  destruct (for_each input parse_entry ∅) as [t|e]; simpl; [|by left].
  pose proof (check_present_spec t (iter_possible_rolls num_dice num_faces)) as H2.
  destruct (for_each _ (check_present t) tt) as [[]|e]; simpl; [done|].
  right. split; [by eapply holds_not_conflicting|].
  destruct H2 as (r & -> & Hin & Hr). exists r. repeat split; [done|].
  intros k v Hkv <-. apply H1 in Hkv. congruence.
Qed.

(** ** The conditional value computer *)

(** [c[r]], read as 0 where the key is missing. *)
Definition value (c : gmap (list Z) Qc) (r : list Z) : Qc := default 0%Qc (c !! r).

Definition Qc_sum (l : list Qc) : Qc := foldr Qcplus 0%Qc l.

(** [(1/faceCount) * sum over face of value(sorted(kept + face))] *)
Definition expected (num_faces : Z) (c : gmap (list Z) Qc) (kept : list Z) : Qc :=
  (1 / qz num_faces * Qc_sum ((λ face, value c (sorted (kept ++ [face]))) <$> seqZ 1 num_faces))%Qc.

Lemma range_down_S (n : nat) : range_down (S n) = n :: range_down n.
Proof. unfold range_down. by rewrite seq_S, reverse_app. Qed.

Lemma canonical_sorted_snoc (num_faces : Z) (kept : list Z) (i : Z) :
  canonical num_faces kept → 1 ≤ i ≤ num_faces →
  canonical num_faces (sorted (kept ++ [i])).
Proof.
  intros [_ Hf] Hi. split; [apply sorted_Sorted|].
  apply sorted_Forall, Forall_app. split; [done|]. by constructor.
Qed.

Lemma sum_loop (c : gmap (list Z) Qc) (kept : list Z) (faces : list Z) (acc : Qc) :
  (∀ i, i ∈ faces → is_Some (c !! sorted (kept ++ [i]))) →
  for_each faces (add_term c kept) acc =
  Ok (acc + Qc_sum ((λ face, value c (sorted (kept ++ [face]))) <$> faces))%Qc.
Proof.
  revert acc. induction faces as [|i faces IH]; intros acc Hall.
  - simpl. f_equal. ring.
  - destruct (Hall i) as [v Hv]; [by left|].
    rewrite fmap_cons. cbn [for_each Qc_sum foldr].
    unfold add_term at 1. rewrite (getitem_Some _ _ _ Hv). simpl res_bind.
    rewrite IH by (intros j Hj; apply Hall; by right).
    assert (value c (sorted (kept ++ [i])) = v) as -> by (unfold value; by rewrite Hv).
    f_equal. fold (Qc_sum ((λ face, value c (sorted (kept ++ [face]))) <$> faces)). ring.
Qed.

Lemma average_kept_spec (num_faces : Z) (c : gmap (list Z) Qc) (kept : list Z) :
  num_faces ≠ 0 →
  (∀ i, 1 ≤ i ≤ num_faces → is_Some (c !! sorted (kept ++ [i]))) →
  average_kept num_faces kept c = Ok (<[kept := expected num_faces c kept]> c).
Proof.
  intros Hf Hall. unfold average_kept, range.
  replace (num_faces + 1 - 1) with num_faces by lia.
  rewrite sum_loop by (intros i Hi%elem_of_seqZ; apply Hall; lia).
  simpl. unfold divide. destruct (Z.eqb_spec num_faces 0); [done|]. simpl.
  do 2 f_equal. unfold expected, Qcdiv. ring.
Qed.

Lemma expected_ext (num_faces : Z) (c c' : gmap (list Z) Qc) (kept : list Z) :
  (∀ i, 1 ≤ i ≤ num_faces → c !! sorted (kept ++ [i]) = c' !! sorted (kept ++ [i])) →
  expected num_faces c kept = expected num_faces c' kept.
Proof.
  intros Hext. unfold expected. do 2 f_equal.
  apply list_fmap_ext. intros _ i Hi%list_elem_of_lookup_2%elem_of_seqZ.
  unfold value. rewrite Hext by lia. done.
Qed.

(** One layer: every roll of [k] kept dice receives its mean. *)
Lemma cond_layer (num_faces : Z) (k : nat) (c0 : gmap (list Z) Qc) :
  1 ≤ num_faces →
  (∀ r, canonical num_faces r → length r = S k → is_Some (c0 !! r)) →
  ∃ c, for_each (iter_possible_rolls k num_faces) (average_kept num_faces) c0 = Ok c ∧
       (∀ r, length r ≠ k → c !! r = c0 !! r) ∧
       (∀ r, ¬ canonical num_faces r → c !! r = c0 !! r) ∧
       (∀ r, canonical num_faces r → length r = k →
             c !! r = Some (expected num_faces c0 r)).
Proof.
  intros Hf Htot.
  destruct (for_each_inv
    (λ pre c, (∀ r, length r ≠ k → c !! r = c0 !! r) ∧
              (∀ r, ¬ canonical num_faces r → c !! r = c0 !! r) ∧
              (∀ r, r ∈ pre → c !! r = Some (expected num_faces c0 r)))
    (iter_possible_rolls k num_faces) (average_kept num_faces) c0)
    as (c & Hrun & Hlen & Hnc & Hin).
  - split; [done|]. split; [done|]. by intros r ?%elem_of_nil.
  - intros pre kept post c E (Hlen & Hnc & Hin).
    assert (kept ∈ iter_possible_rolls k num_faces) as Hk.
    { rewrite E. apply elem_of_app. right. by left. }
    apply elem_of_iter_possible_rolls in Hk as [Hkl Hkc]; [|done].
    assert (∀ i, 1 ≤ i ≤ num_faces →
              c !! sorted (kept ++ [i]) = c0 !! sorted (kept ++ [i])) as Hsame.
    { intros i Hi. apply Hlen. rewrite sorted_length, length_app. simpl. lia. }
    exists (<[kept := expected num_faces c kept]> c). split.
    + apply average_kept_spec; [lia|]. intros i Hi. rewrite Hsame by done.
      apply Htot; [by apply canonical_sorted_snoc|].
      rewrite sorted_length, length_app. simpl. lia.
    + repeat split.
      * intros r Hr. rewrite lookup_insert_ne by congruence. by apply Hlen.
      * intros r Hr. rewrite lookup_insert_ne by congruence. by apply Hnc.
      * intros r [Hr|Hr%list_elem_of_singleton]%elem_of_app.
        -- destruct (decide (kept = r)) as [->|Hne].
           ++ rewrite lookup_insert_eq. f_equal. by apply expected_ext.
           ++ rewrite lookup_insert_ne by done. by apply Hin.
        -- subst r. rewrite lookup_insert_eq. f_equal. by apply expected_ext.
  - exists c. repeat split; try done.
    intros r Hc Hl. apply Hin. by apply elem_of_iter_possible_rolls.
Qed.

(** The table after the layers [k, num_dice) are done. *)
Definition cond_done (num_dice : nat) (num_faces : Z) (next c : gmap (list Z) Qc)
    (k : nat) : Prop :=
  (∀ r, (num_dice <= length r)%nat → c !! r = next !! r) ∧
  (∀ r, ¬ canonical num_faces r → c !! r = next !! r) ∧
  (∀ r, canonical num_faces r → (k <= length r <= num_dice)%nat → is_Some (c !! r)) ∧
  (∀ r, canonical num_faces r → (k <= length r < num_dice)%nat →
        c !! r = Some (expected num_faces c r)).

Lemma cond_layers (num_dice : nat) (num_faces : Z) (next : gmap (list Z) Qc) (k : nat)
    (c0 : gmap (list Z) Qc) :
  1 ≤ num_faces → (k <= num_dice)%nat →
  cond_done num_dice num_faces next c0 k →
  ∃ c, for_each (range_down k) (λ num_kept values_given_kept,
         for_each (iter_possible_rolls num_kept num_faces)
           (average_kept num_faces) values_given_kept) c0 = Ok c ∧
       cond_done num_dice num_faces next c 0.
Proof.
  intros Hf. revert c0. induction k as [|k IH]; intros c0 Hk Hdone.
  - exists c0. done.
  - rewrite range_down_S. simpl.
    destruct Hdone as (Hn & Hnc & Htot & Hrec).
    destruct (cond_layer num_faces k c0 Hf) as (c & Hrun & Hlen & Hnc' & Hnew).
    { intros r Hc Hl. apply Htot; [done | lia]. }
    rewrite Hrun. simpl. apply IH; [lia|]. repeat split.
    + intros r Hr. rewrite Hlen by lia. by apply Hn.
    + intros r Hr. rewrite Hnc' by done. by apply Hnc.
    + intros r Hc Hr. destruct (decide (length r = k)) as [Hl|Hl].
      * rewrite Hnew by done. done.
      * rewrite Hlen by done. apply Htot; [done | lia].
    + intros r Hc Hr.
      assert (∀ r', length r' = S (length r) → c !! r' = c0 !! r') as Hup.
      { intros r' Hr'. apply Hlen. lia. }
      destruct (decide (length r = k)) as [Hl|Hl].
      * rewrite Hnew by done. f_equal. apply expected_ext. intros i Hi.
        symmetry. apply Hlen. rewrite sorted_length, length_app. simpl. lia.
      * rewrite Hlen by done. rewrite Hrec by (done || lia). f_equal.
        apply expected_ext. intros i Hi.
        symmetry. apply Hlen. rewrite sorted_length, length_app. simpl. lia.
Qed.

Lemma _compute_values_given_kept_spec (num_dice : nat) (num_faces : Z)
    (next : gmap (list Z) Qc) :
  1 ≤ num_faces →
  (∀ r, r ∈ iter_possible_rolls num_dice num_faces → is_Some (next !! r)) →
  ∃ c, _compute_values_given_kept num_dice num_faces next = Ok c ∧
       cond_done num_dice num_faces next c 0.
Proof.
  intros Hf Htot. apply cond_layers; [done | lia |]. repeat split.
  - intros r Hc Hr. apply Htot, elem_of_iter_possible_rolls; [done|]. split; [lia | done].
  - intros r Hc Hr. lia.
Qed.

(** * The conditional values as the code computes them

    [_compute_values_given_kept] is the one method that does arithmetic on
    values: [sum(...) / self.num_faces].  Here the method is modelled with
    that arithmetic as a parameter, [mean items num_faces] standing for
    [sum(items) / num_faces] on the items that the generator yields.  With
    exact rationals this is the model used so far; with binary64 floats it
    is what Python computes. *)

Section Arithmetic.
Context {number : Type}.
Variable mean : list number → Z → res number.
Variables (num_dice : nat) (num_faces : Z).

(** One item of the generator
    [values_given_kept[tuple(sorted(kept + (i,)))] for i in range(...)]. *)
Definition next_item (values_given_kept : gmap (list Z) number) (kept : Roll) (i : Z)
    (items : list number) : res (list number) :=
  do v <- getitem values_given_kept (sorted (kept ++ [i]));
  Ok (items ++ [v]).

Definition average_kept_with (kept : Roll) (values_given_kept : gmap (list Z) number)
  : res (gmap (list Z) number) :=
  do items <- for_each (range 1 (num_faces + 1)) (next_item values_given_kept kept) [];
  do quotient <- mean items num_faces;
  Ok (<[kept := quotient]> values_given_kept).

Definition _compute_values_given_kept_with (next_roll_values : gmap (list Z) number)
  : res (gmap (list Z) number) :=
  for_each (range_down num_dice) (λ num_kept values_given_kept,
    for_each (iter_possible_rolls num_kept num_faces) average_kept_with values_given_kept)
    next_roll_values.
End Arithmetic.

(** The values that the mean of [kept] is taken of: those of [kept] with
    each face added, in the order of the faces. *)
Definition items_of {number : Type} (num_faces : Z) (c : gmap (list Z) number)
    (kept : list Z) : option (list number) :=
  mapM (λ face, c !! sorted (kept ++ [face])) (seqZ 1 num_faces).

(** ** Exact arithmetic *)

(** [sum(items) / num_faces] on exact rationals. *)
Definition exact_mean (items : list Qc) (num_faces : Z) : res Qc :=
  divide (foldl Qcplus 0%Qc items) num_faces.

Lemma exact_items (c : gmap (list Z) Qc) (kept : list Z) (faces : list Z) (items : list Qc) :
  for_each faces (add_term c kept) (foldl Qcplus 0%Qc items) =
  do items' <- for_each faces (next_item c kept) items; Ok (foldl Qcplus 0%Qc items').
Proof.
  revert items. induction faces as [|i faces IH]; intros items; [done|].
  cbn [for_each]. unfold add_term at 1, next_item at 1.
  destruct (getitem c (sorted (kept ++ [i]))) as [v|e]; [|done].
  cbn [res_bind]. rewrite <- IH. by rewrite foldl_app.
Qed.

(** With exact arithmetic the parametrised method is the method of the
    widget model. *)
Lemma average_kept_exact (num_faces : Z) (kept : list Z) (c : gmap (list Z) Qc) :
  average_kept_with exact_mean num_faces kept c = average_kept num_faces kept c.
Proof.
  unfold average_kept_with, average_kept, exact_mean.
  rewrite (exact_items c kept _ []).
  by destruct (for_each _ (next_item c kept) []).
Qed.

Lemma _compute_values_given_kept_exact (num_dice : nat) (num_faces : Z)
    (next : gmap (list Z) Qc) :
  _compute_values_given_kept_with exact_mean num_dice num_faces next =
  _compute_values_given_kept num_dice num_faces next.
Proof.
  unfold _compute_values_given_kept_with, _compute_values_given_kept.
  apply for_each_ext. intros num_kept c _.
  apply for_each_ext. intros kept c' _. apply average_kept_exact.
Qed.

(** ** What the method computes, whatever the arithmetic *)

Lemma items_of_ext {number : Type} (num_faces : Z) (c c' : gmap (list Z) number)
    (kept : list Z) :
  (∀ i, 1 ≤ i ≤ num_faces → c !! sorted (kept ++ [i]) = c' !! sorted (kept ++ [i])) →
  items_of num_faces c kept = items_of num_faces c' kept.
Proof.
  intros Hext. unfold items_of. apply Forall_mapM_ext, Forall_forall.
  intros i Hi%elem_of_seqZ. apply Hext. lia.
Qed.

Lemma items_of_length {number : Type} (num_faces : Z) (c : gmap (list Z) number)
    (kept : list Z) (items : list number) :
  items_of num_faces c kept = Some items → length items = Z.to_nat num_faces.
Proof.
  intros H%length_mapM. rewrite length_seqZ in H. lia.
Qed.

Lemma items_loop {number : Type} (c : gmap (list Z) number) (kept : list Z)
    (faces : list Z) (items0 : list number) :
  (∀ i, i ∈ faces → is_Some (c !! sorted (kept ++ [i]))) →
  ∃ items, mapM (λ face, c !! sorted (kept ++ [face])) faces = Some items ∧
           for_each faces (next_item c kept) items0 = Ok (items0 ++ items).
Proof.
  revert items0. induction faces as [|i faces IH]; intros items0 Hall.
  - exists []. split; [done|]. simpl. by rewrite app_nil_r.
  - destruct (Hall i) as [v Hv]; [by left|].
    destruct (IH (items0 ++ [v])) as (items & Hm & Hrun).
    { intros j Hj. apply Hall. by right. }
    exists (v :: items). split.
    + cbn [mapM]. rewrite Hv. cbn. by rewrite Hm.
    + cbn [for_each]. unfold next_item at 1. rewrite (getitem_Some _ _ _ Hv).
      cbn [res_bind]. rewrite Hrun. by rewrite <- app_assoc.
Qed.

Lemma average_kept_with_spec {number : Type} (mean : list number → Z → res number)
    (num_faces : Z) (c : gmap (list Z) number) (kept : list Z) :
  0 ≤ num_faces →
  (∀ i, 1 ≤ i ≤ num_faces → is_Some (c !! sorted (kept ++ [i]))) →
  (∀ items, length items = Z.to_nat num_faces → ∃ q, mean items num_faces = Ok q) →
  ∃ items q, items_of num_faces c kept = Some items ∧
             mean items num_faces = Ok q ∧
             average_kept_with mean num_faces kept c = Ok (<[kept := q]> c).
Proof.
  intros Hf Hall Hmean. unfold average_kept_with, range, items_of.
  replace (num_faces + 1 - 1) with num_faces by lia.
  destruct (items_loop c kept (seqZ 1 num_faces) []) as (items & Hm & Hrun).
  { intros i Hi%elem_of_seqZ. apply Hall. lia. }
  destruct (Hmean items) as [q Hq].
  { apply length_mapM in Hm. rewrite length_seqZ in Hm. lia. }
  exists items, q. split; [done|]. split; [done|].
  rewrite Hrun. cbn [res_bind app]. by rewrite Hq.
Qed.

(** The table after the layers [k, num_dice) are done. *)
Definition layers_done {number : Type} (mean : list number → Z → res number)
    (num_dice : nat) (num_faces : Z) (next c : gmap (list Z) number) (k : nat) : Prop :=
  (∀ r, (num_dice <= length r)%nat → c !! r = next !! r) ∧
  (∀ r, canonical num_faces r → (k <= length r <= num_dice)%nat → is_Some (c !! r)) ∧
  (∀ r, canonical num_faces r → (k <= length r < num_dice)%nat →
        ∃ items q, items_of num_faces c r = Some items ∧
                   mean items num_faces = Ok q ∧ c !! r = Some q).

Lemma layer_with {number : Type} (mean : list number → Z → res number)
    (num_faces : Z) (k : nat) (c0 : gmap (list Z) number) :
  1 ≤ num_faces →
  (∀ items, length items = Z.to_nat num_faces → ∃ q, mean items num_faces = Ok q) →
  (∀ r, canonical num_faces r → length r = S k → is_Some (c0 !! r)) →
  ∃ c, for_each (iter_possible_rolls k num_faces) (average_kept_with mean num_faces) c0
       = Ok c ∧
       (∀ r, length r ≠ k → c !! r = c0 !! r) ∧
       (∀ r, canonical num_faces r → length r = k →
             ∃ items q, items_of num_faces c0 r = Some items ∧
                        mean items num_faces = Ok q ∧ c !! r = Some q).
Proof.
  intros Hf Hmean Htot.
  destruct (for_each_inv
    (λ pre c, (∀ r, length r ≠ k → c !! r = c0 !! r) ∧
              (∀ r, r ∈ pre →
                    ∃ items q, items_of num_faces c0 r = Some items ∧
                               mean items num_faces = Ok q ∧ c !! r = Some q))
    (iter_possible_rolls k num_faces) (average_kept_with mean num_faces) c0)
    as (c & Hrun & Hlen & Hin).
  - split; [done|]. by intros r ?%elem_of_nil.
  - intros pre kept post c E (Hlen & Hin).
    assert (kept ∈ iter_possible_rolls k num_faces) as Hk.
    { rewrite E. apply elem_of_app. right. by left. }
    apply elem_of_iter_possible_rolls in Hk as [Hkl Hkc]; [|done].
    assert (∀ i, 1 ≤ i ≤ num_faces →
              c !! sorted (kept ++ [i]) = c0 !! sorted (kept ++ [i])) as Hsame.
    { intros i Hi. apply Hlen. rewrite sorted_length, length_app. simpl. lia. }
    destruct (average_kept_with_spec mean num_faces c kept) as (items & q & Hi & Hq & Hrun);
      [lia | | done |].
    { intros i Hi. rewrite Hsame by done.
      apply Htot; [by apply canonical_sorted_snoc|].
      rewrite sorted_length, length_app. simpl. lia. }
    rewrite (items_of_ext num_faces c c0 kept Hsame) in Hi.
    exists (<[kept := q]> c). split; [done|]. split.
    + intros r Hr. rewrite lookup_insert_ne by congruence. by apply Hlen.
    + intros r [Hr|Hr%list_elem_of_singleton]%elem_of_app.
      * destruct (decide (kept = r)) as [->|Hne].
        -- exists items, q. by rewrite lookup_insert_eq.
        -- rewrite lookup_insert_ne by done. by apply Hin.
      * subst r. exists items, q. by rewrite lookup_insert_eq.
  - exists c. split; [done|]. split; [done|].
    intros r Hc Hl. apply Hin. by apply elem_of_iter_possible_rolls.
Qed.

Lemma layers_with {number : Type} (mean : list number → Z → res number)
    (num_dice : nat) (num_faces : Z) (next : gmap (list Z) number) (k : nat)
    (c0 : gmap (list Z) number) :
  1 ≤ num_faces →
  (∀ items, length items = Z.to_nat num_faces → ∃ q, mean items num_faces = Ok q) →
  (k <= num_dice)%nat →
  layers_done mean num_dice num_faces next c0 k →
  ∃ c, for_each (range_down k) (λ num_kept values_given_kept,
         for_each (iter_possible_rolls num_kept num_faces)
           (average_kept_with mean num_faces) values_given_kept) c0 = Ok c ∧
       layers_done mean num_dice num_faces next c 0.
Proof.
  intros Hf Hmean. revert c0. induction k as [|k IH]; intros c0 Hk Hdone.
  - exists c0. done.
  - rewrite range_down_S. cbn [for_each].
    destruct Hdone as (Hn & Htot & Hrec).
    destruct (layer_with mean num_faces k c0 Hf Hmean) as (c & Hrun & Hlen & Hnew).
    { intros r Hc Hl. apply Htot; [done | lia]. }
    rewrite Hrun. cbn [res_bind]. apply IH; [lia|].
    assert (∀ r, (k < length r)%nat →
              items_of num_faces c r = items_of num_faces c0 r) as Hitems.
    { intros r Hr. apply items_of_ext. intros i Hi. apply Hlen.
      rewrite sorted_length, length_app. simpl. lia. }
    split; [|split].
    + intros r Hr. rewrite Hlen by lia. by apply Hn.
    + intros r Hc Hr. destruct (decide (length r = k)) as [Hl|Hl].
      * destruct (Hnew r Hc Hl) as (items & q & _ & _ & ->). by eexists.
      * rewrite Hlen by done. apply Htot; [done | lia].
    + intros r Hc Hr. destruct (decide (length r = k)) as [Hl|Hl].
      * destruct (Hnew r Hc Hl) as (items & q & Hi & Hq & Hv).
        exists items, q. split; [|done].
        rewrite <- Hi. apply items_of_ext. intros i Hi'. apply Hlen.
        rewrite sorted_length, length_app. simpl. lia.
      * rewrite Hlen by done. rewrite Hitems by lia. apply Hrec; [done | lia].
Qed.

(** C3: on a table that covers the rolls of [num_dice] dice, and with an
    arithmetic in which [sum(items) / num_faces] raises nothing,
    [_compute_values_given_kept] returns a table that agrees with its input
    on every roll of length [num_dice] and gives every canonical roll of
    fewer dice the quotient [sum(items) / num_faces] of that arithmetic,
    where [items] are the values of the roll with each face added, in the
    order of the faces. *)
Theorem conditional_values_computed {number : Type} (mean : list number → Z → res number)
    (num_dice : nat) (num_faces : Z) (next : gmap (list Z) number) :
  1 ≤ num_faces →
  (∀ r, length r = num_dice → canonical num_faces r → is_Some (next !! r)) →
  (∀ items, length items = Z.to_nat num_faces → ∃ q, mean items num_faces = Ok q) →
  ∃ c, _compute_values_given_kept_with mean num_dice num_faces next = Ok c ∧
       (∀ r, length r = num_dice → c !! r = next !! r) ∧
       (∀ kept, canonical num_faces kept → (length kept < num_dice)%nat →
          ∃ items q, items_of num_faces c kept = Some items ∧
                     mean items num_faces = Ok q ∧ c !! kept = Some q) ∧
       (∀ r, canonical num_faces r → (length r <= num_dice)%nat → is_Some (c !! r)).
Proof.
  intros Hf Htot Hmean.
  destruct (layers_with mean num_dice num_faces next num_dice next Hf Hmean)
    as (c & Hc & Hn & Hall & Hrec); [lia | |].
  { split; [done|]. split.
    - intros r Hr Hl. apply Htot; [lia | done].
    - intros r Hr Hl. lia. }
  exists c. split; [exact Hc|]. split; [|split].
  - intros r Hr. apply Hn. lia.
  - intros kept Hk Hl. apply Hrec; [done | lia].
  - intros r Hr Hl. apply Hall; [done | lia].
Qed.

(** ** Sub-rolls *)

Lemma Counter_cons (x v : Z) (l : list Z) :
  Counter (x :: l) v = if decide (x = v) then S (Counter l v) else Counter l v.
Proof. unfold Counter. rewrite filter_cons. by case_decide. Qed.

Lemma Counter_Permutation (l1 l2 : list Z) (v : Z) :
  l1 ≡ₚ l2 → Counter l1 v = Counter l2 v.
Proof. intros Hp. unfold Counter. by rewrite Hp. Qed.

Lemma Counter_pos (l : list Z) (v : Z) : (0 < Counter l v)%nat ↔ v ∈ l.
Proof.
  induction l as [|x l IH].
  { split; [unfold Counter; simpl; lia | by intros ?%elem_of_nil]. }
  rewrite Counter_cons, elem_of_cons. case_decide; subst.
  - split; [by left | lia].
  - rewrite IH. naive_solver.
Qed.

Lemma submseteq_Counter (k r : list Z) :
  k ⊆+ r ↔ ∀ v, (Counter k v <= Counter r v)%nat.
Proof.
  split.
  - intros Hs v. induction Hs as [|x l1 l2 _ IH|x y l|x l1 l2 _ IH|l1 l2 l3 _ IH1 _ IH2].
    + done.
    + rewrite !Counter_cons. case_decide; lia.
    + rewrite !Counter_cons. repeat case_decide; lia.
    + rewrite Counter_cons. case_decide; lia.
    + lia.
  - revert r. induction k as [|x k IH]; intros r Hc.
    + apply submseteq_nil_l.
    + assert (x ∈ r) as Hx.
      { apply Counter_pos. specialize (Hc x). rewrite Counter_cons in Hc.
        rewrite decide_True in Hc by done. lia. }
      apply elem_of_Permutation in Hx as [r' Hr'].
      rewrite Hr'. apply submseteq_skip, IH. intros v.
      specialize (Hc v). rewrite (Counter_Permutation _ _ v Hr'), !Counter_cons in Hc.
      case_decide; lia.
Qed.

(** [is_subroll] decides the sub-multiset relation [⊆+] in which the
    resolvers are specified. *)
Lemma is_subroll_submseteq (subroll roll : list Z) :
  is_subroll subroll roll = true ↔ subroll ⊆+ roll.
Proof.
  rewrite submseteq_Counter. unfold is_subroll. rewrite forallb_forall. split.
  - intros H v. destruct (decide (v ∈ subroll)) as [Hin|Hnin].
    + apply Nat.leb_le, H. by apply list_elem_of_In.
    + assert (Counter subroll v = 0%nat) as ->; [|lia].
      destruct (Counter subroll v) eqn:E; [done|].
      destruct Hnin. apply Counter_pos. lia.
  - intros H v _. apply Nat.leb_le, H.
Qed.

(** ** What a resolver must compute *)

(** [v] is the conditional value of some canonical sub-multiset of [r]. *)
Definition attained (c : gmap (list Z) Qc) (r : list Z) (v : Qc) : Prop :=
  ∃ k, Sorted Z.le k ∧ k ⊆+ r ∧ c !! k = Some v.

(** No canonical sub-multiset of [r] has a conditional value above [v]. *)
Definition dominates (c : gmap (list Z) Qc) (r : list Z) (v : Qc) : Prop :=
  ∀ k w, Sorted Z.le k → k ⊆+ r → c !! k = Some w → (w <= v)%Qc.

(** [v] is the maximum of [c] over the sub-multisets of [r]. *)
Definition is_max (c : gmap (list Z) Qc) (r : list Z) (v : Qc) : Prop :=
  attained c r v ∧ dominates c r v.

(** The conditional value table covers every roll of up to [num_dice] dice. *)
Definition total_upto (num_dice : nat) (num_faces : Z) (c : gmap (list Z) Qc) : Prop :=
  ∀ k, canonical num_faces k → (length k <= num_dice)%nat → is_Some (c !! k).

Lemma is_max_unique c r v1 v2 : is_max c r v1 → is_max c r v2 → v1 = v2.
Proof.
  intros [(k1 & Hs1 & Hk1 & Hc1) Hd1] [(k2 & Hs2 & Hk2 & Hc2) Hd2].
  apply Qcle_antisym; eauto.
Qed.

Lemma canonical_submseteq (num_faces : Z) (k r : list Z) :
  Sorted Z.le k → k ⊆+ r → canonical num_faces r → canonical num_faces k.
Proof.
  intros Hs Hk [_ Hf]. split; [done|].
  rewrite Forall_forall in Hf |- *. intros x Hx. apply Hf.
  by eapply elem_of_submseteq.
Qed.

Lemma submseteq_sorted_app (kept other : list Z) : kept ⊆+ sorted (kept ++ other).
Proof. rewrite sorted_Permutation. by apply submseteq_inserts_r. Qed.

Lemma roll_of_parts (num_dice : nat) (num_faces : Z) (k : nat) (kept other : list Z) :
  1 ≤ num_faces → (k <= num_dice)%nat →
  kept ∈ iter_possible_rolls k num_faces →
  other ∈ iter_possible_rolls (num_dice - k) num_faces →
  sorted (kept ++ other) ∈ iter_possible_rolls num_dice num_faces.
Proof.
  intros Hf Hk [Hkl [_ Hkf]]%elem_of_iter_possible_rolls
    [Hol [_ Hof]]%elem_of_iter_possible_rolls; [|done|done].
  apply elem_of_iter_possible_rolls; [done|]. split.
  - rewrite sorted_length, length_app. lia.
  - split; [apply sorted_Sorted|]. apply sorted_Forall, Forall_app. done.
Qed.

(** Every sub-multiset of a roll is completed to it by some canonical roll. *)
Lemma complement_roll (num_faces : Z) (kept r : list Z) :
  1 ≤ num_faces → canonical num_faces r → kept ⊆+ r →
  ∃ other, other ∈ iter_possible_rolls (length r - length kept) num_faces ∧
           sorted (kept ++ other) = r.
Proof.
  intros Hf [Hs Hr] Hsub.
  destruct (submseteq_Permutation _ _ Hsub) as [o Ho].
  exists (sorted o). split.
  - apply elem_of_iter_possible_rolls; [done|]. split.
    + rewrite sorted_length. rewrite Ho, length_app. lia.
    + split; [apply sorted_Sorted|]. apply sorted_Forall.
      rewrite Ho in Hr. by apply Forall_app in Hr as [_ ?].
  - apply sorted_unique; [done|]. by rewrite sorted_Permutation.
Qed.

(** ** The brute-force resolver *)

Section BruteForce.
Variables (num_dice : nat) (num_faces : Z) (keep_all_optimal : bool).
Variable c : gmap (list Z) Qc.
Hypothesis faces_pos : 1 ≤ num_faces.
Hypothesis c_total : total_upto num_dice num_faces c.

Let rolls := iter_possible_rolls num_dice num_faces.

(** One slot of the two tables, for roll [r]: the value [v] is attained
    and is not below the conditional value of any kept roll already
    [seen] for [r]; the moves [ms] are seen kept rolls of value [v], all
    of them when [keep_all_optimal], one of them otherwise. *)
Definition bf_slot (seen : list Z → list Z → Prop) (r : list Z)
    (v : Qc) (ms : list (list Z)) : Prop :=
  attained c r v ∧
  (∀ k w, seen k r → c !! k = Some w → (w <= v)%Qc) ∧
  (∀ k, k ∈ ms → seen k r ∧ c !! k = Some v) ∧
  (if keep_all_optimal then ∀ k, seen k r → c !! k = Some v → k ∈ ms
   else length ms = 1%nat).

(** The loop invariant: the keys of both tables are the rolls, and every
    slot is as [bf_slot] says. *)
Definition bf_inv (seen : list Z → list Z → Prop)
    (st : gmap (list Z) Qc * gmap (list Z) (list (list Z))) : Prop :=
  (∀ r, is_Some (st.1 !! r) → r ∈ rolls) ∧
  (∀ r, is_Some (st.2 !! r) → r ∈ rolls) ∧
  (∀ r, r ∈ rolls → ∃ v ms, st.1 !! r = Some v ∧ st.2 !! r = Some ms ∧
                             bf_slot seen r v ms).

Lemma bf_slot_equiv (seen seen' : list Z → list Z → Prop) r v ms :
  (∀ k, seen' k r ↔ seen k r) → bf_slot seen r v ms → bf_slot seen' r v ms.
Proof.
  intros He (Ha & Hd & Hm & Hall). split; [done|]. split; [|split].
  - intros k w Hs. apply Hd. by apply He.
  - intros k Hk. destruct (Hm k Hk) as [Hs Hv]. split; [by apply He | done].
  - destruct keep_all_optimal; [|done]. intros k Hs. apply Hall. by apply He.
Qed.

Lemma bf_inv_equiv (seen seen' : list Z → list Z → Prop) st :
  (∀ k r, r ∈ rolls → (seen' k r ↔ seen k r)) → bf_inv seen st → bf_inv seen' st.
Proof.
  intros He (H1 & H2 & H3). do 2 (split; [done|]).
  intros r Hr. destruct (H3 r Hr) as (v & ms & Hv & Hms & Hslot).
  exists v, ms. do 2 (split; [done|]).
  eapply bf_slot_equiv; [|exact Hslot]. intros k. by apply He.
Qed.

(** The three outcomes of one comparison, on the slot it concerns. *)
Lemma bf_slot_relax seen r (cur value : Qc) ms (kept : list Z) :
  bf_slot seen r cur ms →
  Sorted Z.le kept → kept ⊆+ r → c !! kept = Some value →
  (gt value cur = true →
   bf_slot (λ k r', seen k r' ∨ (k = kept ∧ r' = r)) r value [kept]) ∧
  (gt value cur = false → keep_all_optimal && eqv value cur = true →
   bf_slot (λ k r', seen k r' ∨ (k = kept ∧ r' = r)) r cur (ms ++ [kept])) ∧
  (gt value cur = false → keep_all_optimal && eqv value cur = false →
   bf_slot (λ k r', seen k r' ∨ (k = kept ∧ r' = r)) r cur ms).
Proof.
  intros (Ha & Hd & Hm & Hall) Hks Hsub Hkv. split; [|split].
  - intros Egt%gt_true. split; [|split; [|split]].
    + exists kept. done.
    + intros k w [Hs|[-> _]] Hw.
      * apply Qclt_le_weak. eapply Qcle_lt_trans; [|exact Egt]. by eapply Hd.
      * rewrite Hkv in Hw. inversion Hw. apply Qcle_refl.
    + intros k Hk%list_elem_of_singleton. subst k. split; [by right | done].
    + destruct keep_all_optimal; [|done]. intros k [Hs|[-> _]] Hw; [|by left].
      exfalso. apply (Qclt_not_le _ _ Egt). by eapply Hd.
  - intros Egt%gt_false [Hka Etie%eqv_true]%andb_true_iff. subst value.
    split; [done|]. split; [|split].
    + intros k w [Hs|[-> _]] Hw; [by eapply Hd|].
      rewrite Hkv in Hw. inversion Hw. apply Qcle_refl.
    + intros k [Hk|Hk%list_elem_of_singleton]%elem_of_app.
      * destruct (Hm k Hk) as [Hs Hv]. split; [by left | done].
      * subst k. split; [by right | done].
    + rewrite Hka in Hall |- *. intros k [Hs|[-> _]] Hw.
      * apply elem_of_app. left. by apply Hall.
      * apply elem_of_app. right. by left.
  - intros Egt%gt_false Etie. split; [done|]. split; [|split].
    + intros k w [Hs|[-> _]] Hw; [by eapply Hd|].
      rewrite Hkv in Hw. by inversion Hw; subst.
    + intros k Hk. destruct (Hm k Hk) as [Hs Hv]. split; [by left | done].
    + destruct keep_all_optimal; [|done]. simpl in Etie.
      intros k [Hs|[-> _]] Hw; [by apply Hall|].
      rewrite Hkv in Hw. inversion Hw; subst. by rewrite eqv_refl in Etie.
Qed.

Lemma bf_relax_spec seen st (value : Qc) (kept other : list Z) :
  bf_inv seen st →
  Sorted Z.le kept → c !! kept = Some value →
  sorted (kept ++ other) ∈ rolls →
  ∃ st', bf_relax keep_all_optimal value kept other st = Ok st' ∧
         bf_inv (λ k r, seen k r ∨ (k = kept ∧ r = sorted (kept ++ other))) st'.
Proof.
  intros (H1 & H2 & H3) Hks Hkv Hroll. destruct st as [rv om]. simpl in *.
  set (roll := sorted (kept ++ other)) in *.
  destruct (H3 _ Hroll) as (cur & ms & Hcur & Hms & Hslot).
  destruct (bf_slot_relax seen roll cur value ms kept Hslot Hks
              (submseteq_sorted_app kept other) Hkv) as (Hup & Htie & Hsame).
  assert (∀ r, r ≠ roll → ∀ v' ms', bf_slot seen r v' ms' →
            bf_slot (λ k r', seen k r' ∨ (k = kept ∧ r' = roll)) r v' ms') as Hother.
  { intros r Hne v' ms'. apply bf_slot_equiv. intros k. split; [|by left].
    by intros [?|[_ ?]]. }
  unfold bf_relax. fold roll. rewrite (getitem_Some _ _ _ Hcur). simpl.
  destruct (gt value cur) eqn:Egt; [|destruct (keep_all_optimal && eqv value cur) eqn:Et].
  - eexists. split; [done|]. split; [|split]; simpl.
    + intros r [v Hv]. destruct (decide (roll = r)) as [<-|Hne]; [done|].
      rewrite lookup_insert_ne in Hv by done. apply H1. by exists v.
    + intros r [v Hv]. destruct (decide (roll = r)) as [<-|Hne]; [done|].
      rewrite lookup_insert_ne in Hv by done. apply H2. by exists v.
    + intros r Hr. destruct (decide (roll = r)) as [<-|Hne].
      * exists value, [kept]. rewrite !lookup_insert_eq. do 2 (split; [done|]).
        by apply Hup.
      * rewrite !lookup_insert_ne by done.
        destruct (H3 r Hr) as (v & ms' & Hv & Hms' & Hs).
        exists v, ms'. do 2 (split; [done|]). by apply Hother.
  - rewrite (getitem_Some _ _ _ Hms). simpl.
    eexists. split; [done|]. split; [|split]; simpl.
    + done.
    + intros r [v Hv]. destruct (decide (roll = r)) as [<-|Hne]; [done|].
      rewrite lookup_insert_ne in Hv by done. apply H2. by exists v.
    + intros r Hr. destruct (decide (roll = r)) as [<-|Hne].
      * exists cur, (ms ++ [kept]). rewrite lookup_insert_eq. do 2 (split; [done|]).
        by apply Htie.
      * rewrite lookup_insert_ne by done.
        destruct (H3 r Hr) as (v & ms' & Hv & Hms' & Hs).
        exists v, ms'. do 2 (split; [done|]). by apply Hother.
  - eexists. split; [done|]. split; [|split]; simpl; [done | done |].
    intros r Hr. destruct (decide (roll = r)) as [<-|Hne].
    + exists cur, ms. do 2 (split; [done|]). by apply Hsame.
    + destruct (H3 r Hr) as (v & ms' & Hv & Hms' & Hs).
      exists v, ms'. do 2 (split; [done|]). by apply Hother.
Qed.

Lemma bf_kept_spec seen st (k : nat) (kept : list Z) :
  (k < num_dice)%nat →
  bf_inv seen st →
  kept ∈ iter_possible_rolls k num_faces →
  ∃ st', bf_kept num_dice num_faces keep_all_optimal c k kept st = Ok st' ∧
         bf_inv (λ k' r, seen k' r ∨ (k' = kept ∧ k' ⊆+ r)) st'.
Proof.
  intros Hk Hinv Hkept.
  pose proof Hkept as [Hkl Hkc]%elem_of_iter_possible_rolls; [|done].
  destruct (c_total kept Hkc) as [value Hv]; [lia|].
  unfold bf_kept. rewrite (getitem_Some _ _ _ Hv). simpl.
  destruct (for_each_inv
    (λ pre st, bf_inv (λ k' r, seen k' r ∨
                 (k' = kept ∧ ∃ o, o ∈ pre ∧ r = sorted (kept ++ o))) st)
    (iter_possible_rolls (num_dice - k) num_faces)
    (bf_relax keep_all_optimal value kept) st) as (st' & Hrun & Hst').
  - eapply bf_inv_equiv; [|exact Hinv]. intros k' r _. split; [|by left].
    intros [?|[_ (o & []%elem_of_nil & _)]]. done.
  - intros pre o post s E Hs.
    destruct (bf_relax_spec _ s value kept o Hs) as (s' & Hs' & Hinv').
    + by destruct Hkc.
    + done.
    + apply (roll_of_parts num_dice num_faces k); [done | lia | done |].
      rewrite E. apply elem_of_app. right. by left.
    + exists s'. split; [done|]. eapply bf_inv_equiv; [|exact Hinv'].
      intros k' r _. split.
      * intros [?|[-> (o' & [Ho'|Ho'%list_elem_of_singleton]%elem_of_app & ->)]].
        -- left. by left.
        -- left. right. split; [done|]. by exists o'.
        -- subst o'. right. done.
      * intros [[?|[-> (o' & Ho' & ->)]]|[-> ->]].
        -- by left.
        -- right. split; [done|]. exists o'. split; [|done].
           apply elem_of_app. by left.
        -- right. split; [done|]. exists o. split; [|done].
           apply elem_of_app. right. by left.
  - exists st'. split; [done|]. eapply bf_inv_equiv; [|exact Hst'].
    intros k' r Hr. split.
    + intros [?|[-> Hsub]]; [by left|]. right. split; [done|].
      pose proof Hr as [Hrl Hrc]%elem_of_iter_possible_rolls; [|done].
      destruct (complement_roll num_faces kept r faces_pos Hrc Hsub) as (o & Ho & Er).
      exists o. split; [|done]. by rewrite Hrl, Hkl in Ho.
    + intros [?|[-> (o & _ & ->)]]; [by left|]. right. split; [done|].
      apply submseteq_sorted_app.
Qed.

Lemma bf_layer_spec seen st (k : nat) :
  (k < num_dice)%nat →
  bf_inv seen st →
  ∃ st', bf_layer num_dice num_faces keep_all_optimal c k st = Ok st' ∧
         bf_inv (λ k' r, seen k' r ∨
                   (k' ∈ iter_possible_rolls k num_faces ∧ k' ⊆+ r)) st'.
Proof.
  intros Hk Hinv. unfold bf_layer.
  destruct (for_each_inv
    (λ pre st, bf_inv (λ k' r, seen k' r ∨ (k' ∈ pre ∧ k' ⊆+ r)) st)
    (iter_possible_rolls k num_faces)
    (bf_kept num_dice num_faces keep_all_optimal c k) st) as (st' & Hrun & Hst').
  - eapply bf_inv_equiv; [|exact Hinv]. intros k' r _. split; [|by left].
    intros [?|[[]%elem_of_nil _]]. done.
  - intros pre kept post s E Hs.
    destruct (bf_kept_spec _ s k kept Hk Hs) as (s' & Hs' & Hinv').
    { rewrite E. apply elem_of_app. right. by left. }
    exists s'. split; [done|]. eapply bf_inv_equiv; [|exact Hinv'].
    intros k' r _. split.
    + intros [?|[[Hp|Hp%list_elem_of_singleton]%elem_of_app Hsub]].
      * left. by left.
      * left. by right.
      * subst k'. by right.
    + intros [[?|[Hp Hsub]]|[-> Hsub]].
      * by left.
      * right. split; [|done]. apply elem_of_app. by left.
      * right. split; [|done]. apply elem_of_app. right. by left.
  - by exists st'.
Qed.

Lemma bf_layers_spec seen st (k : nat) :
  (k <= num_dice)%nat →
  bf_inv seen st →
  ∃ st', for_each (range_down k) (bf_layer num_dice num_faces keep_all_optimal c) st
           = Ok st' ∧
         bf_inv (λ k' r, seen k' r ∨
                   (canonical num_faces k' ∧ (length k' < k)%nat ∧ k' ⊆+ r)) st'.
Proof.
  revert seen st. induction k as [|k IH]; intros seen st Hk Hinv.
  - exists st. split; [done|]. eapply bf_inv_equiv; [|exact Hinv].
    intros k' r _. split; [|by left]. intros [?|(_ & ? & _)]; [done | lia].
  - rewrite range_down_S. simpl.
    destruct (bf_layer_spec seen st k) as (st1 & Hrun1 & Hinv1); [lia | done |].
    rewrite Hrun1. simpl.
    destruct (IH _ st1 ltac:(lia) Hinv1) as (st2 & Hrun2 & Hinv2).
    exists st2. split; [done|]. eapply bf_inv_equiv; [|exact Hinv2].
    intros k' r _. split.
    + intros [?|(Hc & Hl & Hsub)]; [left; by left|].
      destruct (decide (length k' = k)) as [E|Hne].
      * left. right. split; [|done]. by apply elem_of_iter_possible_rolls.
      * right. split; [done|]. split; [lia | done].
    + intros [[?|[Hin Hsub]]|(Hc & Hl & Hsub)].
      * by left.
      * apply elem_of_iter_possible_rolls in Hin as [Hl Hc]; [|done].
        right. split; [done|]. split; [lia | done].
      * right. split; [done|]. split; [lia | done].
Qed.

Lemma bf_init_spec :
  ∃ rv, for_each rolls (bf_init c) ∅ = Ok rv ∧
        ∀ r, rv !! r = if decide (r ∈ rolls) then c !! r else None.
Proof.
  destruct (for_each_inv
    (λ pre (rv : gmap (list Z) Qc),
       ∀ r, rv !! r = if decide (r ∈ pre) then c !! r else None)
    rolls (bf_init c) ∅) as (rv & Hrun & Hrv).
  - intros r. rewrite lookup_empty. case_decide as H; [|done].
    by apply elem_of_nil in H.
  - intros pre x post rv E Hrv.
    assert (x ∈ rolls) as Hx.
    { rewrite E. apply elem_of_app. right. by left. }
    apply elem_of_iter_possible_rolls in Hx as [Hxl Hxc]; [|done].
    destruct (c_total x Hxc) as [v Hv]; [lia|].
    exists (<[x := v]> rv). unfold bf_init. rewrite (getitem_Some _ _ _ Hv).
    split; [done|]. intros r. destruct (decide (x = r)) as [->|Hne].
    + rewrite lookup_insert_eq. rewrite decide_True; [done|].
      apply elem_of_app. right. by left.
    + rewrite lookup_insert_ne, Hrv by done.
      destruct (decide (r ∈ pre)) as [Hin|Hnin].
      * rewrite decide_True; [done|]. apply elem_of_app. by left.
      * rewrite decide_False; [done|].
        intros [?|?%list_elem_of_singleton]%elem_of_app; [done | congruence].
  - by exists rv.
Qed.

Lemma bf_moves_init (l : list (list Z)) (m : gmap (list Z) (list (list Z)))
    (r : list Z) :
  foldl (λ optimal_moves roll, <[roll := [roll]]> optimal_moves) m l !! r =
  if decide (r ∈ l) then Some [r] else m !! r.
Proof.
  revert m. induction l as [|x l IH]; intros m; simpl.
  - done.
  - rewrite IH. destruct (decide (r ∈ l)) as [Hin|Hnin].
    + rewrite decide_True by (by right). done.
    + destruct (decide (x = r)) as [->|Hne].
      * rewrite lookup_insert_eq, decide_True by (by left). done.
      * rewrite lookup_insert_ne by done. rewrite decide_False; [done|].
        intros [->|?]%elem_of_cons; done.
Qed.

(** The brute-force resolver succeeds; its tables have the rolls as keys;
    each value is the maximum over the sub-multisets of the roll; the
    moves of a roll are maximising sub-multisets: all of them when
    [keep_all_optimal], exactly one otherwise. *)
Lemma _compute_from_cond_spec :
  ∃ rv om, _compute_from_cond num_dice num_faces keep_all_optimal c = Ok (rv, om) ∧
    (∀ r, is_Some (rv !! r) → r ∈ rolls) ∧
    (∀ r, is_Some (om !! r) ↔ r ∈ rolls) ∧
    (∀ r, r ∈ rolls → ∃ v ms, rv !! r = Some v ∧ om !! r = Some ms ∧ is_max c r v ∧
       (∀ k, k ∈ ms → Sorted Z.le k ∧ k ⊆+ r ∧ c !! k = Some v) ∧
       (if keep_all_optimal
        then ∀ k, Sorted Z.le k → k ⊆+ r → c !! k = Some v → k ∈ ms
        else length ms = 1%nat)).
Proof.
  destruct bf_init_spec as (rv0 & Hrun0 & Hrv0).
  unfold _compute_from_cond. fold rolls. rewrite Hrun0. simpl.
  set (om0 := foldl (λ optimal_moves roll, <[roll := [roll]]> optimal_moves) ∅ rolls).
  assert (bf_inv (λ k r, k = r) (rv0, om0)) as Hinv0.
  { split; [|split]; simpl.
    - intros r [v Hv]. rewrite Hrv0 in Hv. by case_decide.
    - intros r [v Hv]. unfold om0 in Hv. rewrite bf_moves_init in Hv.
      case_decide; [done|]. by rewrite lookup_empty in Hv.
    - intros r Hr. pose proof Hr as [Hrl Hrc]%elem_of_iter_possible_rolls; [|done].
      destruct (c_total r Hrc) as [v Hv]; [lia|]. exists v, [r].
      rewrite Hrv0, decide_True by done. split; [done|].
      unfold om0. rewrite bf_moves_init, decide_True by done. split; [done|].
      split; [|split; [|split]].
      + exists r. split; [by destruct Hrc | done].
      + intros k w -> Hw. rewrite Hv in Hw. inversion Hw. apply Qcle_refl.
      + intros k Hk%list_elem_of_singleton. by subst k.
      + destruct keep_all_optimal; [|done]. intros k -> _. by left. }
  destruct (bf_layers_spec _ _ num_dice (le_n _) Hinv0) as ([rv om] & Hrun & Hinv).
  exists rv, om. split; [done|]. destruct Hinv as (H1 & H2 & H3). simpl in *.
  split; [done|]. split.
  { intros r. split; [apply H2|]. intros Hr.
    destruct (H3 r Hr) as (v & ms & _ & Hms & _). by exists ms. }
  intros r Hr.
  pose proof Hr as [Hrl Hrc]%elem_of_iter_possible_rolls; [|done].
  assert (∀ k, (k = r ∨ canonical num_faces k ∧ (length k < num_dice)%nat ∧ k ⊆+ r)
               ↔ Sorted Z.le k ∧ k ⊆+ r) as Hseen.
  { intros k. split.
    - intros [->|([Hks _] & _ & Hsub)]; [|done]. split; [by destruct Hrc | done].
    - intros [Hks Hsub]. pose proof (submseteq_length _ _ Hsub) as Hlen.
      destruct (decide (length k = num_dice)) as [E|Hne].
      + left. apply Sorted_le_unique; [done | by destruct Hrc |].
        apply submseteq_length_Permutation; [done | lia].
      + right. split; [by eapply canonical_submseteq|]. split; [lia | done]. }
  destruct (H3 r Hr) as (v & ms & Hv & Hms & Ha & Hd & Hm & Hall).
  exists v, ms. do 2 (split; [done|]). split; [|split].
  - split; [done|]. intros k w Hks Hsub Hw. eapply Hd; [|done]. by apply Hseen.
  - intros k Hk. destruct (Hm k Hk) as [Hs Hkv]. apply Hseen in Hs as [? ?]. done.
  - destruct keep_all_optimal; [|done]. intros k Hks Hsub Hkv.
    apply Hall; [|done]. by apply Hseen.
Qed.

Lemma _compute_from_cond_values :
  ∃ rv om, _compute_from_cond num_dice num_faces keep_all_optimal c = Ok (rv, om) ∧
    (∀ r, is_Some (rv !! r) → r ∈ rolls) ∧
    (∀ r, is_Some (om !! r) ↔ r ∈ rolls) ∧
    (∀ r, r ∈ rolls → ∃ v, rv !! r = Some v ∧ is_max c r v).
Proof.
  destruct _compute_from_cond_spec as (rv & om & Hrun & Hk1 & Hk2 & Hall).
  exists rv, om. do 3 (split; [done|]).
  intros r Hr. destruct (Hall r Hr) as (v & ms & Hv & _ & Hmax & _). by exists v.
Qed.
End BruteForce.

(** ** The lattice resolver: values *)

Lemma seq_middle (a n : nat) (pre post : list nat) (x : nat) :
  seq a n = pre ++ x :: post → x = (a + length pre)%nat ∧ (length pre < n)%nat.
Proof.
  intros E. pose proof (list_lookup_middle pre post x (length pre) eq_refl) as H.
  rewrite <- E in H. by apply lookup_seq in H.
Qed.

(** Every proper sub-multiset of a roll lies below one of its immediate
    predecessors in the lattice. *)
Lemma predecessor_roll (num_faces : Z) (k r : list Z) :
  1 ≤ num_faces → canonical num_faces r → k ⊆+ r → (length k < length r)%nat →
  ∃ p d, p ∈ iter_possible_rolls (length r - 1) num_faces ∧ 1 ≤ d ≤ num_faces ∧
         k ⊆+ p ∧ sorted (p ++ [d]) = r.
Proof.
  intros Hf [Hs Hr] Hsub Hlen.
  destruct (submseteq_Permutation _ _ Hsub) as [o Ho].
  destruct o as [|d o].
  { rewrite app_nil_r in Ho. apply Permutation_length in Ho. lia. }
  assert (r ≡ₚ (k ++ o) ++ [d]) as Hp.
  { rewrite Ho. rewrite <- app_assoc. apply Permutation_app_head.
    by rewrite <- Permutation_cons_append. }
  rewrite Hp in Hr. apply Forall_app in Hr as [Hko Hd].
  exists (sorted (k ++ o)), d. split; [|split; [|split]].
  - apply elem_of_iter_possible_rolls; [done|]. split.
    + rewrite sorted_length. apply Permutation_length in Hp.
      rewrite Hp, (length_app (k ++ o)). simpl. lia.
    + split; [apply sorted_Sorted | by apply sorted_Forall].
  - by inversion Hd.
  - rewrite sorted_Permutation. by apply submseteq_inserts_r.
  - apply sorted_unique; [done|]. by rewrite sorted_Permutation.
Qed.

Section Lattice.
Variables (num_dice : nat) (num_faces : Z) (keep_all_optimal : bool).
Variable c : gmap (list Z) Qc.
Hypothesis faces_pos : 1 ≤ num_faces.
Hypothesis c_total : total_upto num_dice num_faces c.

Abbreviation dp_state := (gmap (list Z) Qc * gmap (list Z) nat * Heap)%type.

(** The slot of roll [r] refers to a set with the single element [k], a
    sub-multiset of [r] whose conditional value is the value of [r]. *)
Definition dp_single (st : dp_state) (r : list Z) : Prop :=
  ∃ ref k v, st.1.2 !! r = Some ref ∧ st.2 !! ref = Some {[ k ]} ∧
             st.1.1 !! r = Some v ∧
             Sorted Z.le k ∧ k ⊆+ r ∧ c !! k = Some v.

(** As long as no set is updated in place, every slot of at most [s] dice
    is single. *)
Definition dp_singles (s : nat) (st : dp_state) : Prop :=
  keep_all_optimal = false →
  ∀ r, canonical num_faces r → (length r <= s)%nat → dp_single st r.

(** After the layers up to [s]: every roll of at most [s] dice holds its
    maximum and a reference to a set. *)
Definition dp_done (s : nat) (st : dp_state) : Prop :=
  (∀ r, is_Some (st.1.1 !! r) → canonical num_faces r) ∧
  (∀ r, is_Some (st.1.2 !! r) → canonical num_faces r) ∧
  (∀ r, canonical num_faces r → (length r <= s)%nat → is_Some (st.1.2 !! r)) ∧
  (∀ r, canonical num_faces r → (length r <= s)%nat →
        ∃ v, st.1.1 !! r = Some v ∧ is_max c r v) ∧
  dp_singles s st.

(** Inside layer [s], started from the values [rv0]: the other layers are
    as they were; a roll of [s] dice holds an attained value that is not
    below its own conditional value nor below the value of any
    predecessor already [seen]. *)
Definition dp_inv (s : nat) (rv0 : gmap (list Z) Qc)
    (seen : list Z → list Z → Prop) (st : dp_state) : Prop :=
  (∀ r, is_Some (st.1.1 !! r) → canonical num_faces r) ∧
  (∀ r, is_Some (st.1.2 !! r) → canonical num_faces r) ∧
  (∀ r, canonical num_faces r → (length r <= s)%nat → is_Some (st.1.2 !! r)) ∧
  (∀ r, length r ≠ s → st.1.1 !! r = rv0 !! r) ∧
  (∀ r, canonical num_faces r → length r = s →
        ∃ v, st.1.1 !! r = Some v ∧ attained c r v ∧
             (∀ w, c !! r = Some w → (w <= v)%Qc) ∧
             ∀ p w, seen p r → rv0 !! p = Some w → (w <= v)%Qc) ∧
  dp_singles s st.

Lemma dp_inv_weaken s rv0 (seen seen' : list Z → list Z → Prop) st :
  (∀ p r, seen' p r → seen p r) → dp_inv s rv0 seen st → dp_inv s rv0 seen' st.
Proof.
  intros Hw (H1 & H2 & H3 & H4 & H5 & H6). do 4 (split; [done|]).
  split; [|done].
  intros r Hc Hl. destruct (H5 r Hc Hl) as (v & Hv & Ha & Hown & Hd).
  exists v. repeat split; try done. intros p w Hs. apply Hd. by apply Hw.
Qed.

Lemma dp_relax_spec s rv0 seen st (value : Qc) (moves : nat) (p : list Z) (die : Z) :
  dp_inv s rv0 seen st →
  canonical num_faces p → S (length p) = s →
  rv0 !! p = Some value → attained c p value →
  st.1.2 !! p = Some moves →
  1 ≤ die ≤ num_faces →
  ∃ st', dp_relax keep_all_optimal value moves p die st = Ok st' ∧
         st'.1.2 !! p = Some moves ∧
         dp_inv s rv0 (λ p' r, seen p' r ∨ (p' = p ∧ r = sorted (p ++ [die]))) st'.
Proof.
  intros (H1 & H2 & H3 & H4 & H5 & H6) Hpc Hpl Hpv Hatt Hpm Hdie.
  destruct st as [[rv om] heap]. simpl in *.
  set (kept := sorted (p ++ [die])).
  assert (canonical num_faces kept) as Hkc by by apply canonical_sorted_snoc.
  assert (length kept = s) as Hkl.
  { unfold kept. rewrite sorted_length, length_app. simpl. lia. }
  assert (kept ≠ p) as Hkp by (intros E; rewrite E in Hkl; lia).
  destruct (H5 _ Hkc Hkl) as (cur & Hcur & Hcatt & Hown & Hdom).
  unfold dp_relax. fold kept. rewrite (getitem_Some _ _ _ Hcur). simpl.
  destruct (gt value cur) eqn:Egt.
  - apply gt_true in Egt. eexists. split; [done|]. simpl.
    split; [by rewrite lookup_insert_ne|].
    split; [|split; [|split; [|split; [|split]]]]; simpl.
    + intros r [v Hv]. destruct (decide (kept = r)) as [<-|Hne]; [done|].
      rewrite lookup_insert_ne in Hv by done. apply H1. by exists v.
    + intros r [v Hv]. destruct (decide (kept = r)) as [<-|Hne]; [done|].
      rewrite lookup_insert_ne in Hv by done. apply H2. by exists v.
    + intros r Hr Hl. destruct (decide (kept = r)) as [<-|Hne].
      * rewrite lookup_insert_eq. by eexists.
      * rewrite lookup_insert_ne by done. by apply H3.
    + intros r Hr. rewrite lookup_insert_ne by congruence. by apply H4.
    + intros r Hr Hl. destruct (decide (kept = r)) as [<-|Hne].
      * exists value. rewrite lookup_insert_eq. split; [done|]. split; [|split].
        -- destruct Hatt as (k & Hks & Hkp' & Hkv). exists k. split; [done|].
           split; [|done]. etrans; [exact Hkp'|]. apply submseteq_sorted_app.
        -- intros w Hw. apply Qclt_le_weak. eapply Qcle_lt_trans; [|exact Egt].
           by apply Hown.
        -- intros p' w [Hs|[-> _]] Hw.
           ++ apply Qclt_le_weak. eapply Qcle_lt_trans; [|exact Egt]. by eapply Hdom.
           ++ rewrite Hpv in Hw. inversion Hw. apply Qcle_refl.
      * rewrite lookup_insert_ne by done.
        destruct (H5 r Hr Hl) as (v & Hv & Ha & Ho & Hd).
        exists v. repeat split; try done.
        intros p' w [Hs|[-> ->]] Hw; [by eapply Hd | done].
    + intros Hka r Hr Hl. unfold dp_single. simpl.
      destruct (decide (kept = r)) as [<-|Hne].
      * destruct (H6 Hka p Hpc ltac:(lia)) as (ref & k & v & Href & Hk & Hv & Hks & Hsub & Hkv).
        simpl in *. rewrite Hpm in Href. inversion Href; subst ref.
        rewrite H4, Hpv in Hv by lia. inversion Hv; subst v.
        exists moves, k, value. rewrite !lookup_insert_eq.
        do 4 (split; [done|]). split; [|done].
        etrans; [exact Hsub|]. apply submseteq_sorted_app.
      * rewrite !lookup_insert_ne by done. by apply (H6 Hka r).
  - apply gt_false in Egt.
    assert (∀ r, canonical num_faces r → length r = s →
              ∃ v, rv !! r = Some v ∧ attained c r v ∧
                   (∀ w, c !! r = Some w → (w <= v)%Qc) ∧
                   ∀ p' w, seen p' r ∨ p' = p ∧ r = sorted (p ++ [die]) →
                           rv0 !! p' = Some w → (w <= v)%Qc) as Hkeep.
    { intros r Hr Hl.
      destruct (H5 r Hr Hl) as (v & Hv & Ha & Ho & Hd).
      exists v. repeat split; try done.
      intros p' w [Hs|[-> ->]] Hw; [by eapply Hd|].
      rewrite Hpv in Hw. inversion Hw; subst. fold kept in Hv.
      rewrite Hcur in Hv. by inversion Hv; subst. }
    destruct (keep_all_optimal && eqv value cur) eqn:Etie.
    + apply andb_true_iff in Etie as [Hka _].
      destruct (H3 _ Hkc) as [target Ht]; [lia|].
      rewrite (getitem_Some _ _ _ Ht). simpl. eexists. split; [done|].
      split; [done|]. do 5 (split; [done|]).
      intros Hka'. congruence.
    + eexists. split; [done|]. split; [done|]. by do 5 (split; [done|]).
Qed.

Lemma dp_propagate_spec s rv0 seen st (p : list Z) :
  dp_inv s rv0 seen st →
  p ∈ iter_possible_rolls (s - 1) num_faces → (1 <= s)%nat →
  (∀ r, canonical num_faces r → (length r < s)%nat →
        ∃ v, rv0 !! r = Some v ∧ is_max c r v) →
  ∃ st', dp_propagate num_faces keep_all_optimal p st = Ok st' ∧
         dp_inv s rv0 (λ p' r, seen p' r ∨
           (p' = p ∧ ∃ d, 1 ≤ d ≤ num_faces ∧ r = sorted (p ++ [d]))) st'.
Proof.
  intros Hinv [Hpl Hpc]%elem_of_iter_possible_rolls Hs Hlow; [|done].
  destruct (Hlow p Hpc) as (value & Hv0 & Hmax); [lia|].
  pose proof Hinv as (_ & _ & H3 & H4 & _).
  destruct (H3 p Hpc) as [moves Hm]; [lia|].
  unfold dp_propagate. rewrite (getitem_Some _ _ value), (getitem_Some _ _ _ Hm);
    [|rewrite H4 by lia; done]. simpl.
  destruct (for_each_inv
    (λ pre st, st.1.2 !! p = Some moves ∧
               dp_inv s rv0 (λ p' r, seen p' r ∨
                 (p' = p ∧ ∃ d, d ∈ pre ∧ r = sorted (p ++ [d]))) st)
    (range 1 (num_faces + 1)) (dp_relax keep_all_optimal value moves p) st)
    as (st' & Hrun & _ & Hst').
  - split; [done|]. eapply dp_inv_weaken; [|exact Hinv].
    intros p' r [?|[_ (d & []%elem_of_nil & _)]]. done.
  - intros pre d post s0 E [Hm0 Hs0].
    assert (1 ≤ d ≤ num_faces) as Hd.
    { assert (d ∈ range 1 (num_faces + 1)) as Hin.
      { rewrite E. apply elem_of_app. right. by left. }
      unfold range in Hin. apply elem_of_seqZ in Hin. lia. }
    destruct (dp_relax_spec s rv0 _ s0 value moves p d Hs0 Hpc)
      as (s' & Hs' & Hm' & Hinv'); [lia | done | by destruct Hmax | done | done |].
    exists s'. split; [done|]. split; [done|].
    eapply dp_inv_weaken; [|exact Hinv'].
    intros p' r [?|[-> (d' & [Hd'|Hd'%list_elem_of_singleton]%elem_of_app & ->)]].
    + left. by left.
    + left. right. split; [done|]. by exists d'.
    + subst d'. by right.
  - exists st'. split; [done|]. eapply dp_inv_weaken; [|exact Hst'].
    intros p' r [?|[-> (d & Hd & ->)]]; [by left|]. right. split; [done|].
    exists d. split; [|done]. unfold range. apply elem_of_seqZ. lia.
Qed.

Lemma dp_init_spec (s : nat) (st0 : dp_state) :
  (1 <= s <= num_dice)%nat →
  dp_done (s - 1) st0 →
  ∃ st, for_each (iter_possible_rolls s num_faces) (dp_init c) st0 = Ok st ∧
        dp_inv s st0.1.1 (λ _ _, False) st.
Proof.
  intros Hs (D1 & D2 & D3 & D4 & D5).
  destruct (for_each_inv
    (λ pre (st : dp_state),
       (∀ r, is_Some (st.1.1 !! r) → canonical num_faces r) ∧
       (∀ r, is_Some (st.1.2 !! r) → canonical num_faces r) ∧
       (∀ r, canonical num_faces r → (length r <= s - 1)%nat ∨ r ∈ pre →
             is_Some (st.1.2 !! r)) ∧
       (∀ r, length r ≠ s → st.1.1 !! r = st0.1.1 !! r) ∧
       (∀ r, r ∈ pre → is_Some (st.1.1 !! r) ∧ st.1.1 !! r = c !! r) ∧
       (keep_all_optimal = false →
        ∀ r, canonical num_faces r → (length r <= s - 1)%nat ∨ r ∈ pre →
             dp_single st r))
    (iter_possible_rolls s num_faces) (dp_init c) st0)
    as (st & Hrun & I1 & I2 & I3 & I4 & I5 & I6).
  - split; [done|]. split; [done|]. split; [|split; [done|split]].
    + intros r Hc [Hl|[]%elem_of_nil]. by apply D3.
    + by intros r []%elem_of_nil.
    + intros Hka r Hc [Hl|[]%elem_of_nil]. by apply D5.
  - intros pre x post [[rv om] heap] E (I1 & I2 & I3 & I4 & I5 & I6). simpl in *.
    assert (x ∈ iter_possible_rolls s num_faces) as Hx.
    { rewrite E. apply elem_of_app. right. by left. }
    apply elem_of_iter_possible_rolls in Hx as [Hxl Hxc]; [|done].
    destruct (c_total x Hxc) as [v Hv]; [lia|].
    unfold dp_init. rewrite (getitem_Some _ _ _ Hv). simpl.
    eexists. split; [done|]. simpl. split; [|split; [|split; [|split; [|split]]]].
    + intros r [w Hw]. destruct (decide (x = r)) as [<-|Hne]; [done|].
      rewrite lookup_insert_ne in Hw by done. apply I1. by exists w.
    + intros r [w Hw]. destruct (decide (x = r)) as [<-|Hne]; [done|].
      rewrite lookup_insert_ne in Hw by done. apply I2. by exists w.
    + intros r Hc Hr. destruct (decide (x = r)) as [<-|Hne].
      * rewrite lookup_insert_eq. by eexists.
      * rewrite lookup_insert_ne by done. apply I3; [done|].
        destruct Hr as [?|[?|?%list_elem_of_singleton]%elem_of_app]; auto.
        congruence.
    + intros r Hr. rewrite lookup_insert_ne by congruence. by apply I4.
    + intros r Hr. destruct (decide (x = r)) as [<-|Hne].
      * rewrite lookup_insert_eq. split; [by eexists | done].
      * rewrite lookup_insert_ne by done. apply I5.
        apply elem_of_app in Hr as [?|?%list_elem_of_singleton]; [done | congruence].
    + intros Hka r Hc Hr. unfold dp_single. simpl.
      destruct (decide (x = r)) as [<-|Hne].
      * exists (length heap), x, v. rewrite !lookup_insert_eq.
        split; [done|]. split; [by apply list_lookup_middle|].
        split; [done|]. split; [by destruct Hxc|]. done.
      * destruct (I6 Hka r Hc) as (ref & k & w & Href & Hk & Hw & Hrest).
        { destruct Hr as [?|[?|?%list_elem_of_singleton]%elem_of_app]; auto.
          congruence. }
        simpl in *. exists ref, k, w. rewrite !lookup_insert_ne by done.
        split; [done|]. split; [by apply lookup_app_l_Some|]. done.
  - exists st. split; [done|]. split; [done|]. split; [done|].
    split; [|split; [done|split]].
    + intros r Hc Hl. apply I3; [done|].
      destruct (decide (length r = s)) as [E|Hne].
      * right. by apply elem_of_iter_possible_rolls.
      * left. lia.
    + intros r Hc Hl.
      assert (r ∈ iter_possible_rolls s num_faces) as Hr
        by by apply elem_of_iter_possible_rolls.
      destruct (I5 r Hr) as [[v Hv] Hcv]. exists v. split; [done|]. split; [|split].
      * exists r. split; [by destruct Hc|]. split; [done|]. by rewrite <- Hcv.
      * intros w Hw. rewrite Hcv, Hw in Hv. inversion Hv. apply Qcle_refl.
      * by intros p w [].
    + intros Hka r Hc Hl. apply (I6 Hka r Hc).
      destruct (decide (length r = s)) as [E|Hne].
      * right. by apply elem_of_iter_possible_rolls.
      * left. lia.
Qed.

Lemma dp_layer_spec (s : nat) (st0 : dp_state) :
  (1 <= s <= num_dice)%nat →
  dp_done (s - 1) st0 →
  ∃ st, dp_layer num_faces keep_all_optimal c s st0 = Ok st ∧ dp_done s st.
Proof.
  intros Hs Hdone. destruct (dp_init_spec s st0 Hs Hdone) as (st1 & Hrun1 & Hinv1).
  unfold dp_layer. rewrite Hrun1. simpl.
  assert (∀ r, canonical num_faces r → (length r < s)%nat →
            ∃ v, st0.1.1 !! r = Some v ∧ is_max c r v) as Hlow.
  { intros r Hc Hl. destruct Hdone as (_ & _ & _ & D4). apply D4; [done | lia]. }
  destruct (for_each_inv
    (λ pre st, dp_inv s st0.1.1 (λ p r, p ∈ pre ∧
                 ∃ d, 1 ≤ d ≤ num_faces ∧ r = sorted (p ++ [d])) st)
    (iter_possible_rolls (s - 1) num_faces)
    (dp_propagate num_faces keep_all_optimal) st1) as (st & Hrun & Hst).
  - eapply dp_inv_weaken; [|exact Hinv1]. by intros p r [[]%elem_of_nil _].
  - intros pre p post s0 E Hs0.
    destruct (dp_propagate_spec s _ _ s0 p Hs0) as (s' & Hs' & Hinv'); [|lia|done|].
    { rewrite E. apply elem_of_app. right. by left. }
    exists s'. split; [done|]. eapply dp_inv_weaken; [|exact Hinv'].
    intros p' r [[Hp|Hp%list_elem_of_singleton]%elem_of_app Hd].
    + left. done.
    + subst p'. by right.
  - exists st. split; [done|]. destruct Hst as (H1 & H2 & H3 & H4 & H5 & H6).
    do 3 (split; [done|]). split; [|done].
    intros r Hc Hl. destruct (decide (length r = s)) as [E|Hne].
    + destruct (H5 r Hc E) as (v & Hv & Ha & Hown & Hd).
      exists v. split; [done|]. split; [done|].
      intros k w Hks Hsub Hw.
      pose proof (submseteq_length _ _ Hsub) as Hlen.
      destruct (decide (length k = length r)) as [Ek|Hnk].
      * assert (k = r) as ->; [|by apply Hown].
        apply Sorted_le_unique; [done | by destruct Hc |].
        apply submseteq_length_Permutation; [done | lia].
      * destruct (predecessor_roll num_faces k r faces_pos Hc Hsub)
          as (p & d & Hp & Hdr & Hkp & Er); [lia|].
        rewrite E in Hp.
        pose proof Hp as [Hpl Hpc]%elem_of_iter_possible_rolls; [|done].
        destruct (Hlow p Hpc) as (pv & Hpv & [_ Hpd]); [lia|].
        eapply Qcle_trans; [by eapply (Hpd k w)|].
        eapply Hd; [|done]. split; [done|]. by exists d.
    + rewrite H4 by done. apply Hlow; [done | lia].
Qed.

Lemma dp_layers_spec (v0 : Qc) :
  c !! [] = Some v0 →
  ∃ st, for_each (seq 1 num_dice) (dp_layer num_faces keep_all_optimal c)
          ({[ [] := v0 ]}, {[ [] := 0%nat ]}, [ {[ [] ]} ]) = Ok st ∧
        dp_done num_dice st.
Proof.
  intros Hv0.
  destruct (for_each_inv (λ pre st, dp_done (length pre) st)
    (seq 1 num_dice) (dp_layer num_faces keep_all_optimal c)
    ({[ [] := v0 ]}, {[ [] := 0%nat ]}, [ {[ [] ]} ])) as (st & Hrun & Hst).
  - assert (canonical num_faces []) as Hnil by (split; constructor).
    split; [|split; [|split; [|split]]]; simpl.
    + intros r [v [<- _]%lookup_singleton_Some]. done.
    + intros r [v [<- _]%lookup_singleton_Some]. done.
    + intros r _ Hl. destruct r; [|simpl in Hl; lia]. rewrite lookup_singleton_eq.
      by eexists.
    + intros r _ Hl. destruct r; [|simpl in Hl; lia]. exists v0.
      rewrite lookup_singleton_eq. split; [done|]. split.
      * exists []. split; [constructor|]. done.
      * intros k w _ Hk%submseteq_nil_r Hw. subst k. rewrite Hv0 in Hw.
        inversion Hw. apply Qcle_refl.
    + intros Hka r _ Hl. destruct r; [|simpl in Hl; lia].
      exists 0%nat, [], v0. simpl. rewrite !lookup_singleton_eq.
      do 3 (split; [done|]). split; [constructor|]. done.
  - intros pre s post st E Hst.
    apply seq_middle in E as [-> Hlt].
    destruct (dp_layer_spec (1 + length pre) st) as (st' & Hrun' & Hst'); [lia| |].
    { by replace (1 + length pre - 1)%nat with (length pre) by lia. }
    exists st'. split; [done|]. rewrite length_app. simpl.
    by replace (length pre + 1)%nat with (1 + length pre)%nat by lia.
  - exists st. split; [done|]. by rewrite length_seq in Hst.
Qed.

(** The lattice resolver succeeds; its tables have the rolls as keys; each
    value is the maximum over the sub-multisets of the roll; without
    [keep_all_optimal] the moves of a roll are one maximising
    sub-multiset. *)
Lemma _compute_from_cond_dp_spec :
  ∃ rv om, _compute_from_cond_dp num_dice num_faces keep_all_optimal c = Ok (rv, om) ∧
    (∀ r, is_Some (rv !! r) → r ∈ iter_possible_rolls num_dice num_faces) ∧
    (∀ r, is_Some (om !! r) ↔ r ∈ iter_possible_rolls num_dice num_faces) ∧
    (∀ r, r ∈ iter_possible_rolls num_dice num_faces →
          ∃ v, rv !! r = Some v ∧ is_max c r v) ∧
    (keep_all_optimal = false →
     ∀ r, r ∈ iter_possible_rolls num_dice num_faces →
          ∃ k v, om !! r = Some [k] ∧ rv !! r = Some v ∧
                 Sorted Z.le k ∧ k ⊆+ r ∧ c !! k = Some v).
Proof.
  destruct (c_total []) as [v0 Hv0]; [split; constructor | simpl; lia |].
  destruct (dp_layers_spec v0 Hv0)
    as ([[rv om] heap] & Hrun & D1 & D2 & D3 & D4 & D5).
  unfold _compute_from_cond_dp. rewrite (getitem_Some _ _ _ Hv0). simpl.
  rewrite Hrun. simpl in *. eexists _, _. split; [done|].
  split; [|split; [|split]].
  - intros r [v [Hv Hl]%map_lookup_filter_Some]. simpl in Hl.
    apply elem_of_iter_possible_rolls; [done|]. split; [done|]. apply D1. by exists v.
  - intros r. rewrite lookup_fmap, fmap_is_Some. split.
    + intros [v [Hv Hl]%map_lookup_filter_Some]. simpl in Hl.
      apply elem_of_iter_possible_rolls; [done|]. split; [done|]. apply D2. by exists v.
    + intros [Hl Hc]%elem_of_iter_possible_rolls; [|done].
      destruct (D3 r Hc) as [m Hm]; [lia|]. exists m.
      by apply map_lookup_filter_Some.
  - intros r [Hl Hc]%elem_of_iter_possible_rolls; [|done].
    destruct (D4 r Hc) as (v & Hv & Hmax); [lia|]. exists v. split; [|done].
    by apply map_lookup_filter_Some.
  - intros Hka r [Hl Hc]%elem_of_iter_possible_rolls; [|done].
    destruct (D5 Hka r Hc) as (ref & k & v & Href & Hk & Hv & Hks & Hsub & Hkv); [lia|].
    simpl in *. exists k, v. split; [|split; [|done]].
    + rewrite lookup_fmap.
      rewrite (proj2 (map_lookup_filter_Some _ om r ref)) by done.
      simpl. unfold deref. rewrite Hk. simpl. by rewrite elements_singleton.
    + by apply map_lookup_filter_Some.
Qed.

Lemma _compute_from_cond_dp_values :
  ∃ rv om, _compute_from_cond_dp num_dice num_faces keep_all_optimal c = Ok (rv, om) ∧
    (∀ r, is_Some (rv !! r) → r ∈ iter_possible_rolls num_dice num_faces) ∧
    (∀ r, is_Some (om !! r) ↔ r ∈ iter_possible_rolls num_dice num_faces) ∧
    (∀ r, r ∈ iter_possible_rolls num_dice num_faces →
          ∃ v, rv !! r = Some v ∧ is_max c r v).
Proof.
  destruct _compute_from_cond_dp_spec as (rv & om & Hrun & Hk1 & Hk2 & Hmax & _).
  by exists rv, om.
Qed.
End Lattice.

(** ** One round *)

(** A round value table covers every roll of [num_dice] dice. *)
Definition total_on (num_dice : nat) (num_faces : Z) (t : gmap (list Z) Qc) : Prop :=
  ∀ r, r ∈ iter_possible_rolls num_dice num_faces → is_Some (t !! r).

Lemma cond_done_total (num_dice : nat) (num_faces : Z) (next c : gmap (list Z) Qc) :
  cond_done num_dice num_faces next c 0 → total_upto num_dice num_faces c.
Proof. intros (_ & _ & Htot & _) k Hc Hl. apply Htot; [done | lia]. Qed.

Lemma _compute_from_conditional_values_spec (num_dice : nat) (num_faces : Z)
    (keep_all_optimal use_dynamic_programming : bool) (c : gmap (list Z) Qc) :
  1 ≤ num_faces → total_upto num_dice num_faces c →
  ∃ rv om,
    _compute_from_conditional_values num_dice num_faces keep_all_optimal
      use_dynamic_programming c = Ok (rv, om) ∧
    (∀ r, is_Some (rv !! r) → r ∈ iter_possible_rolls num_dice num_faces) ∧
    (∀ r, is_Some (om !! r) ↔ r ∈ iter_possible_rolls num_dice num_faces) ∧
    (∀ r, r ∈ iter_possible_rolls num_dice num_faces →
          ∃ v, rv !! r = Some v ∧ is_max c r v).
Proof.
  intros Hf Htot. unfold _compute_from_conditional_values.
  destruct use_dynamic_programming.
  - by apply _compute_from_cond_dp_values.
  - by apply _compute_from_cond_values.
Qed.

(** One round succeeds on a total table; the new values are the maxima of
    the conditional values and are not below the old ones. *)
Lemma _compute_strategy_one_roll_spec (num_dice : nat) (num_faces : Z)
    (keep_all_optimal use_dynamic_programming : bool) (next : gmap (list Z) Qc) :
  1 ≤ num_faces → total_on num_dice num_faces next →
  ∃ c rv om,
    _compute_values_given_kept num_dice num_faces next = Ok c ∧
    cond_done num_dice num_faces next c 0 ∧
    _compute_strategy_one_roll num_dice num_faces keep_all_optimal
      use_dynamic_programming next = Ok (rv, om) ∧
    (∀ r, is_Some (rv !! r) → r ∈ iter_possible_rolls num_dice num_faces) ∧
    (∀ r, is_Some (om !! r) ↔ r ∈ iter_possible_rolls num_dice num_faces) ∧
    (∀ r, r ∈ iter_possible_rolls num_dice num_faces →
          ∃ v, rv !! r = Some v ∧ is_max c r v) ∧
    (∀ r, r ∈ iter_possible_rolls num_dice num_faces →
          ∃ v w, rv !! r = Some v ∧ next !! r = Some w ∧ (w <= v)%Qc).
Proof.
  intros Hf Htot.
  destruct (_compute_values_given_kept_spec num_dice num_faces next Hf Htot)
    as (c & Hc & Hdone).
  destruct (_compute_from_conditional_values_spec num_dice num_faces keep_all_optimal
    use_dynamic_programming c Hf (cond_done_total _ _ _ _ Hdone))
    as (rv & om & Hrun & Hk1 & Hk2 & Hmax).
  exists c, rv, om. unfold _compute_strategy_one_roll. rewrite Hc. simpl.
  do 5 (split; [done|]). split; [done|].
  intros r Hr. destruct (Hmax r Hr) as (v & Hv & _ & Hdom).
  destruct (Htot r Hr) as [w Hw]. exists v, w. do 2 (split; [done|]).
  apply elem_of_iter_possible_rolls in Hr as [Hl Hrc]; [|done].
  apply (Hdom r w); [by destruct Hrc | done |].
  destruct Hdone as (Hsame & _). rewrite Hsame by lia. done.
Qed.

(** ** The driver *)

(** The value table one round earlier ([∅] if the round fails). *)
Definition earlier (num_dice : nat) (num_faces : Z)
    (keep_all_optimal use_dynamic_programming : bool)
    (next : gmap (list Z) Qc) : gmap (list Z) Qc :=
  match _compute_strategy_one_roll num_dice num_faces keep_all_optimal
          use_dynamic_programming next with
  | Ok result => result.1
  | Raise _ => ∅
  end.

(** The move table of the round before [next]. *)
Definition advice (num_dice : nat) (num_faces : Z)
    (keep_all_optimal use_dynamic_programming : bool)
    (next : gmap (list Z) Qc) : gmap (list Z) (list (list Z)) :=
  match _compute_strategy_one_roll num_dice num_faces keep_all_optimal
          use_dynamic_programming next with
  | Ok result => result.2
  | Raise _ => ∅
  end.

Section Driver.
Variables (num_dice : nat) (num_faces : Z).
Variables (keep_all_optimal use_dynamic_programming : bool).
Hypothesis faces_pos : 1 ≤ num_faces.

Let back := earlier num_dice num_faces keep_all_optimal use_dynamic_programming.
Let adv := advice num_dice num_faces keep_all_optimal use_dynamic_programming.
Let one := _compute_strategy_one_roll num_dice num_faces keep_all_optimal
             use_dynamic_programming.

Lemma one_total (t : gmap (list Z) Qc) :
  total_on num_dice num_faces t → one t = Ok (back t, adv t).
Proof.
  intros Ht.
  destruct (_compute_strategy_one_roll_spec num_dice num_faces keep_all_optimal
    use_dynamic_programming t faces_pos Ht) as (c & rv & om & _ & _ & Hrun & _).
  unfold back, adv, earlier, advice, one. by rewrite Hrun.
Qed.

Lemma back_total (t : gmap (list Z) Qc) :
  total_on num_dice num_faces t → total_on num_dice num_faces (back t).
Proof.
  intros Ht.
  destruct (_compute_strategy_one_roll_spec num_dice num_faces keep_all_optimal
    use_dynamic_programming t faces_pos Ht)
    as (c & rv & om & _ & _ & Hrun & _ & _ & Hmax & _).
  unfold back, earlier. rewrite Hrun. simpl.
  intros r Hr. destruct (Hmax r Hr) as (v & Hv & _). by exists v.
Qed.

Lemma iter_back_total (t : gmap (list Z) Qc) (j : nat) :
  total_on num_dice num_faces t → total_on num_dice num_faces (Nat.iter j back t).
Proof. intros Ht. induction j as [|j IH]; [done|]. simpl. by apply back_total. Qed.

Lemma back_ge (t : gmap (list Z) Qc) (r : list Z) :
  total_on num_dice num_faces t →
  r ∈ iter_possible_rolls num_dice num_faces →
  ∃ v w, back t !! r = Some v ∧ t !! r = Some w ∧ (w <= v)%Qc.
Proof.
  intros Ht Hr.
  destruct (_compute_strategy_one_roll_spec num_dice num_faces keep_all_optimal
    use_dynamic_programming t faces_pos Ht)
    as (c & rv & om & _ & _ & Hrun & _ & _ & _ & Hge).
  unfold back, earlier. rewrite Hrun. simpl. by apply Hge.
Qed.

(** The tables of a widget with [m + 1] rounds built on the terminal
    table [t]: round [i] is [m - i] rounds before the end. *)
Definition rounds_ok (m : nat) (t : gmap (list Z) Qc) (k : nat) (self : Widget) : Prop :=
  length (roll_values self) = S m ∧
  length (optimal_moves self) = m ∧
  (∀ i, (k <= i <= m)%nat → roll_values self !! i = Some (Nat.iter (m - i) back t)) ∧
  (∀ i, (k <= i < m)%nat →
        optimal_moves self !! i = Some (adv (Nat.iter (m - i - 1) back t))).

Lemma strategy_steps (m : nat) (t : gmap (list Z) Qc) (k : nat) (self : Widget) :
  total_on num_dice num_faces t → (k <= m)%nat →
  rounds_ok m t k self →
  ∃ self', for_each (range_down k)
             (strategy_step num_dice num_faces keep_all_optimal
                use_dynamic_programming) self = Ok self' ∧
           rounds_ok m t 0 self'.
Proof.
  intros Ht. revert self. induction k as [|k IH]; intros self Hk Hok.
  - by exists self.
  - rewrite range_down_S. simpl.
    destruct Hok as (Hl1 & Hl2 & Hrv & Hom).
    unfold strategy_step at 1. unfold list_getitem.
    rewrite (Hrv (k + 1)%nat) by lia. simpl.
    fold one. rewrite one_total by by apply iter_back_total. simpl.
    apply IH; [lia|]. split; [|split; [|split]]; simpl.
    + by rewrite length_insert.
    + by rewrite length_insert.
    + intros i Hi. destruct (decide (i = k)) as [->|Hne].
      * rewrite list_lookup_insert_eq by lia. f_equal.
        replace (m - k)%nat with (S (m - (k + 1))) by lia. done.
      * rewrite list_lookup_insert_ne by done. apply Hrv. lia.
    + intros i Hi. destruct (decide (i = k)) as [->|Hne].
      * rewrite list_lookup_insert_eq by lia. f_equal.
        replace (m - (k + 1))%nat with (m - k - 1)%nat by lia. done.
      * rewrite list_lookup_insert_ne by done. apply Hom. lia.
Qed.

Lemma Widget_init_spec (num_rolls : nat) (input : list (list Z * Qc))
    (t : gmap (list Z) Qc) :
  _parse_roll_values num_dice num_faces input = Ok t →
  ∃ self, Widget_init num_dice num_faces num_rolls keep_all_optimal
            use_dynamic_programming input = Ok self ∧
          rounds_ok (num_rolls - 1) t 0 self.
Proof.
  intros Hp. unfold Widget_init. rewrite Hp. simpl.
  pose proof (_parse_roll_values_spec num_dice num_faces input) as Hspec.
  rewrite Hp in Hspec. destruct Hspec as [_ Ht].
  apply (strategy_steps (num_rolls - 1) t); [done | done |].
  split; [|split; [|split]]; simpl.
  - rewrite length_app, length_replicate. simpl. lia.
  - by rewrite length_replicate.
  - intros i Hi. assert (i = (num_rolls - 1)%nat) as -> by lia.
    rewrite Nat.sub_diag. simpl.
    rewrite lookup_app_r by (rewrite length_replicate; lia).
    by rewrite length_replicate, Nat.sub_diag.
  - intros i Hi. lia.
Qed.
End Driver.

(** ** A round depends on the next table through its rolls only *)

Lemma elem_of_range_down (k n : nat) : k ∈ range_down n → (k < n)%nat.
Proof. unfold range_down. rewrite elem_of_reverse, elem_of_seq. lia. Qed.

Lemma cond_agree (num_dice : nat) (num_faces : Z) (t t0 c c0 : gmap (list Z) Qc) :
  cond_done num_dice num_faces t c 0 →
  cond_done num_dice num_faces t0 c0 0 →
  (∀ r, r ∈ iter_possible_rolls num_dice num_faces → t !! r = t0 !! r) →
  1 ≤ num_faces →
  ∀ r, canonical num_faces r → (length r <= num_dice)%nat → c !! r = c0 !! r.
Proof.
  intros (Hn & _ & _ & Hrec) (Hn0 & _ & _ & Hrec0) Hsame Hf.
  assert (∀ d r, (num_dice - length r = d)%nat → canonical num_faces r →
            (length r <= num_dice)%nat → c !! r = c0 !! r) as Hind.
  { induction d as [|d IH]; intros r Hd Hc Hl.
    - rewrite Hn, Hn0 by lia. apply Hsame, elem_of_iter_possible_rolls; [done|].
      split; [lia | done].
    - rewrite Hrec, Hrec0 by (done || lia). f_equal. apply expected_ext.
      intros i Hi.
      assert (length (sorted (r ++ [i])) = S (length r)) as Hlen.
      { rewrite sorted_length, length_app. simpl. lia. }
      apply IH; [lia | by apply canonical_sorted_snoc | lia]. }
  intros r. by apply (Hind (num_dice - length r)%nat).
Qed.

Lemma getitem_agree {V} (c c0 : gmap (list Z) V) (r : list Z) :
  c !! r = c0 !! r → getitem c r = getitem c0 r.
Proof. unfold getitem. by intros ->. Qed.

Lemma _compute_from_conditional_values_agree (num_dice : nat) (num_faces : Z)
    (keep_all_optimal use_dynamic_programming : bool) (c c0 : gmap (list Z) Qc) :
  1 ≤ num_faces →
  (∀ r, canonical num_faces r → (length r <= num_dice)%nat → c !! r = c0 !! r) →
  _compute_from_conditional_values num_dice num_faces keep_all_optimal
    use_dynamic_programming c =
  _compute_from_conditional_values num_dice num_faces keep_all_optimal
    use_dynamic_programming c0.
Proof.
  intros Hf Hsame.
  assert (∀ k r, (k <= num_dice)%nat → r ∈ iter_possible_rolls k num_faces →
            getitem c r = getitem c0 r) as Hget.
  { intros k r Hk [Hl Hc]%elem_of_iter_possible_rolls; [|done].
    apply getitem_agree, Hsame; [done | lia]. }
  unfold _compute_from_conditional_values. destruct use_dynamic_programming.
  - unfold _compute_from_cond_dp.
    rewrite (Hget 0%nat []) by (lia || by left).
    destruct (getitem c0 []) as [v0|e]; simpl; [|done].
    rewrite (for_each_ext (seq 1 num_dice) _ (dp_layer num_faces keep_all_optimal c0));
      [done|].
    intros s st [Hs1 Hs2]%elem_of_seq. unfold dp_layer.
    rewrite (for_each_ext _ (dp_init c) (dp_init c0)); [done|].
    intros kept [[rv om] heap] Hkept. unfold dp_init.
    by rewrite (Hget s kept) by (lia || done).
  - unfold _compute_from_cond.
    rewrite (for_each_ext _ (bf_init c) (bf_init c0)).
    2:{ intros r rv Hr. unfold bf_init. by rewrite (Hget num_dice r). }
    destruct (for_each _ (bf_init c0) ∅) as [rv|e]; simpl; [|done].
    apply for_each_ext. intros k st Hk%elem_of_range_down. unfold bf_layer.
    apply for_each_ext. intros kept st' Hkept. unfold bf_kept.
    by rewrite (Hget k kept) by (lia || done).
Qed.

Lemma _compute_strategy_one_roll_agree (num_dice : nat) (num_faces : Z)
    (keep_all_optimal use_dynamic_programming : bool) (t t0 : gmap (list Z) Qc) :
  1 ≤ num_faces →
  total_on num_dice num_faces t0 →
  (∀ r, r ∈ iter_possible_rolls num_dice num_faces → t !! r = t0 !! r) →
  _compute_strategy_one_roll num_dice num_faces keep_all_optimal
    use_dynamic_programming t =
  _compute_strategy_one_roll num_dice num_faces keep_all_optimal
    use_dynamic_programming t0.
Proof.
  intros Hf Ht0 Hsame.
  assert (total_on num_dice num_faces t) as Ht.
  { intros r Hr. rewrite Hsame by done. by apply Ht0. }
  destruct (_compute_values_given_kept_spec num_dice num_faces t Hf Ht) as (c & Hc & Hd).
  destruct (_compute_values_given_kept_spec num_dice num_faces t0 Hf Ht0)
    as (c0 & Hc0 & Hd0).
  unfold _compute_strategy_one_roll. rewrite Hc, Hc0. simpl.
  apply _compute_from_conditional_values_agree; [done|].
  by apply (cond_agree num_dice num_faces t t0).
Qed.

(** ** Every stored roll is sorted *)

(** Partial correctness: a property kept by every turn is kept by the loop. *)
Lemma for_each_preserves {A S} (P : S → Prop) (xs : list A)
    (body : A → S → res S) (s s' : S) :
  (∀ x s s', x ∈ xs → P s → body x s = Ok s' → P s') →
  P s → for_each xs body s = Ok s' → P s'.
Proof.
  revert s. induction xs as [|x xs IH]; intros s Hstep Hs; simpl.
  - by intros [= <-].
  - destruct (body x s) as [s1|e] eqn:E; simpl; [|done].
    apply IH; [|by eapply (Hstep x s s1); [left|..]].
    intros y s2 s3 Hy. apply Hstep. by right.
Qed.

Definition sorted_moves (om : gmap (list Z) (list (list Z))) : Prop :=
  ∀ r ms k, om !! r = Some ms → k ∈ ms → Sorted Z.le k.

Definition sorted_heap (heap : Heap) : Prop :=
  ∀ ref k, k ∈ deref heap ref → Sorted Z.le k.

Lemma Sorted_iter_possible_rolls (n : nat) (num_faces : Z) (r : list Z) :
  1 ≤ num_faces → r ∈ iter_possible_rolls n num_faces → Sorted Z.le r.
Proof. intros Hf [_ [Hs _]]%elem_of_iter_possible_rolls; done. Qed.

Lemma _compute_from_cond_sorted_moves (num_dice : nat) (num_faces : Z)
    (keep_all_optimal : bool) (c rv : gmap (list Z) Qc)
    (om : gmap (list Z) (list (list Z))) :
  1 ≤ num_faces →
  _compute_from_cond num_dice num_faces keep_all_optimal c = Ok (rv, om) →
  sorted_moves om.
Proof.
  intros Hf. unfold _compute_from_cond.
  destruct (for_each _ (bf_init c) ∅) as [rv0|e]; simpl; [|done].
  intros Hrun.
  apply (for_each_preserves (λ st, sorted_moves st.2) _ _ _ _) in Hrun; [done| |].
  - intros k st st' Hk Hst. unfold bf_layer.
    apply (for_each_preserves (λ st, sorted_moves st.2)); [|done].
    intros kept s1 s2 Hkept Hs1. unfold bf_kept.
    destruct (getitem c kept) as [value|e]; simpl; [|done].
    apply (for_each_preserves (λ st, sorted_moves st.2)); [|done].
    intros other [rv1 om1] s4 Hother Hs3. unfold bf_relax.
    destruct (getitem rv1 _) as [cur|e]; simpl; [|done].
    assert (Sorted Z.le kept) as Hks by by eapply Sorted_iter_possible_rolls.
    destruct (gt value cur).
    + intros [= <-]. simpl in *. intros r ms x Hr Hx.
      destruct (decide (sorted (kept ++ other) = r)) as [<-|Hne].
      * rewrite lookup_insert_eq in Hr. inversion Hr; subst.
        by apply list_elem_of_singleton in Hx as ->.
      * rewrite lookup_insert_ne in Hr by done. by eapply Hs3.
    + destruct (keep_all_optimal && eqv value cur); [|by intros [= <-]].
      destruct (getitem om1 _) as [ms0|e] eqn:Eg; simpl; [|done].
      intros [= <-]. simpl in *. intros r ms x Hr Hx.
      destruct (decide (sorted (kept ++ other) = r)) as [<-|Hne].
      * rewrite lookup_insert_eq in Hr. inversion Hr; subst.
        apply elem_of_app in Hx as [Hx|Hx%list_elem_of_singleton]; [|by subst x].
        unfold getitem in Eg. destruct (om1 !! sorted (kept ++ other)) eqn:El; [|done].
        inversion Eg; subst. by eapply Hs3.
      * rewrite lookup_insert_ne in Hr by done. by eapply Hs3.
  - simpl. intros r ms x Hr Hx. rewrite bf_moves_init in Hr.
    case_decide as Hin; [|by rewrite lookup_empty in Hr].
    inversion Hr; subst. apply list_elem_of_singleton in Hx as ->.
    by eapply Sorted_iter_possible_rolls.
Qed.

Lemma sorted_heap_snoc (heap : Heap) (kept : list Z) :
  sorted_heap heap → Sorted Z.le kept → sorted_heap (heap ++ [ {[ kept ]} ]).
Proof.
  intros Hh Hk ref x. unfold deref.
  destruct (decide (ref < length heap)%nat) as [Hlt|Hge].
  - rewrite lookup_app_l by done. apply Hh.
  - rewrite lookup_app_r by lia.
    destruct (ref - length heap)%nat as [|i]; simpl.
    + intros Hx%elem_of_singleton. by subst x.
    + by intros ?%elem_of_empty.
Qed.

Lemma sorted_heap_update (heap : Heap) (target moves : nat) :
  sorted_heap heap →
  sorted_heap (<[target := deref heap target ∪ deref heap moves]> heap).
Proof.
  intros Hh ref x. unfold deref at 1.
  destruct (decide (target = ref)) as [->|Hne].
  - destruct (decide (ref < length heap)%nat) as [Hlt|Hge].
    + rewrite list_lookup_insert_eq by done. simpl.
      intros [?|?]%elem_of_union; by eapply Hh.
    + rewrite list_insert_ge by lia. apply Hh.
  - rewrite list_lookup_insert_ne by done. apply Hh.
Qed.

Lemma _compute_from_cond_dp_sorted_moves (num_dice : nat) (num_faces : Z)
    (keep_all_optimal : bool) (c rv : gmap (list Z) Qc)
    (om : gmap (list Z) (list (list Z))) :
  1 ≤ num_faces →
  _compute_from_cond_dp num_dice num_faces keep_all_optimal c = Ok (rv, om) →
  sorted_moves om.
Proof.
  intros Hf. unfold _compute_from_cond_dp.
  destruct (getitem c []) as [v0|e]; simpl; [|done].
  destruct (for_each _ _ _) as [[[rv1 om1] heap]|e] eqn:Hrun; simpl; [|done].
  intros [= <- <-].
  apply (for_each_preserves (λ st, sorted_heap st.2) _ _ _ _) in Hrun.
  - simpl in Hrun. intros r ms x Hr Hx. rewrite lookup_fmap in Hr.
    destruct (filter _ om1 !! r) as [ref|]; [|done]. simpl in Hr.
    inversion Hr; subst. apply elem_of_elements in Hx. by eapply Hrun.
  - intros s st st' Hs Hst. unfold dp_layer.
    destruct (for_each _ (dp_init c) st) as [st1|e] eqn:Hinit; simpl; [|done].
    apply (for_each_preserves (λ st, sorted_heap st.2) _ _ _ _) in Hinit; [| |done].
    + apply (for_each_preserves (λ st, sorted_heap st.2)); [|done].
      intros p s1 s2 Hp Hs1. unfold dp_propagate.
      destruct (getitem s1.1.1 p) as [value|e]; simpl; [|done].
      destruct (getitem s1.1.2 p) as [moves|e]; simpl; [|done].
      apply (for_each_preserves (λ st, sorted_heap st.2)); [|done].
      intros die [[rv2 om2] heap2] s4 Hdie Hs3. unfold dp_relax.
      destruct (getitem rv2 _) as [cur|e]; simpl; [|done].
      destruct (gt value cur); [by intros [= <-]|].
      destruct (keep_all_optimal && eqv value cur); [|by intros [= <-]].
      destruct (getitem om2 _) as [target|e]; simpl; [|done].
      intros [= <-]. simpl in *. by apply sorted_heap_update.
    + intros kept [[rv2 om2] heap2] s2 Hkept Hs1. unfold dp_init.
      destruct (getitem c kept) as [v|e]; simpl; [|done].
      intros [= <-]. simpl in *. apply sorted_heap_snoc; [done|].
      by eapply Sorted_iter_possible_rolls.
  - simpl. intros ref x. unfold deref. destruct ref as [|ref]; simpl.
    + intros Hx%elem_of_singleton. subst x. constructor.
    + by intros ?%elem_of_empty.
Qed.

(** ** Checking totality of a concrete table *)

Definition has_key {V} (t : gmap (list Z) V) (r : list Z) : bool :=
  match t !! r with Some _ => true | None => false end.

Lemma total_on_check (num_dice : nat) (num_faces : Z) (t : gmap (list Z) Qc) :
  forallb (has_key t) (iter_possible_rolls num_dice num_faces) = true →
  total_on num_dice num_faces t.
Proof.
  intros H r Hr. rewrite forallb_forall in H.
  specialize (H r). unfold has_key in H.
  destruct (t !! r); [done|]. apply list_elem_of_In in Hr. by apply H in Hr.
Qed.

Lemma total_upto_check (num_dice : nat) (num_faces : Z) (c : gmap (list Z) Qc) :
  1 ≤ num_faces →
  forallb (λ k, forallb (has_key c) (iter_possible_rolls k num_faces))
    (seq 0 (S num_dice)) = true →
  total_upto num_dice num_faces c.
Proof.
  intros Hf H r Hc Hl. rewrite forallb_forall in H.
  specialize (H (length r)). rewrite forallb_forall in H.
  assert (has_key c r = true) as Hk.
  { apply H.
    - apply in_seq. lia.
    - apply list_elem_of_In, elem_of_iter_possible_rolls; done. }
  unfold has_key in Hk. by destruct (c !! r).
Qed.

(** ** The resolvers *)

(** The result of a resolver holds, for every roll of [num_dice] dice, the
    maximum of the conditional values of its sub-multisets. *)
Definition computes_maxima (num_dice : nat) (num_faces : Z) (c : gmap (list Z) Qc)
    (result : res (gmap (list Z) Qc * gmap (list Z) (list (list Z)))) : Prop :=
  ∃ rv om, result = Ok (rv, om) ∧
    ∀ r, length r = num_dice → canonical num_faces r →
         ∃ v, rv !! r = Some v ∧ is_max c r v.

(** A small conditional value table for two dice with two faces. *)
Definition sample_cond : gmap (list Z) Qc :=
  list_to_map [([], qz 0); ([1], qz 5); ([2], qz 5);
               ([1;1], qz 0); ([1;2], qz 0); ([2;2], qz 0)].

(** C1: on a total conditional value table both resolvers return, for every
    canonical roll of [num_dice] dice, the maximum of the conditional values
    over the sub-multisets of the roll. *)
Theorem resolvers_compute_maxima (num_dice : nat) (num_faces : Z)
    (keep_all_optimal : bool) (c : gmap (list Z) Qc) :
  1 ≤ num_faces → total_upto num_dice num_faces c →
  computes_maxima num_dice num_faces c
    (_compute_from_cond num_dice num_faces keep_all_optimal c) ∧
  computes_maxima num_dice num_faces c
    (_compute_from_cond_dp num_dice num_faces keep_all_optimal c).
Proof.
  intros Hf Htot. split.
  - destruct (_compute_from_cond_values num_dice num_faces keep_all_optimal c Hf Htot)
      as (rv & om & Hrun & _ & _ & Hmax).
    exists rv, om. split; [done|]. intros r Hl Hc.
    by apply Hmax, elem_of_iter_possible_rolls.
  - destruct (_compute_from_cond_dp_values num_dice num_faces keep_all_optimal c Hf Htot)
      as (rv & om & Hrun & _ & _ & Hmax).
    exists rv, om. split; [done|]. intros r Hl Hc.
    by apply Hmax, elem_of_iter_possible_rolls.
Qed.

Lemma resolvers_compute_maxima_witness :
  1 ≤ 2 ∧ total_upto 2 2 sample_cond ∧
  computes_maxima 2 2 sample_cond (_compute_from_cond 2 2 true sample_cond) ∧
  computes_maxima 2 2 sample_cond (_compute_from_cond_dp 2 2 true sample_cond).
Proof.
  assert (total_upto 2 2 sample_cond) as Htot
    by (apply total_upto_check; [lia | vm_compute; reflexivity]).
  split; [lia|]. split; [exact Htot|].
  apply (resolvers_compute_maxima 2 2 true sample_cond); [lia | exact Htot].
Defined.

(** C2: on a total conditional value table the two resolvers return the
    same value table (same keys, same values). *)
Theorem resolvers_agree_on_values (num_dice : nat) (num_faces : Z)
    (keep_all_optimal : bool) (c : gmap (list Z) Qc) :
  1 ≤ num_faces → total_upto num_dice num_faces c →
  ∃ rv om_bf om_dp,
    _compute_from_cond num_dice num_faces keep_all_optimal c = Ok (rv, om_bf) ∧
    _compute_from_cond_dp num_dice num_faces keep_all_optimal c = Ok (rv, om_dp).
Proof.
  intros Hf Htot.
  destruct (_compute_from_cond_values num_dice num_faces keep_all_optimal c Hf Htot)
    as (rv & om & Hrun & Hkeys & _ & Hmax).
  destruct (_compute_from_cond_dp_values num_dice num_faces keep_all_optimal c Hf Htot)
    as (rv' & om' & Hrun' & Hkeys' & _ & Hmax').
  exists rv, om, om'. split; [done|]. rewrite Hrun'. do 2 f_equal.
  apply map_eq. intros r.
  destruct (decide (r ∈ iter_possible_rolls num_dice num_faces)) as [Hr|Hr].
  - destruct (Hmax r Hr) as (v & -> & Hv). destruct (Hmax' r Hr) as (v' & -> & Hv').
    f_equal. by eapply is_max_unique.
  - destruct (rv' !! r) as [v'|] eqn:E'; [destruct Hr; apply Hkeys'; by exists v'|].
    destruct (rv !! r) as [v|] eqn:E; [destruct Hr; apply Hkeys; by exists v|]. done.
Qed.

Lemma resolvers_agree_on_values_witness :
  1 ≤ 2 ∧ total_upto 2 2 sample_cond ∧
  ∃ rv om_bf om_dp,
    _compute_from_cond 2 2 true sample_cond = Ok (rv, om_bf) ∧
    _compute_from_cond_dp 2 2 true sample_cond = Ok (rv, om_dp).
Proof.
  assert (total_upto 2 2 sample_cond) as Htot
    by (apply total_upto_check; [lia | vm_compute; reflexivity]).
  split; [lia|]. split; [exact Htot|].
  apply (resolvers_agree_on_values 2 2 true sample_cond); [lia | exact Htot].
Defined.

(** ** The conditional value computer *)

Definition sample_terminal : gmap (list Z) Qc :=
  list_to_map [([1], qz 0); ([2], qz 10)].

(** In exact arithmetic: on a table that covers the rolls of [num_dice]
    dice, [_compute_values_given_kept] returns a table that agrees with its
    input on every roll of length [num_dice] and gives every canonical roll
    of fewer dice the mean, over the faces, of the values of the roll with
    that face added. *)
Theorem conditional_values_recurrence (num_dice : nat) (num_faces : Z)
    (next : gmap (list Z) Qc) :
  1 ≤ num_faces → total_on num_dice num_faces next →
  ∃ c, _compute_values_given_kept num_dice num_faces next = Ok c ∧
       (∀ r, length r = num_dice → c !! r = next !! r) ∧
       (∀ kept, canonical num_faces kept → (length kept < num_dice)%nat →
                c !! kept = Some (expected num_faces c kept)) ∧
       total_upto num_dice num_faces c.
Proof.
  intros Hf Htot.
  destruct (_compute_values_given_kept_spec num_dice num_faces next Hf Htot)
    as (c & Hc & Hdone).
  exists c. split; [done|]. pose proof (cond_done_total _ _ _ _ Hdone) as Hct.
  destruct Hdone as (Hn & _ & _ & Hrec). split; [|split; [|done]].
  - intros r Hr. apply Hn. lia.
  - intros kept Hk Hl. apply Hrec; [done | lia].
Qed.

Lemma conditional_values_recurrence_witness :
  1 ≤ 2 ∧ total_on 1 2 sample_terminal ∧
  ∃ c, _compute_values_given_kept 1 2 sample_terminal = Ok c ∧
       (∀ r, length r = 1%nat → c !! r = sample_terminal !! r) ∧
       (∀ kept, canonical 2 kept → (length kept < 1)%nat →
                c !! kept = Some (expected 2 c kept)) ∧
       total_upto 1 2 c.
Proof.
  assert (total_on 1 2 sample_terminal) as Htot
    by (apply total_on_check; vm_compute; reflexivity).
  split; [lia|]. split; [exact Htot|].
  apply (conditional_values_recurrence 1 2 sample_terminal); [lia | exact Htot].
Defined.

(** ** The validator *)

(** No item of the input canonicalises to [r]. *)
Definition absent (input : list (list Z * Qc)) (r : list Z) : Prop :=
  ∀ k v, (k, v) ∈ input → sorted k ≠ r.

(** C5: the validator raises Inconsistent-Value, naming the roll and the two
    values, exactly when two keys canonicalise to the same roll with unequal
    values; otherwise it raises Missing-Roll, naming the roll, when a
    canonical roll of [num_dice] dice is absent; and when it raises, the
    constructor raises the same error and builds no tables. *)
Theorem validation_errors (num_dice : nat) (num_faces : Z) (input : list (list Z * Qc)) :
  1 ≤ num_faces →
  ((∃ r v1 v2, _parse_roll_values num_dice num_faces input
                 = Raise (InconsistentValue r v1 v2)) ↔ conflicting input) ∧
  (∀ r v1 v2, _parse_roll_values num_dice num_faces input
                = Raise (InconsistentValue r v1 v2) →
     v1 ≠ v2 ∧ ∃ k1 k2, (k1, v1) ∈ input ∧ (k2, v2) ∈ input ∧
                        sorted k1 = r ∧ sorted k2 = r) ∧
  (¬ conflicting input →
   (∃ r, length r = num_dice ∧ canonical num_faces r ∧ absent input r) →
   ∃ r, _parse_roll_values num_dice num_faces input = Raise (MissingRoll r) ∧
        length r = num_dice ∧ canonical num_faces r ∧ absent input r) ∧
  (∀ e num_rolls keep_all_optimal use_dynamic_programming,
     _parse_roll_values num_dice num_faces input = Raise e →
     Widget_init num_dice num_faces num_rolls keep_all_optimal
       use_dynamic_programming input = Raise e).
Proof.
  intros Hf. pose proof (_parse_roll_values_spec num_dice num_faces input) as Hspec.
  destruct (_parse_roll_values num_dice num_faces input) as [t|e] eqn:Hp.
  - destruct Hspec as [Hh Htot]. split; [|split; [|split]].
    + split; [by intros (r & v1 & v2 & ?) | by intros ?%(holds_not_conflicting _ t)].
    + done.
    + intros _ (r & Hl & Hc & Habs). exfalso.
      destruct (Htot r) as [v Hv]; [by apply elem_of_iter_possible_rolls|].
      destruct Hh as [_ H2]. destruct (H2 r v Hv) as (k & Hin & Hk).
      by apply (Habs k v).
    + done.
  - assert (∀ m ka dp, Widget_init num_dice num_faces m ka dp input = Raise e) as Hinit.
    { intros m ka dp. unfold Widget_init. by rewrite Hp. }
    destruct Hspec as [(k1 & v1 & k2 & v2 & -> & Hne & Hi1 & Hi2 & Hk)
                      |(Hnc & r & -> & Hr & Habs)].
    + assert (conflicting input) as Hconf.
      { exists k1, v1, k2, v2. done. }
      split; [|split; [|split]].
      * split; [done | intros _; by eexists _, _, _].
      * intros r w1 w2 [= <- <- <-]. split; [done|]. by exists k1, k2.
      * done.
      * intros e m ka dp [= <-]. apply Hinit.
    + split; [|split; [|split]].
      * split; [by intros (r' & w1 & w2 & ?) | done].
      * done.
      * intros _ _. exists r. split; [done|].
        apply elem_of_iter_possible_rolls in Hr as [Hl Hc]; done.
      * intros e m ka dp [= <-]. apply Hinit.
Qed.

Lemma validation_errors_witness :
  1 ≤ 2 ∧
  (∃ r v1 v2, _parse_roll_values 1 2 [([1], qz 0); ([1], qz 3)]
                = Raise (InconsistentValue r v1 v2)).
Proof.
  split; [lia|].
  apply (validation_errors 1 2 [([1], qz 0); ([1], qz 3)]); [lia|].
  exists [1], (qz 0), [1], (qz 3).
  split; [by left|]. split; [right; by left|]. split; [done|]. by vm_compute.
Defined.

(** ** The driver: rounds *)

(** The value of roll [r] at round [idx]. *)
Definition round_value (self : Widget) (idx : nat) (r : list Z) : option Qc :=
  roll_values self !! idx ≫= (λ t, t !! r).

(** The moves advised for roll [r] at round [idx]. *)
Definition round_moves (self : Widget) (idx : nat) (r : list Z) : option (list (list Z)) :=
  optimal_moves self !! idx ≫= (λ t, t !! r).

Definition succeeds {A} (m : res A) : Prop := ∃ a, m = Ok a.

Definition sample_input : list (list Z * Qc) := [([1], qz 0); ([2], qz 10)].

(** C8: with the terminal table fixed, one more round does not lower the
    round-0 value of any roll. *)
Theorem extra_round_monotone (num_dice : nat) (num_faces : Z)
    (keep_all_optimal use_dynamic_programming : bool)
    (input : list (list Z * Qc)) (m : nat) (r : list Z) :
  1 ≤ num_faces →
  succeeds (_parse_roll_values num_dice num_faces input) →
  (1 <= m)%nat →
  length r = num_dice → canonical num_faces r →
  ∃ w1 w2 v1 v2,
    Widget_init num_dice num_faces m keep_all_optimal use_dynamic_programming input
      = Ok w1 ∧
    Widget_init num_dice num_faces (S m) keep_all_optimal use_dynamic_programming input
      = Ok w2 ∧
    round_value w1 0 r = Some v1 ∧ round_value w2 0 r = Some v2 ∧ (v1 <= v2)%Qc.
Proof.
  intros Hf [t Hp] Hm Hl Hc.
  destruct (Widget_init_spec num_dice num_faces keep_all_optimal use_dynamic_programming
    Hf m input t Hp) as (w1 & Hw1 & _ & _ & Hrv1 & _).
  destruct (Widget_init_spec num_dice num_faces keep_all_optimal use_dynamic_programming
    Hf (S m) input t Hp) as (w2 & Hw2 & _ & _ & Hrv2 & _).
  pose proof (_parse_roll_values_spec num_dice num_faces input) as Hspec.
  rewrite Hp in Hspec. destruct Hspec as [_ Ht].
  specialize (Hrv1 0%nat ltac:(lia)). specialize (Hrv2 0%nat ltac:(lia)).
  replace (S m - 1 - 0)%nat with (S (m - 1 - 0)) in Hrv2 by lia.
  simpl in Hrv2.
  destruct (back_ge num_dice num_faces keep_all_optimal use_dynamic_programming Hf
    (Nat.iter (m - 1 - 0) (earlier num_dice num_faces keep_all_optimal
                             use_dynamic_programming) t) r)
    as (v2 & v1 & Hv2 & Hv1 & Hle).
  { by apply iter_back_total. }
  { by apply elem_of_iter_possible_rolls. }
  exists w1, w2, v1, v2. split; [done|]. split; [done|].
  unfold round_value. rewrite Hrv1, Hrv2. simpl. done.
Qed.

Lemma extra_round_monotone_witness :
  1 ≤ 2 ∧ succeeds (_parse_roll_values 1 2 sample_input) ∧ (1 <= 1)%nat ∧
  length [1] = 1%nat ∧ canonical 2 [1] ∧
  ∃ w1 w2 v1 v2,
    Widget_init 1 2 1 false true sample_input = Ok w1 ∧
    Widget_init 1 2 2 false true sample_input = Ok w2 ∧
    round_value w1 0 [1] = Some v1 ∧ round_value w2 0 [1] = Some v2 ∧ (v1 <= v2)%Qc.
Proof.
  assert (succeeds (_parse_roll_values 1 2 sample_input)) as Hp
    by (eexists; vm_compute; reflexivity).
  assert (canonical 2 [1]) as Hc
    by (split; [repeat constructor | repeat constructor; lia]).
  split; [lia|]. split; [exact Hp|]. split; [lia|]. split; [reflexivity|].
  split; [exact Hc|].
  apply (extra_round_monotone 1 2 false true sample_input 1 [1]);
    [lia | exact Hp | lia | reflexivity | exact Hc].
Defined.

(** ** The concrete scenario *)

Lemma Some_Qc_eq (o : option Qc) (q : Qc) : this <$> o = Some (this q) → o = Some q.
Proof.
  destruct o as [p|]; [|done]. simpl. intros [= H]. f_equal.
  apply Qc_is_canon. by rewrite H.
Qed.

(** C7: for one die with two faces, two rounds and terminal values 0 for
    (1,) and 10 for (2,), the conditional values are 5 for (), 0 for (1,)
    and 10 for (2,); at round 0 the roll (1,) has value 5 with the single
    move () and the roll (2,) has value 10 with the single move (2,); the
    mean of the two round-0 values is 15/2. *)
Theorem scenario_one_die_two_faces :
  ∃ c w,
    _parse_roll_values 1 2 sample_input = Ok sample_terminal ∧
    _compute_values_given_kept 1 2 sample_terminal = Ok c ∧
    c !! [] = Some (qz 5) ∧ c !! [1] = Some (qz 0) ∧ c !! [2] = Some (qz 10) ∧
    Widget_init 1 2 2 false true sample_input = Ok w ∧
    round_value w 1 [1] = Some (qz 0) ∧ round_value w 1 [2] = Some (qz 10) ∧
    round_value w 0 [1] = Some (qz 5) ∧ round_moves w 0 [1] = Some [[]] ∧
    round_value w 0 [2] = Some (qz 10) ∧ round_moves w 0 [2] = Some [[2]] ∧
    ((qz 5 + qz 10) / qz 2)%Qc = Q2Qc (15 # 2).
Proof.
  destruct (_compute_values_given_kept 1 2 sample_terminal) as [c|e] eqn:Ec;
    [|by vm_compute in Ec].
  destruct (Widget_init 1 2 2 false true sample_input) as [w|e] eqn:Ew;
    [|by vm_compute in Ew].
  exists c, w. split; [by vm_compute|]. split; [done|].
  assert (Ok c = _compute_values_given_kept 1 2 sample_terminal) as Hc by done.
  assert (Ok w = Widget_init 1 2 2 false true sample_input) as Hw by done.
  apply (f_equal (λ x, match x with Ok c => c | Raise _ => ∅ end)) in Hc.
  apply (f_equal (λ x, match x with Ok w => w
                       | Raise _ => {| roll_values := []; optimal_moves := [] |} end))
    in Hw.
  simpl in Hc, Hw. rewrite Hc, Hw.
  repeat split; try (apply Some_Qc_eq; vm_compute; reflexivity);
    try (vm_compute; reflexivity).
Qed.

(** ** Canonical keys *)

(** Every key is sorted, and no two distinct keys are equal as multisets. *)
Definition canonical_keys {V} (t : gmap (list Z) V) : Prop :=
  (∀ r, is_Some (t !! r) → Sorted Z.le r) ∧
  (∀ r1 r2, is_Some (t !! r1) → is_Some (t !! r2) → r1 ≡ₚ r2 → r1 = r2).

Lemma sorted_keys_canonical {V} (t : gmap (list Z) V) :
  (∀ r, is_Some (t !! r) → Sorted Z.le r) → canonical_keys t.
Proof.
  intros Hs. split; [done|]. intros r1 r2 H1 H2 Hp.
  apply Sorted_le_unique; auto.
Qed.

Lemma _compute_strategy_one_roll_sorted_moves (num_dice : nat) (num_faces : Z)
    (keep_all_optimal use_dynamic_programming : bool)
    (t rv : gmap (list Z) Qc) (om : gmap (list Z) (list (list Z))) :
  1 ≤ num_faces →
  _compute_strategy_one_roll num_dice num_faces keep_all_optimal
    use_dynamic_programming t = Ok (rv, om) →
  sorted_moves om.
Proof.
  intros Hf. unfold _compute_strategy_one_roll.
  destruct (_compute_values_given_kept num_dice num_faces t) as [c|e]; simpl; [|done].
  unfold _compute_from_conditional_values. destruct use_dynamic_programming.
  - by apply _compute_from_cond_dp_sorted_moves.
  - by apply _compute_from_cond_sorted_moves.
Qed.

Lemma earlier_keys (num_dice : nat) (num_faces : Z)
    (keep_all_optimal use_dynamic_programming : bool) (t : gmap (list Z) Qc) (r : list Z) :
  1 ≤ num_faces → total_on num_dice num_faces t →
  is_Some (earlier num_dice num_faces keep_all_optimal use_dynamic_programming t !! r) →
  r ∈ iter_possible_rolls num_dice num_faces.
Proof.
  intros Hf Ht.
  destruct (_compute_strategy_one_roll_spec num_dice num_faces keep_all_optimal
    use_dynamic_programming t Hf Ht) as (c & rv & om & _ & _ & Hrun & Hk & _).
  unfold earlier. rewrite Hrun. simpl. apply Hk.
Qed.

Lemma advice_canonical (num_dice : nat) (num_faces : Z)
    (keep_all_optimal use_dynamic_programming : bool) (t : gmap (list Z) Qc) :
  1 ≤ num_faces → total_on num_dice num_faces t →
  canonical_keys (advice num_dice num_faces keep_all_optimal use_dynamic_programming t) ∧
  sorted_moves (advice num_dice num_faces keep_all_optimal use_dynamic_programming t).
Proof.
  intros Hf Ht.
  destruct (_compute_strategy_one_roll_spec num_dice num_faces keep_all_optimal
    use_dynamic_programming t Hf Ht) as (c & rv & om & _ & _ & Hrun & _ & Hk & _).
  unfold advice. rewrite Hrun. simpl. split.
  - apply sorted_keys_canonical. intros r Hr. apply Hk in Hr.
    by eapply Sorted_iter_possible_rolls.
  - by eapply _compute_strategy_one_roll_sorted_moves.
Qed.

Lemma iter_earlier_sorted_keys (num_dice : nat) (num_faces : Z)
    (keep_all_optimal use_dynamic_programming : bool) (t : gmap (list Z) Qc) (j : nat) :
  1 ≤ num_faces → total_on num_dice num_faces t →
  (∀ r, is_Some (t !! r) → Sorted Z.le r) →
  ∀ r, is_Some (Nat.iter j (earlier num_dice num_faces keep_all_optimal
                              use_dynamic_programming) t !! r) → Sorted Z.le r.
Proof.
  intros Hf Ht Hs r. destruct j as [|j]; [apply Hs|]. simpl. intros Hr.
  apply earlier_keys in Hr; [by eapply Sorted_iter_possible_rolls | done |].
  by apply iter_back_total.
Qed.

(** C9: every table of a widget (the terminal table, the round value
    tables, the conditional value table computed from any of them, the move
    tables and the rolls listed in them) has sorted rolls only, and no two
    distinct keys of a table are equal as multisets. *)
Theorem tables_are_canonical (num_dice : nat) (num_faces : Z) (num_rolls : nat)
    (keep_all_optimal use_dynamic_programming : bool)
    (input : list (list Z * Qc)) (w : Widget) :
  1 ≤ num_faces →
  Widget_init num_dice num_faces num_rolls keep_all_optimal use_dynamic_programming input
    = Ok w →
  (∀ t, t ∈ roll_values w →
     canonical_keys t ∧
     ∀ c, _compute_values_given_kept num_dice num_faces t = Ok c → canonical_keys c) ∧
  (∀ om, om ∈ optimal_moves w → canonical_keys om ∧ sorted_moves om).
Proof.
  intros Hf Hw.
  destruct (_parse_roll_values num_dice num_faces input) as [t0|e] eqn:Hp;
    [|unfold Widget_init in Hw; by rewrite Hp in Hw].
  destruct (Widget_init_spec num_dice num_faces keep_all_optimal use_dynamic_programming
    Hf num_rolls input t0 Hp) as (w' & Hw' & Hl1 & Hl2 & Hrv & Hom).
  rewrite Hw in Hw'. inversion Hw'; subst w'. clear Hw'.
  pose proof (_parse_roll_values_spec num_dice num_faces input) as Hspec.
  rewrite Hp in Hspec. destruct Hspec as [[_ Hh] Ht0].
  assert (∀ r, is_Some (t0 !! r) → Sorted Z.le r) as Hs0.
  { intros r [v Hv]. destruct (Hh r v Hv) as (k & _ & <-). apply sorted_Sorted. }
  split.
  - intros t [i Hi]%list_elem_of_lookup.
    pose proof (lookup_lt_Some _ _ _ Hi) as Hlt.
    rewrite Hrv in Hi by lia. inversion Hi as [Et]. clear Hi. rewrite Et.
    assert (∀ r, is_Some (t !! r) → Sorted Z.le r) as Hst.
    { rewrite <- Et. by apply iter_earlier_sorted_keys. }
    split; [by apply sorted_keys_canonical|].
    intros c Hc. apply sorted_keys_canonical. intros r Hr.
    assert (total_on num_dice num_faces t) as Htot.
    { rewrite <- Et. by apply iter_back_total. }
    destruct (_compute_values_given_kept_spec num_dice num_faces t Hf Htot)
      as (c' & Hc' & _ & Hnc & _).
    rewrite Hc in Hc'. inversion Hc'; subst c'.
    destruct (decide (Sorted Z.le r)) as [|Hns]; [done|].
    apply Hst. rewrite <- Hnc; [done|]. by intros [? _].
  - intros om [i Hi]%list_elem_of_lookup.
    pose proof (lookup_lt_Some _ _ _ Hi) as Hlt.
    rewrite Hom in Hi by lia. inversion Hi as [Eo].
    apply advice_canonical; [done|]. by apply iter_back_total.
Qed.

Lemma tables_are_canonical_witness :
  ∃ w, 1 ≤ 2 ∧ Widget_init 1 2 2 false true sample_input = Ok w ∧
       (∀ om, om ∈ optimal_moves w → canonical_keys om ∧ sorted_moves om).
Proof.
  destruct (Widget_init 1 2 2 false true sample_input) as [w|e] eqn:Ew;
    [|by vm_compute in Ew].
  exists w. split; [lia|]. split; [reflexivity|].
  apply (tables_are_canonical 1 2 2 false true sample_input w); [lia | exact Ew].
Defined.

(** ** Entries of other lengths *)

(** The input without the items whose key has a length other than [num_dice]. *)
Definition restrict (num_dice : nat) (input : list (list Z * Qc)) : list (list Z * Qc) :=
  filter (λ item, length item.1 = num_dice) input.

(** The statement that items of other lengths never make validation fail. *)
Definition extras_never_rejected : Prop :=
  ∀ (num_dice : nat) (num_faces : Z) (num_rolls : nat)
    (keep_all_optimal use_dynamic_programming : bool) (input : list (list Z * Qc)),
    1 ≤ num_faces →
    succeeds (_parse_roll_values num_dice num_faces (restrict num_dice input)) →
    succeeds (Widget_init num_dice num_faces num_rolls keep_all_optimal
                use_dynamic_programming input).

(** Two items of another length that disagree. *)
Definition clashing_extras : list (list Z * Qc) :=
  [([1], qz 0); ([1; 2], qz 1); ([2; 1], qz 2)].

(** The items of another length are themselves consistent. *)
Definition extras_consistent (num_dice : nat) (input : list (list Z * Qc)) : Prop :=
  ∀ k1 v1 k2 v2, (k1, v1) ∈ input → (k2, v2) ∈ input →
    length k1 ≠ num_dice → sorted k1 = sorted k2 → v1 = v2.

Lemma clashing_extras_rejected :
  succeeds (_parse_roll_values 1 1 (restrict 1 clashing_extras)) ∧
  Widget_init 1 1 2 false true clashing_extras
    = Raise (InconsistentValue [1; 2] (qz 1) (qz 2)).
Proof. split; [eexists; vm_compute; reflexivity | vm_compute; reflexivity]. Qed.

(** C10, as stated, fails: items of another length are rejected when they
    conflict with one another. *)
Lemma extras_never_rejected_fails : ¬ extras_never_rejected.
Proof.
  intros H. destruct clashing_extras_rejected as [Hbase Hraise].
  destruct (H 1%nat 1 2%nat false true clashing_extras ltac:(lia) Hbase) as [w Hw].
  rewrite Hraise in Hw. discriminate.
Qed.

Lemma restrict_parse_agree (num_dice : nat) (num_faces : Z)
    (input : list (list Z * Qc)) (t0 : gmap (list Z) Qc) :
  1 ≤ num_faces →
  _parse_roll_values num_dice num_faces (restrict num_dice input) = Ok t0 →
  extras_consistent num_dice input →
  ∃ t, _parse_roll_values num_dice num_faces input = Ok t ∧
       holds input t ∧
       total_on num_dice num_faces t0 ∧
       ∀ r, r ∈ iter_possible_rolls num_dice num_faces → t !! r = t0 !! r.
Proof.
  intros Hf Hp0 Hex.
  pose proof (_parse_roll_values_spec num_dice num_faces (restrict num_dice input)) as H0.
  rewrite Hp0 in H0. destruct H0 as [[Hh0 Hh0'] Ht0].
  assert (∀ k v, (k, v) ∈ restrict num_dice input ↔
                 length k = num_dice ∧ (k, v) ∈ input) as Hres.
  { intros k v. unfold restrict. by rewrite list_elem_of_filter. }
  pose proof (_parse_roll_values_spec num_dice num_faces input) as H.
  destruct (_parse_roll_values num_dice num_faces input) as [t|e].
  - destruct H as [Hh Ht]. exists t. do 3 (split; [done|]).
    intros r Hr. destruct (Ht0 r Hr) as [v Hv]. rewrite Hv.
    destruct (Hh0' r v Hv) as (k & Hin & <-).
    apply Hres in Hin as [_ Hin]. by apply Hh.
  - exfalso. destruct H as [(k1 & v1 & k2 & v2 & -> & Hne & Hi1 & Hi2 & Hk)
                           |(Hnc & r & -> & Hr & Habs)].
    + destruct (decide (length k1 = num_dice)) as [Hl|Hl].
      * assert (length k2 = num_dice) as Hl2.
        { by rewrite <- (sorted_length k2), Hk, sorted_length. }
        assert (t0 !! sorted k1 = Some v1) as E1 by (apply Hh0, Hres; done).
        assert (t0 !! sorted k2 = Some v2) as E2 by (apply Hh0, Hres; done).
        rewrite Hk in E2. congruence.
      * apply Hne. by apply (Hex k1 v1 k2 v2).
    + destruct (Ht0 r Hr) as [v Hv]. destruct (Hh0' r v Hv) as (k & Hin & Hk).
      apply Hres in Hin as [_ Hin]. by apply (Habs k v).
Qed.

Lemma earlier_agree (num_dice : nat) (num_faces : Z)
    (keep_all_optimal use_dynamic_programming : bool) (t t0 : gmap (list Z) Qc) :
  1 ≤ num_faces → total_on num_dice num_faces t0 →
  (∀ r, r ∈ iter_possible_rolls num_dice num_faces → t !! r = t0 !! r) →
  earlier num_dice num_faces keep_all_optimal use_dynamic_programming t =
  earlier num_dice num_faces keep_all_optimal use_dynamic_programming t0 ∧
  advice num_dice num_faces keep_all_optimal use_dynamic_programming t =
  advice num_dice num_faces keep_all_optimal use_dynamic_programming t0.
Proof.
  intros Hf Ht0 Hsame. unfold earlier, advice.
  by rewrite (_compute_strategy_one_roll_agree num_dice num_faces keep_all_optimal
    use_dynamic_programming t t0 Hf Ht0 Hsame).
Qed.

(** C10, amended: items whose key has another length, provided they do not
    conflict with one another, are accepted and kept in the terminal table,
    and every earlier round is what the input without them produces. *)
Theorem extra_entries_ignored (num_dice : nat) (num_faces : Z) (num_rolls : nat)
    (keep_all_optimal use_dynamic_programming : bool) (input : list (list Z * Qc)) :
  1 ≤ num_faces →
  succeeds (_parse_roll_values num_dice num_faces (restrict num_dice input)) →
  extras_consistent num_dice input →
  ∃ w w0 t,
    Widget_init num_dice num_faces num_rolls keep_all_optimal
      use_dynamic_programming input = Ok w ∧
    Widget_init num_dice num_faces num_rolls keep_all_optimal
      use_dynamic_programming (restrict num_dice input) = Ok w0 ∧
    roll_values w !! (num_rolls - 1)%nat = Some t ∧
    (∀ k v, (k, v) ∈ input → t !! sorted k = Some v) ∧
    (∀ i, (i < num_rolls - 1)%nat →
          roll_values w !! i = roll_values w0 !! i ∧
          optimal_moves w !! i = optimal_moves w0 !! i).
Proof.
  intros Hf [t0 Hp0] Hex.
  destruct (restrict_parse_agree num_dice num_faces input t0 Hf Hp0 Hex)
    as (t & Hp & Hh & Ht0 & Hsame).
  destruct (Widget_init_spec num_dice num_faces keep_all_optimal use_dynamic_programming
    Hf num_rolls input t Hp) as (w & Hw & _ & _ & Hrv & Hom).
  destruct (Widget_init_spec num_dice num_faces keep_all_optimal use_dynamic_programming
    Hf num_rolls _ t0 Hp0) as (w0 & Hw0 & _ & _ & Hrv0 & Hom0).
  destruct (earlier_agree num_dice num_faces keep_all_optimal use_dynamic_programming
    t t0 Hf Ht0 Hsame) as [Hback Hadv].
  exists w, w0, t. do 2 (split; [done|]). split; [|split].
  - rewrite Hrv by lia. by rewrite Nat.sub_diag.
  - by destruct Hh.
  - intros i Hi. rewrite Hrv, Hrv0, Hom, Hom0 by lia.
    replace (num_rolls - 1 - i)%nat with (S (num_rolls - 1 - i - 1)) by lia.
    rewrite !Nat.iter_succ_r, Hback. split; [done|].
    destruct (num_rolls - 1 - i - 1)%nat as [|j]; simpl.
    + by rewrite Hadv.
    + rewrite <- !Nat.iter_succ, !Nat.iter_succ_r. by rewrite Hback.
Qed.

Lemma extra_entries_ignored_witness :
  1 ≤ 2 ∧
  succeeds (_parse_roll_values 1 2 (restrict 1 (([3; 1], qz 7) :: sample_input))) ∧
  extras_consistent 1 (([3; 1], qz 7) :: sample_input) ∧
  ∃ w w0 t,
    Widget_init 1 2 2 false true (([3; 1], qz 7) :: sample_input) = Ok w ∧
    Widget_init 1 2 2 false true (restrict 1 (([3; 1], qz 7) :: sample_input)) = Ok w0 ∧
    roll_values w !! (2 - 1)%nat = Some t ∧
    (∀ k v, (k, v) ∈ ([3; 1], qz 7) :: sample_input → t !! sorted k = Some v) ∧
    (∀ i, (i < 2 - 1)%nat →
          roll_values w !! i = roll_values w0 !! i ∧
          optimal_moves w !! i = optimal_moves w0 !! i).
Proof.
  assert (succeeds (_parse_roll_values 1 2 (restrict 1 (([3; 1], qz 7) :: sample_input))))
    as Hp by (eexists; vm_compute; reflexivity).
  assert (extras_consistent 1 (([3; 1], qz 7) :: sample_input)) as Hex.
  { intros k1 v1 k2 v2 H1 H2 Hl Hk.
    apply elem_of_cons in H1 as [H1|H1].
    - inversion H1; subst. apply elem_of_cons in H2 as [H2|H2].
      + by inversion H2.
      + apply elem_of_cons in H2 as [H2|H2]; [inversion H2; subst; by vm_compute in Hk|].
        apply list_elem_of_singleton in H2. inversion H2; subst. by vm_compute in Hk.
    - apply elem_of_cons in H1 as [H1|H1]; [inversion H1; subst; by simpl in Hl|].
      apply list_elem_of_singleton in H1. inversion H1; subst. by simpl in Hl. }
  split; [lia|]. split; [exact Hp|]. split; [exact Hex|].
  apply (extra_entries_ignored 1 2 2 false true (([3; 1], qz 7) :: sample_input));
    [lia | exact Hp | exact Hex].
Defined.

(** ** The move collections *)

(** The moves reported for every roll are maximising sub-multisets of the
    roll: all of them if [all] is set, exactly one otherwise. *)
Definition reports_optimal_moves (num_dice : nat) (num_faces : Z) (all : bool)
    (c : gmap (list Z) Qc)
    (result : res (gmap (list Z) Qc * gmap (list Z) (list (list Z)))) : Prop :=
  ∃ rv om, result = Ok (rv, om) ∧
    ∀ r, length r = num_dice → canonical num_faces r →
      ∃ v ms, om !! r = Some ms ∧ is_max c r v ∧
        (∀ k, k ∈ ms → Sorted Z.le k ∧ k ⊆+ r ∧ c !! k = Some v) ∧
        (if all then ∀ k, Sorted Z.le k → k ⊆+ r → c !! k = Some v → k ∈ ms
         else length ms = 1%nat).

(** The brute-force resolver reports the optimal moves in both modes, and
    the lattice resolver does when it reports a single move. *)
Lemma moves_without_shared_sets (num_dice : nat) (num_faces : Z)
    (keep_all_optimal : bool) (c : gmap (list Z) Qc) :
  1 ≤ num_faces → total_upto num_dice num_faces c →
  reports_optimal_moves num_dice num_faces keep_all_optimal c
    (_compute_from_cond num_dice num_faces keep_all_optimal c) ∧
  reports_optimal_moves num_dice num_faces false c
    (_compute_from_cond_dp num_dice num_faces false c).
Proof.
  intros Hf Htot. split.
  - destruct (_compute_from_cond_spec num_dice num_faces keep_all_optimal c Hf Htot)
      as (rv & om & Hrun & _ & _ & Hall).
    exists rv, om. split; [done|]. intros r Hl Hc.
    destruct (Hall r) as (v & ms & _ & Hms & Hmax & Hin & Hcomplete);
      [by apply elem_of_iter_possible_rolls|].
    by exists v, ms.
  - destruct (_compute_from_cond_dp_spec num_dice num_faces false c Hf Htot)
      as (rv & om & Hrun & _ & _ & Hmax & Hone).
    exists rv, om. split; [done|]. intros r Hl Hc.
    assert (r ∈ iter_possible_rolls num_dice num_faces) as Hr
      by by apply elem_of_iter_possible_rolls.
    destruct (Hone eq_refl r Hr) as (k & v & Hom & Hrv & Hks & Hsub & Hkv).
    destruct (Hmax r Hr) as (v' & Hrv' & Hmax').
    rewrite Hrv in Hrv'. inversion Hrv'; subst v'.
    exists v, [k]. split; [done|]. split; [done|]. split; [|done].
    intros k' Hk'%list_elem_of_singleton. by subst k'.
Qed.

(** C4 fails for the lattice resolver with [keep_all_optimal]: a set object
    shared between slots is updated in place.  On [sample_cond] the only
    maximising sub-multiset of [(1, 1)] is [(1,)], which is what the
    brute-force resolver reports, but the lattice resolver also reports
    [(2,)], which is not a sub-multiset of [(1, 1)]. *)
Theorem lattice_moves_shared_set :
  total_upto 2 2 sample_cond ∧
  is_max sample_cond [1; 1] (qz 5) ∧
  (∀ k, Sorted Z.le k → k ⊆+ [1; 1] → sample_cond !! k = Some (qz 5) → k = [1]) ∧
  (∃ rv om, _compute_from_cond 2 2 true sample_cond = Ok (rv, om) ∧
            om !! [1; 1] = Some [[1]]) ∧
  (∃ rv om moves, _compute_from_cond_dp 2 2 true sample_cond = Ok (rv, om) ∧
                  om !! [1; 1] = Some moves ∧ [2] ∈ moves ∧ ¬ [2] ⊆+ [1; 1]).
Proof.
  assert (∀ k, Sorted Z.le k → k ⊆+ [1; 1] → k = [] ∨ k = [1] ∨ k = [1; 1]) as Hsub.
  { intros k Hk Hs. pose proof (submseteq_length _ _ Hs) as Hl.
    assert (Forall (λ x, x = 1) k) as Hall.
    { apply Forall_forall. intros x Hx.
      pose proof (elem_of_submseteq _ _ _ Hx Hs) as Hin. set_solver. }
    destruct k as [|a [|b [|? ?]]]; simpl in Hl; [by left | | |lia].
    - inversion Hall; subst. right. by left.
    - inversion Hall as [|? ? Ha Hall']. inversion Hall' as [|? ? Hb _]. subst.
      right. by right. }
  split; [apply total_upto_check; [lia | vm_compute; reflexivity]|].
  split; [|split; [|split]].
  - split.
    + exists [1]. split; [repeat constructor|]. split; [|by vm_compute].
      apply submseteq_cons. done.
    + intros k w Hk Hs Hw. destruct (Hsub k Hk Hs) as [-> | [-> | ->]];
        vm_compute in Hw; inversion Hw; subst; by vm_compute.
  - intros k Hk Hs Hv. destruct (Hsub k Hk Hs) as [-> | [-> | ->]]; [|done|];
      vm_compute in Hv; inversion Hv.
  - destruct (_compute_from_cond 2 2 true sample_cond) as [[rv om]|e] eqn:E;
      [|by vm_compute in E].
    exists rv, om. split; [done|].
    assert (om = match _compute_from_cond 2 2 true sample_cond with
                 | Ok result => result.2 | Raise _ => ∅ end) as -> by by rewrite E.
    by vm_compute.
  - destruct (_compute_from_cond_dp 2 2 true sample_cond) as [[rv om]|e] eqn:E;
      [|by vm_compute in E].
    assert (om = match _compute_from_cond_dp 2 2 true sample_cond with
                 | Ok result => result.2 | Raise _ => ∅ end) as Hom by by rewrite E.
    exists rv, om, [[1]; [2]]. split; [done|]. split; [rewrite Hom; by vm_compute|].
    split; [right; by left|].
    intros Hs. pose proof (elem_of_submseteq [2] [1; 1] 2 ltac:(by left) Hs) as Hin.
    set_solver.
Qed.

(** * Further properties of widget.py *)

(** ** Sub-rolls *)

(** X1: [is_subroll sub roll] holds exactly when [roll] is [sub] with some
    more dice, in any order. *)
Theorem is_subroll_iff_rest (subroll roll : list Z) :
  is_subroll subroll roll = true ↔ ∃ rest, roll ≡ₚ subroll ++ rest.
Proof.
  rewrite is_subroll_submseteq. split.
  - apply submseteq_Permutation.
  - intros [rest ->]. by apply submseteq_inserts_r.
Qed.

(** X2: on rolls, [is_subroll] is reflexive and transitive, holds of the
    empty roll, never holds of a longer roll, and two sorted rolls that are
    sub-rolls of each other are the same tuple. *)
Theorem is_subroll_order :
  (∀ r, is_subroll r r = true) ∧
  (∀ r, is_subroll [] r = true) ∧
  (∀ a b c, is_subroll a b = true → is_subroll b c = true → is_subroll a c = true) ∧
  (∀ a b, is_subroll a b = true → (length a <= length b)%nat) ∧
  (∀ a b, is_subroll a b = true → is_subroll b a = true → a ≡ₚ b) ∧
  (∀ a b, is_subroll a b = true → is_subroll b a = true → sorted a = sorted b).
Proof.
  split; [|split; [|split; [|split; [|split]]]].
  - intros r. by apply is_subroll_submseteq.
  - intros r. apply is_subroll_submseteq, submseteq_nil_l.
  - intros a b c Hab%is_subroll_submseteq Hbc%is_subroll_submseteq.
    apply is_subroll_submseteq. by etrans.
  - intros a b Hab%is_subroll_submseteq. by apply submseteq_length.
  - intros a b Hab%is_subroll_submseteq Hba%is_subroll_submseteq.
    by apply (anti_symm submseteq).
  - intros a b Hab%is_subroll_submseteq Hba%is_subroll_submseteq.
    apply sorted_unique; [apply sorted_Sorted|].
    rewrite sorted_Permutation. by apply (anti_symm submseteq).
Qed.

(** ** The generator: the assertion and termination *)

Lemma advance_any_below (num_faces : Z) (roll : list Z) :
  existsb (λ face_value, negb (face_value =? num_faces)) roll = true →
  ∃ roll', advance num_faces roll = Ok roll'.
Proof.
  induction roll as [|v roll IH]; [done|].
  simpl. rewrite advance_cons. intros Hany.
  destruct (advance num_faces roll) as [r|e] eqn:E; [by eexists|].
  destruct (Z.eqb_spec v num_faces) as [->|Hne]; [|by eexists].
  simpl in Hany. destruct (IH Hany) as [r Hr]. done.
Qed.

Lemma odometer_never_raises (fuel : nat) (num_faces : Z) (roll : list Z) (e : exn) :
  odometer fuel num_faces roll ≠ Some (Raise e).
Proof.
  revert roll. induction fuel as [|fuel IH]; intros roll; [done|].
  simpl. destruct (existsb _ roll) eqn:Hany; [|done].
  destruct (advance_any_below _ _ Hany) as [roll' ->].
  specialize (IH roll'). by destruct (odometer fuel num_faces roll') as [[?|?]|].
Qed.

(** X3: the generator never fails its [assert False]: whatever the
    arguments and however long it runs, it raises nothing. *)
Theorem iter_possible_rolls_never_raises (fuel num_dice : nat) (num_faces : Z) (e : exn) :
  iter_possible_rolls_fuel fuel num_dice num_faces ≠ Some (Raise e).
Proof.
  unfold iter_possible_rolls_fuel. destruct num_dice as [|n]; [done|].
  pose proof (odometer_never_raises fuel num_faces (replicate (S n) 1)) as H.
  destruct (odometer fuel num_faces (replicate (S n) 1)) as [[?|e']|]; try done.
Qed.

Lemma advance_keeps_positive (num_faces : Z) (roll roll' : list Z) :
  Forall (λ x, 1 ≤ x) roll → advance num_faces roll = Ok roll' →
  Forall (λ x, 1 ≤ x) roll' ∧ length roll' = length roll.
Proof.
  rewrite advance_closed.
  destruct (rightmost_below num_faces roll) as [[i w]|] eqn:E; [|done].
  apply rightmost_below_lt in E as [Hi _]. intros Hall [= <-].
  pose proof (lookup_lt_Some _ _ _ Hi) as Hlt.
  assert (1 ≤ w) as Hw by by eapply (Forall_lookup_1 _ roll i).
  split.
  - apply Forall_app. split; [by apply Forall_take|].
    apply Forall_replicate. lia.
  - rewrite length_app, length_take, length_replicate. lia.
Qed.

Lemma odometer_runs_forever (fuel : nat) (num_faces : Z) (roll : list Z) :
  num_faces < 1 → roll ≠ [] → Forall (λ x, 1 ≤ x) roll →
  odometer fuel num_faces roll = None.
Proof.
  intros Hf. revert roll. induction fuel as [|fuel IH]; intros roll Hne Hall; [done|].
  simpl.
  assert (existsb (λ face_value, negb (face_value =? num_faces)) roll = true) as Hany.
  { destruct roll as [|v roll]; [done|]. simpl. inversion Hall; subst.
    destruct (Z.eqb_spec v num_faces); [lia | done]. }
  rewrite Hany. destruct (advance_any_below _ _ Hany) as [roll' Hadv]. rewrite Hadv.
  destruct (advance_keeps_positive _ _ _ Hall Hadv) as [Hall' Hlen].
  rewrite IH; [done| |done]. intros ->. destruct roll; [done | simpl in Hlen; lia].
Qed.

(** X4: the generator comes to an end exactly when there are no dice or at
    least one face; otherwise no number of turns of its loop is enough. *)
Theorem iter_possible_rolls_terminates_iff (num_dice : nat) (num_faces : Z) :
  (∃ fuel rolls, iter_possible_rolls_fuel fuel num_dice num_faces = Some (Ok rolls))
  ↔ (num_dice = 0%nat ∨ 1 ≤ num_faces).
Proof.
  split.
  - intros (fuel & rolls & Hrun).
    destruct num_dice as [|n]; [by left|]. right.
    destruct (decide (1 ≤ num_faces)) as [|Hlt]; [done|]. exfalso.
    unfold iter_possible_rolls_fuel in Hrun.
    rewrite odometer_runs_forever in Hrun; [done | lia | done |].
    apply Forall_replicate. lia.
  - intros [->|Hf].
    + by exists 0%nat, [[]].
    + exists (roll_count num_dice num_faces), (rolls_from num_faces num_dice 1).
      by apply iter_possible_rolls_fuel_rolls_from.
Qed.

(** ** The validator: success *)

Lemma holds_unique (input : list (list Z * Qc)) (t t' : gmap (list Z) Qc) :
  holds input t → holds input t' → t = t'.
Proof.
  intros [H1 H2] [H1' H2']. apply map_eq. intros r.
  destruct (t !! r) as [v|] eqn:E.
  - destruct (H2 r v E) as (k & Hin & <-). symmetry. by apply H1'.
  - destruct (t' !! r) as [v'|] eqn:E'; [|done].
    destruct (H2' r v' E') as (k & Hin & <-). apply H1 in Hin. congruence.
Qed.

(** X5: the validator returns a table exactly when no two items conflict
    and every roll of [num_dice] dice is supplied; the table then holds each
    item under its sorted key and nothing else. *)
Theorem validation_success (num_dice : nat) (num_faces : Z)
    (input : list (list Z * Qc)) (t : gmap (list Z) Qc) :
  1 ≤ num_faces →
  _parse_roll_values num_dice num_faces input = Ok t ↔
  ¬ conflicting input ∧
  (∀ r, length r = num_dice → canonical num_faces r → ¬ absent input r) ∧
  (∀ k v, (k, v) ∈ input → t !! sorted k = Some v) ∧
  (∀ r v, t !! r = Some v → ∃ k, (k, v) ∈ input ∧ sorted k = r).
Proof.
  intros Hf. pose proof (_parse_roll_values_spec num_dice num_faces input) as Hspec.
  split.
  - intros Hp. rewrite Hp in Hspec. destruct Hspec as [Hh Htot].
    split; [by eapply holds_not_conflicting|]. split; [|by destruct Hh].
    intros r Hl Hc Habs.
    destruct (Htot r) as [v Hv]; [by apply elem_of_iter_possible_rolls|].
    destruct Hh as [_ H2]. destruct (H2 r v Hv) as (k & Hin & Hk). by apply (Habs k v).
  - intros (Hnc & Hpres & H1 & H2).
    destruct (_parse_roll_values num_dice num_faces input) as [t'|e].
    + destruct Hspec as [Hh _]. f_equal. by apply (holds_unique input).
    + exfalso. destruct Hspec as [(k1 & v1 & k2 & v2 & _ & Hne & Hi1 & Hi2 & Hk)
                                 |(_ & r & _ & Hr & Habs)].
      * apply Hnc. by exists k1, v1, k2, v2.
      * apply elem_of_iter_possible_rolls in Hr as [Hl Hc]; [|done].
        by apply (Hpres r).
Qed.

Lemma validation_success_witness :
  1 ≤ 2 ∧ ¬ conflicting sample_input.
Proof.
  split; [lia|].
  apply (validation_success 1 2 sample_input sample_terminal); [lia|].
  by vm_compute.
Defined.

(** Two inputs supply the same values under the same sorted keys. *)
Definition same_items (input input' : list (list Z * Qc)) : Prop :=
  ∀ r v, (∃ k, (k, v) ∈ input ∧ sorted k = r) ↔ (∃ k, (k, v) ∈ input' ∧ sorted k = r).

Lemma same_items_holds input input' t :
  same_items input input' → holds input t → holds input' t.
Proof.
  intros Hs [H1 H2]. split.
  - intros k v Hin.
    destruct (proj2 (Hs (sorted k) v)) as (k' & Hin' & Hk'); [by exists k|].
    rewrite <- Hk'. by apply H1.
  - intros r v Hv. apply Hs. by apply H2.
Qed.

(** X6: the table does not depend on the order of the items nor on the
    order of the dice inside a key: inputs that supply the same values under
    the same sorted keys are validated to the same table. *)
Theorem validation_order_insensitive (num_dice : nat) (num_faces : Z)
    (input input' : list (list Z * Qc)) (t : gmap (list Z) Qc) :
  1 ≤ num_faces → same_items input input' →
  _parse_roll_values num_dice num_faces input = Ok t →
  _parse_roll_values num_dice num_faces input' = Ok t.
Proof.
  intros Hf Hs Hp.
  pose proof (_parse_roll_values_spec num_dice num_faces input) as Hspec.
  rewrite Hp in Hspec. destruct Hspec as [Hh Htot].
  pose proof (same_items_holds _ _ _ Hs Hh) as Hh'.
  pose proof (_parse_roll_values_spec num_dice num_faces input') as Hspec'.
  destruct (_parse_roll_values num_dice num_faces input') as [t'|e].
  - destruct Hspec' as [Hh'' _]. f_equal. by apply (holds_unique input').
  - exfalso. destruct Hspec' as [(k1 & v1 & k2 & v2 & _ & Hne & Hi1 & Hi2 & Hk)
                                |(_ & r & _ & Hr & Habs)].
    + apply (holds_not_conflicting _ _ Hh'). by exists k1, v1, k2, v2.
    + destruct (Htot r Hr) as [v Hv]. destruct Hh' as [_ H2'].
      destruct (H2' r v Hv) as (k & Hin & Hk). by apply (Habs k v).
Qed.

Lemma validation_order_insensitive_witness :
  1 ≤ 2 ∧
  _parse_roll_values 1 2 (reverse sample_input) = Ok sample_terminal.
Proof.
  split; [lia|].
  apply (validation_order_insensitive 1 2 sample_input (reverse sample_input));
    [lia | | by vm_compute].
  intros r v. split; intros (k & Hin & Hk); exists k; (split; [|done]).
  - by apply elem_of_reverse.
  - by apply elem_of_reverse in Hin.
Defined.

(** ** The conditional value computer: a missing roll *)

(** A loop raises an error of kind [E] if every turn either keeps [P] or
    raises such an error, and some turn cannot succeed. *)
Lemma for_each_raises {A S} (P : S → Prop) (E : exn → Prop) (xs : list A)
    (body : A → S → res S) (s : S) :
  (∀ x s, x ∈ xs → P s →
     (∃ s', body x s = Ok s' ∧ P s') ∨ (∃ e, body x s = Raise e ∧ E e)) →
  (∃ x, x ∈ xs ∧ ∀ s, P s → ∃ e, body x s = Raise e ∧ E e) →
  P s → ∃ e, for_each xs body s = Raise e ∧ E e.
Proof.
  revert s. induction xs as [|x xs IH]; intros s Hstep (x0 & Hx0 & Hfail) Hs.
  - by apply elem_of_nil in Hx0.
  - simpl. apply elem_of_cons in Hx0 as [->|Hx0].
    + destruct (Hfail s Hs) as (e & -> & He). by exists e.
    + destruct (Hstep x s ltac:(by left) Hs) as [(s' & -> & Hs')|(e & -> & He)];
        [|by exists e].
      simpl. apply IH; [|by exists x0|done].
      intros y s0 Hy. apply Hstep. by right.
Qed.

(** The error raised for a roll of [num_dice] dice that [next] lacks. *)
Definition missing_key (num_dice : nat) (num_faces : Z) (next : gmap (list Z) Qc)
    (e : exn) : Prop :=
  ∃ r, e = KeyError r ∧ length r = num_dice ∧ canonical num_faces r ∧ next !! r = None.

Lemma add_term_cases (num_dice : nat) (num_faces : Z) (next c : gmap (list Z) Qc)
    (kept : list Z) (faces : list Z) (acc : Qc) :
  (∀ r, length r = num_dice → c !! r = next !! r) →
  canonical num_faces kept → S (length kept) = num_dice →
  (∀ i, i ∈ faces → 1 ≤ i ≤ num_faces) →
  (∃ total, for_each faces (add_term c kept) acc = Ok total ∧
            ∀ i, i ∈ faces → is_Some (next !! sorted (kept ++ [i]))) ∨
  (∃ e, for_each faces (add_term c kept) acc = Raise e ∧
        missing_key num_dice num_faces next e).
Proof.
  intros Hsame Hkc Hkl. revert acc.
  induction faces as [|i faces IH]; intros acc Hfaces; simpl.
  - left. exists acc. split; [done|]. by intros i ?%elem_of_nil.
  - assert (length (sorted (kept ++ [i])) = num_dice) as Hl.
    { rewrite sorted_length, length_app. simpl. lia. }
    assert (add_term c kept i acc =
            match next !! sorted (kept ++ [i]) with
            | Some v => Ok (acc + v)%Qc
            | None => Raise (KeyError (sorted (kept ++ [i])))
            end) as ->.
    { unfold add_term, getitem. rewrite (Hsame _ Hl). by destruct (next !! _). }
    destruct (next !! sorted (kept ++ [i])) as [v|] eqn:E; simpl.
    + destruct (IH (acc + v)%Qc) as [(total & Hrun & Hall)|(e & Hrun & He)].
      { intros j Hj. apply Hfaces. by right. }
      * left. exists total. split; [done|].
        intros j [->|Hj]%elem_of_cons; [by rewrite E | by apply Hall].
      * right. by exists e.
    + right. eexists. split; [done|]. eexists. split; [done|]. split; [done|].
      split; [|done]. apply canonical_sorted_snoc; [done|]. apply Hfaces. by left.
Qed.

(** X7: with at least one die, if the next table lacks a roll of
    [num_dice] dice, [_compute_values_given_kept] raises [KeyError] for such
    a missing roll and returns no table. *)
Theorem conditional_values_missing_roll (num_dice : nat) (num_faces : Z)
    (next : gmap (list Z) Qc) :
  1 ≤ num_faces → (1 <= num_dice)%nat →
  (∃ r, length r = num_dice ∧ canonical num_faces r ∧ next !! r = None) →
  ∃ r, _compute_values_given_kept num_dice num_faces next = Raise (KeyError r) ∧
       length r = num_dice ∧ canonical num_faces r ∧ next !! r = None.
Proof.
  intros Hf Hn (r0 & Hl0 & Hc0 & Hr0).
  destruct num_dice as [|n]; [lia|].
  unfold _compute_values_given_kept. rewrite range_down_S. simpl.
  assert (∃ e, for_each (iter_possible_rolls n num_faces) (average_kept num_faces) next
               = Raise e ∧ missing_key (S n) num_faces next e) as (e & -> & He).
  { apply (for_each_raises (λ c, ∀ r, length r = S n → c !! r = next !! r)).
    - intros kept c [Hkl Hkc]%elem_of_iter_possible_rolls Hsame; [|done].
      unfold average_kept.
      destruct (add_term_cases (S n) num_faces next c kept (range 1 (num_faces + 1))
                  0%Qc Hsame Hkc) as [(total & -> & _)|(e & -> & He)].
      { lia. }
      { intros i Hi. unfold range in Hi. apply elem_of_seqZ in Hi. lia. }
      + left. simpl. unfold divide. destruct (Z.eqb_spec num_faces 0); [lia|]. simpl.
        eexists. split; [done|]. intros r Hr.
        rewrite lookup_insert_ne by (intros ->; lia). by apply Hsame.
      + right. by exists e.
    - assert (length r0 - 1 < length r0)%nat as Hlt by lia.
      destruct (predecessor_roll num_faces [] r0 Hf Hc0 (submseteq_nil_l _))
        as (p & d & Hp & Hd & _ & Er); [simpl; lia|].
      rewrite Hl0 in Hp. simpl in Hp. rewrite Nat.sub_0_r in Hp.
      exists p. split; [done|]. intros c Hsame.
      pose proof Hp as [Hpl Hpc]%elem_of_iter_possible_rolls; [|done].
      unfold average_kept.
      destruct (add_term_cases (S n) num_faces next c p (range 1 (num_faces + 1))
                  0%Qc Hsame Hpc) as [(total & _ & Hall)|(e & -> & He)].
      { lia. }
      { intros i Hi. unfold range in Hi. apply elem_of_seqZ in Hi. lia. }
      + exfalso. destruct (Hall d) as [v Hv].
        { unfold range. apply elem_of_seqZ. lia. }
        rewrite Er in Hv. congruence.
      + by exists e.
    - done. }
  simpl. destruct He as (r & -> & Hl & Hc & Hr). by exists r.
Qed.

Lemma conditional_values_missing_roll_witness :
  1 ≤ 2 ∧ (1 <= 1)%nat ∧
  ∃ r, _compute_values_given_kept 1 2 {[ [1] := qz 0 ]} = Raise (KeyError r) ∧
       length r = 1%nat ∧ canonical 2 r ∧
       ({[ [1] := qz 0 ]} : gmap (list Z) Qc) !! r = None.
Proof.
  split; [lia|]. split; [lia|].
  apply (conditional_values_missing_roll 1 2 {[ [1] := qz 0 ]}); [lia | lia |].
  exists [2]. split; [reflexivity|]. split; [|reflexivity].
  split; [repeat constructor | repeat constructor; lia].
Defined.

(** With no dice nothing is looked up: the table is returned as it is. *)
Lemma conditional_values_no_dice (num_faces : Z) (next : gmap (list Z) Qc) :
  _compute_values_given_kept 0 num_faces next = Ok next.
Proof. done. Qed.

(** ** Sums of values *)

Lemma Qc_sum_nil : Qc_sum [] = 0%Qc.
Proof. reflexivity. Qed.

Lemma Qc_sum_cons (x : Qc) (l : list Qc) : Qc_sum (x :: l) = (x + Qc_sum l)%Qc.
Proof. reflexivity. Qed.

Lemma Qc_sum_app (l1 l2 : list Qc) : Qc_sum (l1 ++ l2) = (Qc_sum l1 + Qc_sum l2)%Qc.
Proof.
  induction l1 as [|x l1 IH].
  - rewrite app_nil_l, Qc_sum_nil. ring.
  - rewrite <- app_comm_cons, !Qc_sum_cons, IH. ring.
Qed.

Lemma Qc_sum_scale {A} (a : Qc) (g : A → Qc) (l : list A) :
  Qc_sum ((λ x, a * g x)%Qc <$> l) = (a * Qc_sum (g <$> l))%Qc.
Proof.
  induction l as [|x l IH].
  - rewrite !fmap_nil, Qc_sum_nil. ring.
  - rewrite !fmap_cons, !Qc_sum_cons, IH. ring.
Qed.

Lemma Qc_sum_bind {A B} (g : B → Qc) (k : A → list B) (l : list A) :
  Qc_sum (g <$> (l ≫= k)) = Qc_sum ((λ x, Qc_sum (g <$> k x)) <$> l).
Proof.
  induction l as [|x l IH]; [done|].
  rewrite bind_cons, fmap_app, Qc_sum_app, IH. by rewrite fmap_cons, Qc_sum_cons.
Qed.

Lemma Qc_sum_le {A} (g h : A → Qc) (l : list A) :
  (∀ x, x ∈ l → (g x <= h x)%Qc) → (Qc_sum (g <$> l) <= Qc_sum (h <$> l))%Qc.
Proof.
  induction l as [|x l IH]; intros Hle.
  - apply Qcle_refl.
  - rewrite !fmap_cons, !Qc_sum_cons. apply Qcplus_le_compat.
    + apply Hle. by left.
    + apply IH. intros y Hy. apply Hle. by right.
Qed.

Lemma qz_add (a b : Z) : qz (a + b) = (qz a + qz b)%Qc.
Proof.
  apply Qc_is_canon. unfold qz. simpl.
  rewrite !Qred_correct, inject_Z_plus. reflexivity.
Qed.

Lemma qz_pos (z : Z) : 0 < z → (0 < qz z)%Qc.
Proof.
  intros Hz. unfold Qclt, qz. simpl.
  apply (Qlt_le_trans _ (inject_Z z)).
  - unfold Qlt. simpl. lia.
  - apply Qle_lteq. right. symmetry. apply Qred_correct.
Qed.

Lemma Qc_sum_const {A} (a : Qc) (l : list A) :
  Qc_sum ((λ _, a) <$> l) = (qz (Z.of_nat (length l)) * a)%Qc.
Proof.
  induction l as [|x l IH].
  - rewrite fmap_nil, Qc_sum_nil. simpl length. change (qz (Z.of_nat 0)) with 0%Qc. ring.
  - rewrite fmap_cons, Qc_sum_cons, IH. simpl length.
    rewrite Nat2Z.inj_succ. unfold Z.succ. rewrite qz_add.
    change (qz 1) with 1%Qc. ring.
Qed.

(** The mean of a constant over the faces is the constant. *)
Lemma mean_const (num_faces : Z) (a : Qc) :
  1 ≤ num_faces →
  (1 / qz num_faces * Qc_sum ((λ _, a) <$> seqZ 1 num_faces))%Qc = a.
Proof.
  intros Hf. rewrite Qc_sum_const, length_seqZ, Z2Nat.id by lia.
  field. intros H. pose proof (qz_pos num_faces ltac:(lia)) as Hp.
  rewrite H in Hp. by apply Qclt_not_eq in Hp.
Qed.

Lemma mean_le (num_faces : Z) (g h : Z → Qc) :
  1 ≤ num_faces →
  (∀ i, 1 ≤ i ≤ num_faces → (g i <= h i)%Qc) →
  (1 / qz num_faces * Qc_sum (g <$> seqZ 1 num_faces)
   <= 1 / qz num_faces * Qc_sum (h <$> seqZ 1 num_faces))%Qc.
Proof.
  intros Hf Hle. apply Qcmult_le_mono_nonneg_l.
  - apply Qclt_le_weak. unfold Qcdiv. rewrite Qcmult_1_l.
    apply Qcinv_pos, qz_pos. lia.
  - apply Qc_sum_le. intros i Hi%elem_of_seqZ. apply Hle. lia.
Qed.

(** ** The conditional value is the expectation over the reroll *)

(** The equally likely outcomes of throwing [m] dice, in order. *)
Fixpoint outcomes (num_faces : Z) (m : nat) : list (list Z) :=
  match m with
  | O => [[]]
  | S m' => seqZ 1 num_faces ≫= λ i, cons i <$> outcomes num_faces m'
  end.

(** The mean, over the outcomes of throwing the dice that are not kept, of
    the next-round value of the roll that results. *)
Definition reroll_mean (num_dice : nat) (num_faces : Z) (next : gmap (list Z) Qc)
    (kept : list Z) : Qc :=
  ((1 / qz num_faces) ^ (num_dice - length kept) *
   Qc_sum ((λ thrown, value next (sorted (kept ++ thrown)))
             <$> outcomes num_faces (num_dice - length kept)))%Qc.

Lemma sorted_app_sorted (a b : list Z) : sorted (sorted a ++ b) = sorted (a ++ b).
Proof.
  apply sorted_unique; [apply sorted_Sorted|].
  by rewrite !sorted_Permutation.
Qed.

Lemma cond_done_reroll_mean (num_dice : nat) (num_faces : Z)
    (next c : gmap (list Z) Qc) :
  1 ≤ num_faces → total_on num_dice num_faces next →
  cond_done num_dice num_faces next c 0 →
  ∀ kept, canonical num_faces kept → (length kept <= num_dice)%nat →
          c !! kept = Some (reroll_mean num_dice num_faces next kept).
Proof.
  intros Hf Htot (Hn & _ & _ & Hrec).
  assert (∀ m kept, (num_dice - length kept)%nat = m → canonical num_faces kept →
            (length kept <= num_dice)%nat →
            c !! kept = Some (reroll_mean num_dice num_faces next kept)) as Hind.
  { induction m as [|m IH]; intros kept Hm Hc Hl; unfold reroll_mean; rewrite Hm.
    - rewrite Hn by lia.
      destruct (Htot kept) as [v Hv]; [apply elem_of_iter_possible_rolls; [done|];
                                       split; [lia | done]|].
      rewrite Hv. f_equal. simpl outcomes. rewrite fmap_cons, fmap_nil, Qc_sum_cons, Qc_sum_nil.
      rewrite app_nil_r, sorted_id by by destruct Hc.
      unfold value. rewrite Hv. simpl. ring.
    - rewrite Hrec by (done || lia). f_equal. unfold expected.
      simpl outcomes. rewrite Qc_sum_bind.
      rewrite (list_fmap_ext
                 (λ face, value c (sorted (kept ++ [face])))
                 (λ face, ((1 / qz num_faces) ^ m *
                    Qc_sum ((λ thrown, value next (sorted (kept ++ face :: thrown)))
                              <$> outcomes num_faces m))%Qc)).
      + rewrite Qc_sum_scale. simpl Qcpower.
        rewrite (list_fmap_ext
                   (λ x, Qc_sum ((λ thrown, value next (sorted (kept ++ thrown)))
                                   <$> (cons x <$> outcomes num_faces m)))
                   (λ face, Qc_sum ((λ thrown, value next (sorted (kept ++ face :: thrown)))
                              <$> outcomes num_faces m))
                   (seqZ 1 num_faces)).
        * ring.
        * intros _ i _. by rewrite <- list_fmap_compose.
      + intros _ i Hi%list_elem_of_lookup_2%elem_of_seqZ.
        assert (length (sorted (kept ++ [i])) = S (length kept)) as Hlen.
        { rewrite sorted_length, length_app. simpl. lia. }
        unfold value at 1.
        rewrite (IH (sorted (kept ++ [i]))); [|lia| |lia].
        2:{ apply canonical_sorted_snoc; [done | lia]. }
        simpl. unfold reroll_mean. rewrite Hlen.
        replace (num_dice - S (length kept))%nat with m by lia.
        do 2 f_equal. apply list_fmap_ext. intros _ xs _.
        by rewrite sorted_app_sorted, <- app_assoc. }
  intros kept. by apply (Hind (num_dice - length kept)%nat).
Qed.

(** X8: if the arithmetic is exact (rational values, a sum and a division
    that do not round), the conditional value of keeping [kept] is the
    expectation of the next-round value over the equally likely ordered
    outcomes of throwing the other dice: their sum divided by [num_faces]
    to the number of dice thrown. *)
Theorem conditional_value_is_expectation (num_dice : nat) (num_faces : Z)
    (next : gmap (list Z) Qc) :
  1 ≤ num_faces → total_on num_dice num_faces next →
  ∃ c, _compute_values_given_kept_with exact_mean num_dice num_faces next = Ok c ∧
       ∀ kept, canonical num_faces kept → (length kept <= num_dice)%nat →
               c !! kept = Some (reroll_mean num_dice num_faces next kept).
Proof.
  intros Hf Htot. rewrite _compute_values_given_kept_exact.
  destruct (_compute_values_given_kept_spec num_dice num_faces next Hf Htot)
    as (c & Hc & Hdone).
  exists c. split; [done|]. by apply cond_done_reroll_mean.
Qed.

Lemma conditional_value_is_expectation_witness :
  1 ≤ 2 ∧ total_on 1 2 sample_terminal ∧
  ∃ c, _compute_values_given_kept_with exact_mean 1 2 sample_terminal = Ok c ∧
       ∀ kept, canonical 2 kept → (length kept <= 1)%nat →
               c !! kept = Some (reroll_mean 1 2 sample_terminal kept).
Proof.
  assert (total_on 1 2 sample_terminal) as Htot
    by (apply total_on_check; vm_compute; reflexivity).
  split; [lia|]. split; [exact Htot|].
  apply (conditional_value_is_expectation 1 2 sample_terminal); [lia | exact Htot].
Defined.

(** ** Bounds and monotonicity of the round values *)

(** Every roll of [num_dice] dice has a value between [lo] and [hi]. *)
Definition bounded_on (num_dice : nat) (num_faces : Z) (lo hi : Qc)
    (t : gmap (list Z) Qc) : Prop :=
  ∀ r, r ∈ iter_possible_rolls num_dice num_faces →
       ∃ v, t !! r = Some v ∧ (lo <= v)%Qc ∧ (v <= hi)%Qc.


Lemma bounded_on_total n f lo hi t : bounded_on n f lo hi t → total_on n f t.
Proof. intros Hb r Hr. destruct (Hb r Hr) as (v & Hv & _). by exists v. Qed.


Lemma cond_done_bounded (num_dice : nat) (num_faces : Z) (lo hi : Qc)
    (next c : gmap (list Z) Qc) :
  1 ≤ num_faces → bounded_on num_dice num_faces lo hi next →
  cond_done num_dice num_faces next c 0 →
  ∀ kept, canonical num_faces kept → (length kept <= num_dice)%nat →
          ∃ v, c !! kept = Some v ∧ (lo <= v)%Qc ∧ (v <= hi)%Qc.
Proof.
  intros Hf Hb (Hn & _ & _ & Hrec).
  assert (∀ m kept, (num_dice - length kept)%nat = m → canonical num_faces kept →
            (length kept <= num_dice)%nat →
            ∃ v, c !! kept = Some v ∧ (lo <= v)%Qc ∧ (v <= hi)%Qc) as Hind.
  { induction m as [|m IH]; intros kept Hm Hc Hl.
    - rewrite Hn by lia. apply Hb, elem_of_iter_possible_rolls; [done|].
      split; [lia | done].
    - rewrite Hrec by (done || lia). eexists. split; [done|].
      assert (∀ i, 1 ≤ i ≤ num_faces →
                (lo <= value c (sorted (kept ++ [i])))%Qc ∧
                (value c (sorted (kept ++ [i])) <= hi)%Qc) as Hin.
      { intros i Hi.
        destruct (IH (sorted (kept ++ [i]))) as (v & Hv & Hlo & Hhi).
        - rewrite sorted_length, length_app. simpl. lia.
        - by apply canonical_sorted_snoc.
        - rewrite sorted_length, length_app. simpl. lia.
        - unfold value. rewrite Hv. done. }
      unfold expected. split.
      + rewrite <- (mean_const num_faces lo Hf) at 1.
        apply mean_le; [done|]. intros i Hi. by apply Hin.
      + rewrite <- (mean_const num_faces hi Hf) at 1.
        apply mean_le; [done|]. intros i Hi. by apply Hin. }
  intros kept. by apply (Hind (num_dice - length kept)%nat).
Qed.


Section RoundsOrder.
Variables (num_dice : nat) (num_faces : Z).
Variables (keep_all_optimal use_dynamic_programming : bool).
Hypothesis faces_pos : 1 ≤ num_faces.

Let back := earlier num_dice num_faces keep_all_optimal use_dynamic_programming.

Lemma back_bounded (lo hi : Qc) (t : gmap (list Z) Qc) :
  bounded_on num_dice num_faces lo hi t → bounded_on num_dice num_faces lo hi (back t).
Proof.
  intros Hb.
  destruct (_compute_strategy_one_roll_spec num_dice num_faces keep_all_optimal
    use_dynamic_programming t faces_pos (bounded_on_total _ _ _ _ _ Hb))
    as (c & rv & om & _ & Hdone & Hrun & _ & _ & Hmax & _).
  unfold back, earlier. rewrite Hrun. simpl. intros r Hr.
  destruct (Hmax r Hr) as (v & Hv & (k & Hks & Hsub & Hkv) & _).
  exists v. split; [done|].
  apply elem_of_iter_possible_rolls in Hr as [Hl Hc]; [|done].
  destruct (cond_done_bounded num_dice num_faces lo hi t c faces_pos Hb Hdone k)
    as (v' & Hv' & Hbounds).
  - by eapply canonical_submseteq.
  - rewrite <- Hl. by apply submseteq_length.
  - rewrite Hkv in Hv'. by inversion Hv'; subst.
Qed.


Lemma iter_back_bounded (lo hi : Qc) (t : gmap (list Z) Qc) (j : nat) :
  bounded_on num_dice num_faces lo hi t →
  bounded_on num_dice num_faces lo hi (Nat.iter j back t).
Proof. intros Hb. induction j as [|j IH]; [done|]. simpl. by apply back_bounded. Qed.

End RoundsOrder.




(** ** The flags and the round values *)

Lemma earlier_flags (num_dice : nat) (num_faces : Z) (ka dp ka' dp' : bool)
    (t : gmap (list Z) Qc) :
  1 ≤ num_faces → total_on num_dice num_faces t →
  earlier num_dice num_faces ka dp t = earlier num_dice num_faces ka' dp' t.
Proof.
  intros Hf Ht.
  destruct (_compute_strategy_one_roll_spec num_dice num_faces ka dp t Hf Ht)
    as (c & rv & om & Hc & _ & Hrun & Hk & _ & Hmax & _).
  destruct (_compute_strategy_one_roll_spec num_dice num_faces ka' dp' t Hf Ht)
    as (c' & rv' & om' & Hc' & _ & Hrun' & Hk' & _ & Hmax' & _).
  rewrite Hc in Hc'. inversion Hc'; subst c'.
  unfold earlier. rewrite Hrun, Hrun'. simpl. apply map_eq. intros r.
  destruct (decide (r ∈ iter_possible_rolls num_dice num_faces)) as [Hr|Hr].
  - destruct (Hmax r Hr) as (v & -> & Hv). destruct (Hmax' r Hr) as (v' & -> & Hv').
    f_equal. by eapply is_max_unique.
  - destruct (rv' !! r) as [v'|] eqn:E'; [destruct Hr; apply Hk'; by exists v'|].
    destruct (rv !! r) as [v|] eqn:E; [destruct Hr; apply Hk; by exists v|]. done.
Qed.

Lemma iter_earlier_flags (num_dice : nat) (num_faces : Z) (ka dp ka' dp' : bool)
    (t : gmap (list Z) Qc) (j : nat) :
  1 ≤ num_faces → total_on num_dice num_faces t →
  Nat.iter j (earlier num_dice num_faces ka dp) t =
  Nat.iter j (earlier num_dice num_faces ka' dp') t.
Proof.
  intros Hf Ht. induction j as [|j IH]; [done|]. simpl. rewrite IH.
  apply earlier_flags; [done|]. by apply iter_back_total.
Qed.

(** X11: the two flags choose how moves are found and reported, never what
    a roll is worth: whatever their settings, a valid input gives the same
    list of round value tables. *)
Theorem round_values_independent_of_flags (num_dice : nat) (num_faces : Z)
    (num_rolls : nat) (ka dp ka' dp' : bool)
    (input : list (list Z * Qc)) :
  1 ≤ num_faces →
  succeeds (_parse_roll_values num_dice num_faces input) →
  ∃ w w', Widget_init num_dice num_faces num_rolls ka dp input = Ok w ∧
          Widget_init num_dice num_faces num_rolls ka' dp' input = Ok w' ∧
          roll_values w = roll_values w'.
Proof.
  intros Hf [t Hp].
  destruct (Widget_init_spec num_dice num_faces ka dp Hf num_rolls input t Hp)
    as (w & Hw & Hl & _ & Hrv & _).
  destruct (Widget_init_spec num_dice num_faces ka' dp' Hf num_rolls input t Hp)
    as (w' & Hw' & Hl' & _ & Hrv' & _).
  exists w, w'. do 2 (split; [done|]).
  pose proof (_parse_roll_values_spec num_dice num_faces input) as Hspec.
  rewrite Hp in Hspec. destruct Hspec as [_ Ht].
  apply list_eq. intros i.
  destruct (decide (i <= num_rolls - 1)%nat) as [Hi|Hi].
  - rewrite Hrv, Hrv' by lia. f_equal. by apply iter_earlier_flags.
  - rewrite !lookup_ge_None_2 by lia. done.
Qed.

Lemma round_values_independent_of_flags_witness :
  1 ≤ 2 ∧ succeeds (_parse_roll_values 1 2 sample_input) ∧
  ∃ w w', Widget_init 1 2 3 true true sample_input = Ok w ∧
          Widget_init 1 2 3 false false sample_input = Ok w' ∧
          roll_values w = roll_values w'.
Proof.
  assert (succeeds (_parse_roll_values 1 2 sample_input)) as Hp
    by (eexists; vm_compute; reflexivity).
  split; [lia|]. split; [exact Hp|].
  apply (round_values_independent_of_flags 1 2 3 true true false false sample_input);
    [lia | exact Hp].
Defined.

(** ** The rounds of a widget *)

(** X12: a valid input gives a widget with one value table per round (one
    in all when [num_rolls] is 0 or 1) and one move table per round but the
    last; the last value table is the validated input, and the tables of
    every other round are a successful [_compute_strategy_one_roll] of the
    value table of the round after it. *)
Theorem rounds_are_chained (num_dice : nat) (num_faces : Z) (num_rolls : nat)
    (keep_all_optimal use_dynamic_programming : bool)
    (input : list (list Z * Qc)) (t : gmap (list Z) Qc) :
  1 ≤ num_faces →
  _parse_roll_values num_dice num_faces input = Ok t →
  ∃ w, Widget_init num_dice num_faces num_rolls keep_all_optimal
         use_dynamic_programming input = Ok w ∧
       length (roll_values w) = S (num_rolls - 1) ∧
       length (optimal_moves w) = (num_rolls - 1)%nat ∧
       roll_values w !! (num_rolls - 1)%nat = Some t ∧
       ∀ idx, (idx < num_rolls - 1)%nat →
         ∃ next rv om,
           roll_values w !! (idx + 1)%nat = Some next ∧
           roll_values w !! idx = Some rv ∧ optimal_moves w !! idx = Some om ∧
           _compute_strategy_one_roll num_dice num_faces keep_all_optimal
             use_dynamic_programming next = Ok (rv, om).
Proof.
  intros Hf Hp.
  destruct (Widget_init_spec num_dice num_faces keep_all_optimal use_dynamic_programming
    Hf num_rolls input t Hp) as (w & Hw & Hl1 & Hl2 & Hrv & Hom).
  pose proof (_parse_roll_values_spec num_dice num_faces input) as Hspec.
  rewrite Hp in Hspec. destruct Hspec as [_ Ht].
  exists w. do 3 (split; [done|]). split.
  - rewrite Hrv by lia. by rewrite Nat.sub_diag.
  - intros idx Hidx.
    set (back := earlier num_dice num_faces keep_all_optimal use_dynamic_programming) in *.
    set (j := (num_rolls - 1 - (idx + 1))%nat).
    exists (Nat.iter j back t), (back (Nat.iter j back t)),
      (advice num_dice num_faces keep_all_optimal use_dynamic_programming
         (Nat.iter j back t)).
    split; [|split; [|split]].
    + by rewrite Hrv by lia.
    + rewrite Hrv by lia. by replace (num_rolls - 1 - idx)%nat with (S j) by lia.
    + rewrite Hom by lia. by replace (num_rolls - 1 - idx - 1)%nat with j by lia.
    + apply one_total; [done|]. by apply iter_back_total.
Qed.

Lemma rounds_are_chained_witness :
  1 ≤ 2 ∧ _parse_roll_values 1 2 sample_input = Ok sample_terminal ∧
  ∃ w, Widget_init 1 2 0 false true sample_input = Ok w ∧
       length (roll_values w) = 1%nat ∧ length (optimal_moves w) = 0%nat.
Proof.
  assert (_parse_roll_values 1 2 sample_input = Ok sample_terminal) as Hp by by vm_compute.
  split; [lia|]. split; [exact Hp|].
  destruct (rounds_are_chained 1 2 0 false true sample_input sample_terminal
              ltac:(lia) Hp) as (w & Hw & Hl1 & Hl2 & _).
  by exists w.
Defined.

(** X13: inside one widget a roll is worth at least as much at a round as
    at the round after it. *)
Theorem values_grow_towards_first_round (num_dice : nat) (num_faces : Z)
    (num_rolls : nat) (keep_all_optimal use_dynamic_programming : bool)
    (input : list (list Z * Qc)) (idx : nat) (r : list Z) :
  1 ≤ num_faces →
  succeeds (_parse_roll_values num_dice num_faces input) →
  (idx < num_rolls - 1)%nat →
  length r = num_dice → canonical num_faces r →
  ∃ w v v', Widget_init num_dice num_faces num_rolls keep_all_optimal
              use_dynamic_programming input = Ok w ∧
            round_value w idx r = Some v ∧
            round_value w (idx + 1) r = Some v' ∧ (v' <= v)%Qc.
Proof.
  intros Hf [t Hp] Hidx Hl Hc.
  destruct (Widget_init_spec num_dice num_faces keep_all_optimal use_dynamic_programming
    Hf num_rolls input t Hp) as (w & Hw & _ & _ & Hrv & _).
  pose proof (_parse_roll_values_spec num_dice num_faces input) as Hspec.
  rewrite Hp in Hspec. destruct Hspec as [_ Ht].
  destruct (back_ge num_dice num_faces keep_all_optimal use_dynamic_programming Hf
    (Nat.iter (num_rolls - 1 - (idx + 1))
       (earlier num_dice num_faces keep_all_optimal use_dynamic_programming) t) r)
    as (v & v' & Hv & Hv' & Hle).
  { by apply iter_back_total. }
  { by apply elem_of_iter_possible_rolls. }
  exists w, v, v'. split; [done|]. unfold round_value.
  rewrite (Hrv idx), (Hrv (idx + 1)%nat) by lia.
  replace (num_rolls - 1 - idx)%nat with (S (num_rolls - 1 - (idx + 1))) by lia.
  simpl. done.
Qed.

Lemma values_grow_towards_first_round_witness :
  1 ≤ 2 ∧ succeeds (_parse_roll_values 1 2 sample_input) ∧ (0 < 3 - 1)%nat ∧
  length [1] = 1%nat ∧ canonical 2 [1] ∧
  ∃ w v v', Widget_init 1 2 3 false true sample_input = Ok w ∧
            round_value w 0 [1] = Some v ∧
            round_value w (0 + 1) [1] = Some v' ∧ (v' <= v)%Qc.
Proof.
  assert (succeeds (_parse_roll_values 1 2 sample_input)) as Hp
    by (eexists; vm_compute; reflexivity).
  assert (canonical 2 [1]) as Hc
    by (split; [repeat constructor | repeat constructor; lia]).
  split; [lia|]. split; [exact Hp|]. split; [lia|]. split; [reflexivity|].
  split; [exact Hc|].
  apply (values_grow_towards_first_round 1 2 3 false true sample_input 0 [1]);
    [lia | exact Hp | lia | reflexivity | exact Hc].
Defined.

(** ** The moves, where no set is shared *)

(** X14: the brute-force resolver reports, for every roll, maximising
    sub-multisets of the roll: all of them with [keep_all_optimal], exactly
    one without; the lattice resolver without [keep_all_optimal] reports
    exactly one maximising sub-multiset. *)
Theorem resolvers_report_optimal_moves (num_dice : nat) (num_faces : Z)
    (keep_all_optimal : bool) (c : gmap (list Z) Qc) :
  1 ≤ num_faces → total_upto num_dice num_faces c →
  reports_optimal_moves num_dice num_faces keep_all_optimal c
    (_compute_from_cond num_dice num_faces keep_all_optimal c) ∧
  reports_optimal_moves num_dice num_faces false c
    (_compute_from_cond_dp num_dice num_faces false c).
Proof. apply moves_without_shared_sets. Qed.

Lemma resolvers_report_optimal_moves_witness :
  1 ≤ 2 ∧ total_upto 2 2 sample_cond ∧
  reports_optimal_moves 2 2 true sample_cond (_compute_from_cond 2 2 true sample_cond) ∧
  reports_optimal_moves 2 2 false sample_cond (_compute_from_cond_dp 2 2 false sample_cond).
Proof.
  assert (total_upto 2 2 sample_cond) as Htot
    by (apply total_upto_check; [lia | vm_compute; reflexivity]).
  split; [lia|]. split; [exact Htot|].
  apply (resolvers_report_optimal_moves 2 2 true sample_cond); [lia | exact Htot].
Defined.

(** ** Binary64 arithmetic

    A Python [float] is an IEEE 754 binary64 number: 53 bits of precision,
    exponents below 1024, rounding to nearest, ties to even. *)

Abbreviation binary64 := SpecFloat.spec_float.

Definition b64_add : binary64 → binary64 → binary64 := SpecFloat.SFadd 53 1024.
Definition b64_sub : binary64 → binary64 → binary64 := SpecFloat.SFsub 53 1024.
Definition b64_div : binary64 → binary64 → binary64 := SpecFloat.SFdiv 53 1024.

(** [float(n)]: the nearest float, or [OverflowError] when there is none. *)
Definition b64_of_int (n : Z) : res binary64 :=
  match SpecFloat.binary_normalize 53 1024 n 0 false with
  | SpecFloat.S754_infinity _ => Raise OverflowError
  | x => Ok x
  end.

Definition b64_is_zero (x : binary64) : bool :=
  match x with
  | SpecFloat.S754_zero _ => true
  | _ => false
  end.

(** [c and isfinite(c)] *)
Definition b64_finite_nonzero (x : binary64) : bool :=
  match x with
  | SpecFloat.S754_finite _ _ _ => true
  | _ => false
  end.

(** One turn of the float loop of [sum] since Python 3.12, which carries a
    compensation [c] beside the running total (Neumaier's summation). *)
Definition compensated_step (state : binary64 * binary64) (x : binary64)
    : binary64 * binary64 :=
  let '(f_result, c) := state in
  let t := b64_add f_result x in
  let c :=
    if SpecFloat.SFleb (SpecFloat.SFabs x) (SpecFloat.SFabs f_result)
    then b64_add c (b64_add (b64_sub f_result t) x)
    else b64_add c (b64_add (b64_sub x t) f_result) in
  (t, c).

(** [sum(items)] for a generator that yields at least one item, all of them
    floats: the first item is added to the integer 0 with which [sum]
    starts, the others are added in the float loop, which up to Python 3.11
    adds them one by one and since Python 3.12 is compensated. *)
Definition b64_sum (compensated : bool) (first : binary64) (others : list binary64)
    : binary64 :=
  let start := b64_add (SpecFloat.S754_zero false) first in
  if compensated then
    let '(f_result, c) := foldl compensated_step (start, SpecFloat.S754_zero false) others in
    if b64_finite_nonzero c then b64_add f_result c else f_result
  else foldl b64_add start others.

(** [sum(items) / num_faces] on a table of floats.  Without items the sum
    is the integer 0, and [0 / num_faces] is a zero of the sign of
    [num_faces]. *)
Definition b64_mean (compensated : bool) (items : list binary64) (num_faces : Z)
    : res binary64 :=
  match items with
  | [] =>
      if num_faces =? 0 then Raise ZeroDivisionError
      else Ok (SpecFloat.S754_zero (num_faces <? 0))
  | first :: others =>
      do divisor <- b64_of_int num_faces;
      if b64_is_zero divisor then Raise ZeroDivisionError
      else Ok (b64_div (b64_sum compensated first others) divisor)
  end.

(** The real number that a finite float is. *)
Definition b64_real (x : binary64) : option Qc :=
  match x with
  | SpecFloat.S754_zero _ => Some 0%Qc
  | SpecFloat.S754_finite s m e =>
      Some (Q2Qc (inject_Z (if s then Z.neg m else Z.pos m) * (2 ^ e)%Q))
  | _ => None
  end.

(** The float that Python reads [0.1] as. *)
Definition tenth : binary64 := SpecFloat.S754_finite false 7205759403792794 (-56).

Definition tenths : gmap (list Z) binary64 :=
  list_to_map [([1], tenth); ([2], tenth); ([3], tenth)].

(** ** The exact recurrence *)

(** The recurrence as an equation between real numbers: the table returned
    agrees with the input on the rolls of [num_dice] dice, and the number
    stored for every canonical roll of fewer dice is [1 / num_faces] times
    the sum of the numbers stored for the roll with each face added. *)
Definition exact_recurrence {number : Type} (real : number → option Qc)
    (mean : list number → Z → res number) (num_dice : nat) (num_faces : Z)
    (next : gmap (list Z) number) : Prop :=
  ∃ c, _compute_values_given_kept_with mean num_dice num_faces next = Ok c ∧
       (∀ r, length r = num_dice → c !! r = next !! r) ∧
       ∀ kept, canonical num_faces kept → (length kept < num_dice)%nat →
         ∃ v x xs,
           c !! kept = Some v ∧ real v = Some x ∧
           mapM (λ face, c !! sorted (kept ++ [face]) ≫= real) (seqZ 1 num_faces)
           = Some xs ∧
           x = (1 / qz num_faces * Qc_sum xs)%Qc.

Lemma tenths_total (r : list Z) :
  length r = 1%nat → canonical 3 r → is_Some (tenths !! r).
Proof.
  intros Hl [_ Hf]. destruct r as [|x [|y r]]; [done| |done].
  apply Forall_cons in Hf as [Hx _].
  assert (x = 1 ∨ x = 2 ∨ x = 3) as [-> | [-> | ->]] by lia; by eexists.
Qed.

Lemma tenths_computed (compensated : bool) :
  _compute_values_given_kept_with (b64_mean compensated) 1 3 tenths =
  Ok (<[[] := SpecFloat.S754_finite false 7205759403792795 (-56)]> tenths).
Proof. destruct compensated; vm_compute; reflexivity. Qed.

Lemma tenths_inexact (compensated : bool) :
  ¬ exact_recurrence b64_real (b64_mean compensated) 1 3 tenths.
Proof.
  intros (c & Hc & _ & Hrec). rewrite tenths_computed in Hc. injection Hc as <-.
  destruct (Hrec []) as (v & x & xs & Hv & Hx & Hxs & Heq).
  { split; constructor. }
  { simpl. lia. }
  rewrite lookup_insert_eq in Hv. injection Hv as <-.
  vm_compute in Hx. injection Hx as <-.
  vm_compute in Hxs. injection Hxs as <-.
  apply (f_equal this) in Heq. vm_compute in Heq. discriminate Heq.
Qed.

(** With terminal values 0.1, 0.1, 0.1 for one die of three faces, the value
    that the code stores for the empty roll is 0.10000000000000002, which
    is not a third of the sum of the three values, whether [sum] is
    compensated or not. *)
Lemma exact_recurrence_fails_in_binary64 :
  (∀ r, length r = 1%nat → canonical 3 r → is_Some (tenths !! r)) ∧
  ¬ exact_recurrence b64_real (b64_mean false) 1 3 tenths ∧
  ¬ exact_recurrence b64_real (b64_mean true) 1 3 tenths.
Proof.
  split; [apply tenths_total|]. split; apply tenths_inexact.
Qed.

(** In exact arithmetic the recurrence holds as an equation. *)
Lemma exact_recurrence_exact (num_dice : nat) (num_faces : Z) (next : gmap (list Z) Qc) :
  1 ≤ num_faces → total_on num_dice num_faces next →
  exact_recurrence Some exact_mean num_dice num_faces next.
Proof.
  intros Hf Htot.
  destruct (conditional_values_recurrence num_dice num_faces next Hf Htot)
    as (c & Hc & Hn & Hrec & Hall).
  exists c. rewrite _compute_values_given_kept_exact. split; [done|]. split; [done|].
  intros kept Hk Hl.
  exists (expected num_faces c kept), (expected num_faces c kept),
    ((λ face, value c (sorted (kept ++ [face]))) <$> seqZ 1 num_faces).
  split; [by apply Hrec|]. split; [done|]. split; [|done].
  apply mapM_Some_2, Forall2_fmap_r, Forall_Forall2_diag, Forall_forall.
  intros face Hface%elem_of_seqZ.
  destruct (Hall (sorted (kept ++ [face]))) as [v Hv].
  - apply canonical_sorted_snoc; [done | lia].
  - rewrite sorted_length, length_app. simpl. lia.
  - unfold compose, value. by rewrite Hv.
Qed.

Lemma conditional_values_computed_witness :
  1 ≤ 3 ∧
  (∀ r, length r = 1%nat → canonical 3 r → is_Some (tenths !! r)) ∧
  (∀ items, length items = Z.to_nat 3 → ∃ q, b64_mean true items 3 = Ok q) ∧
  ∃ c, _compute_values_given_kept_with (b64_mean true) 1 3 tenths = Ok c ∧
       (∀ r, length r = 1%nat → c !! r = tenths !! r) ∧
       (∀ kept, canonical 3 kept → (length kept < 1)%nat →
          ∃ items q, items_of 3 c kept = Some items ∧
                     b64_mean true items 3 = Ok q ∧ c !! kept = Some q) ∧
       (∀ r, canonical 3 r → (length r <= 1)%nat → is_Some (c !! r)).
Proof.
  assert (∀ items, length items = Z.to_nat 3 → ∃ q, b64_mean true items 3 = Ok q)
    as Hmean.
  { intros [|first others] Hl; [discriminate Hl|]. unfold b64_mean.
    assert (b64_of_int 3 = Ok (SpecFloat.S754_finite false 6755399441055744 (-51)))
      as -> by (vm_compute; reflexivity).
    eexists. reflexivity. }
  split; [lia|]. split; [exact tenths_total|]. split; [exact Hmean|].
  apply (conditional_values_computed (b64_mean true) 1 3 tenths);
    [lia | exact tenths_total | exact Hmean].
Defined.

(** * The scoring functions (yahtzee.py)

    A roll is a tuple of integers, which the source assumes sorted.
    Indexing an empty tuple raises [IndexError]. *)

(** [sum(roll)] *)
Definition sum_roll (roll : list Z) : Z := foldl Z.add 0 roll.

Definition score_upper_section (roll : list Z) (number : Z) : Z :=
  sum_roll (filter (λ value, value = number) roll).

(** [Counter(roll).most_common(1)[0][1]]: the largest number of equal dice. *)
Definition most_common_count (roll : list Z) : res nat :=
  match roll with
  | [] => Raise (IndexError 0)
  | _ => Ok (foldr Nat.max 0%nat (Counter roll <$> roll))
  end.

Definition score_kind (roll : list Z) (min_count : Z) : res Z :=
  do count <- most_common_count roll;
  if min_count <=? Z.of_nat count then Ok (sum_roll roll) else Ok 0.

Definition score_full_house (roll : list Z) : res Z :=
  match roll with
  | [] => Raise (IndexError 0)
  | min_value :: _ =>
      let max_value := List.last roll min_value in
      if negb (min_value =? max_value) &&
         (bool_decide (roll = [min_value; min_value; min_value; max_value; max_value])
          || bool_decide (roll = [min_value; min_value; max_value; max_value; max_value]))
      then Ok 25 else Ok 0
  end.

Definition score_small_straight (roll : list Z) : Z :=
  let roll : gset Z := list_to_set roll in
  if existsb (λ idx, bool_decide (list_to_set (range idx (idx + 4)) ⊆ roll)) (range 1 4)
  then 30 else 0.

Definition score_large_straight (roll : list Z) : Z :=
  if bool_decide (roll = [1; 2; 3; 4; 5]) || bool_decide (roll = [2; 3; 4; 5; 6])
  then 40 else 0.

Definition score_yahtzee (roll : list Z) : res Z :=
  match roll with
  | [] => Raise (IndexError 0)
  | first :: _ => if first =? List.last roll first then Ok 50 else Ok 0
  end.

Definition score_chance (roll : list Z) : Z := sum_roll roll.

(** ** Sums and counts *)

Lemma sum_roll_from (acc : Z) (roll : list Z) : foldl Z.add acc roll = acc + sum_roll roll.
Proof.
  unfold sum_roll. revert acc. induction roll as [|x roll IH]; intros acc; simpl; [lia|].
  rewrite (IH (acc + x)), (IH (0 + x)). lia.
Qed.

Lemma sum_roll_cons (x : Z) (roll : list Z) : sum_roll (x :: roll) = x + sum_roll roll.
Proof. unfold sum_roll at 1. simpl. apply sum_roll_from. Qed.

Lemma sum_roll_Permutation (roll roll' : list Z) :
  roll ≡ₚ roll' → sum_roll roll = sum_roll roll'.
Proof.
  induction 1 as [|x l l' _ IH|x y l|l l' l'' _ IH1 _ IH2].
  - done.
  - by rewrite !sum_roll_cons, IH.
  - rewrite !sum_roll_cons. lia.
  - by rewrite IH1.
Qed.

(** X15: an upper-section category scores its number once for every die
    that shows it. *)
Theorem score_upper_section_count (roll : list Z) (number : Z) :
  score_upper_section roll number = number * Z.of_nat (Counter roll number).
Proof.
  unfold score_upper_section. induction roll as [|x roll IH].
  - unfold Counter, sum_roll. rewrite !filter_nil. simpl. lia.
  - rewrite Counter_cons, filter_cons. case_decide as Hx.
    + subst x. rewrite sum_roll_cons, IH. lia.
    + done.
Qed.

Lemma max_count_ge (roll l : list Z) (x : Z) :
  x ∈ l → (Counter roll x <= foldr Nat.max 0 (Counter roll <$> l))%nat.
Proof.
  induction l as [|y l IH]; [by intros ?%elem_of_nil|].
  intros [->|Hx]%elem_of_cons; rewrite fmap_cons; simpl foldr; [lia|].
  specialize (IH Hx). lia.
Qed.

Lemma max_count_attained (roll l : list Z) :
  l ≠ [] → ∃ x, x ∈ l ∧ foldr Nat.max 0%nat (Counter roll <$> l) = Counter roll x.
Proof.
  induction l as [|y l IH]; [done|]. intros _.
  rewrite fmap_cons. simpl foldr.
  destruct l as [|z l].
  - exists y. split; [by left|]. rewrite fmap_nil. simpl foldr. lia.
  - destruct IH as (x & Hx & Hmax); [done|].
    destruct (decide (Counter roll y <= foldr Nat.max 0 (Counter roll <$> z :: l))%nat).
    + exists x. split; [by right|]. rewrite <- Hmax. lia.
    + exists y. split; [by left|]. lia.
Qed.

Lemma score_kind_nonempty (roll : list Z) (min_count : Z) :
  roll ≠ [] →
  score_kind roll min_count =
  Ok (if min_count <=? Z.of_nat (foldr Nat.max 0%nat (Counter roll <$> roll))
      then sum_roll roll else 0).
Proof.
  intros Hne. unfold score_kind, most_common_count.
  destruct roll as [|y roll]; [done|]. unfold res_bind.
  by destruct (min_count <=? _).
Qed.

(** X16: on a roll with at least one die, [score_kind] is the sum of the
    dice if some face shows on at least [min_count] dice and 0 otherwise;
    on the empty roll it raises [IndexError]. *)
Theorem score_kind_spec (roll : list Z) (min_count : Z) :
  (roll = [] → score_kind roll min_count = Raise (IndexError 0)) ∧
  (roll ≠ [] → (∃ x, min_count ≤ Z.of_nat (Counter roll x)) →
     score_kind roll min_count = Ok (sum_roll roll)) ∧
  (roll ≠ [] → (∀ x, Z.of_nat (Counter roll x) < min_count) →
     score_kind roll min_count = Ok 0).
Proof.
  split; [by intros ->|]. split.
  - intros Hne (x & Hx). rewrite score_kind_nonempty by done.
    destruct (Z.leb_spec min_count
                (Z.of_nat (foldr Nat.max 0%nat (Counter roll <$> roll))))
      as [|Hlt]; [done|].
    exfalso. destruct (decide (x ∈ roll)) as [Hin|Hnin].
    + pose proof (max_count_ge roll roll x Hin). lia.
    + assert (Counter roll x = 0%nat) as E.
      { destruct (Counter roll x) eqn:E; [done|].
        destruct Hnin. apply Counter_pos. lia. }
      lia.
  - intros Hne Hall. rewrite score_kind_nonempty by done.
    destruct (max_count_attained roll roll Hne) as (x & _ & ->).
    specialize (Hall x).
    destruct (Z.leb_spec min_count (Z.of_nat (Counter roll x))); [lia | done].
Qed.

(** X17: whatever scores with a larger [min_count] scores the same with a
    smaller one: four of a kind is also three of a kind. *)
Theorem score_kind_monotone (roll : list Z) (m m' score : Z) :
  m ≤ m' → score_kind roll m' = Ok score → score ≠ 0 → score_kind roll m = Ok score.
Proof.
  unfold score_kind. destruct (most_common_count roll) as [count|e]; [|done].
  simpl. intros Hm.
  destruct (Z.leb_spec m' (Z.of_nat count)); [|by intros [= <-]].
  intros Hs _. destruct (Z.leb_spec m (Z.of_nat count)); [done | lia].
Qed.

Lemma score_kind_monotone_witness :
  3 ≤ 4 ∧ score_kind [2; 2; 2; 2; 5] 4 = Ok 13 ∧ 13 ≠ 0 ∧
  score_kind [2; 2; 2; 2; 5] 3 = Ok 13.
Proof.
  split; [lia|]. split; [reflexivity|]. split; [lia|].
  apply (score_kind_monotone [2; 2; 2; 2; 5] 3 4 13); [lia | reflexivity | lia].
Defined.

Lemma score_kind_spec_witness :
  score_kind [] 3 = Raise (IndexError 0) ∧
  score_kind [1; 4; 4; 4; 6] 3 = Ok 19 ∧
  score_kind [1; 2; 4; 4; 6] 3 = Ok 0.
Proof.
  destruct (score_kind_spec [] 3) as (H1 & _).
  destruct (score_kind_spec [1; 4; 4; 4; 6] 3) as (_ & H2 & _).
  destruct (score_kind_spec [1; 2; 4; 4; 6] 3) as (_ & _ & H3).
  split; [by apply H1|]. split.
  - apply H2; [done|]. exists 4. vm_compute. by intros [=].
  - apply H3; [done|]. intros x. rewrite !Counter_cons. unfold Counter.
    rewrite filter_nil. simpl length. repeat case_decide; lia.
Defined.

(** ** Full house, straights and yahtzee *)

Lemma Sorted_two_blocks (a b : Z) (n m : nat) :
  a ≤ b → Sorted Z.le (replicate n a ++ replicate m b).
Proof.
  intros Hab. apply StronglySorted_Sorted.
  induction n as [|n IH]; simpl.
  - induction m as [|m IH]; simpl; constructor; [done|].
    apply Forall_forall. intros x ->%elem_of_replicate_inv. lia.
  - constructor; [done|]. apply Forall_forall. intros x.
    intros [->%elem_of_replicate_inv | ->%elem_of_replicate_inv]%elem_of_app; lia.
Qed.

Lemma Counter_replicate (a v : Z) (n : nat) :
  Counter (replicate n a) v = if decide (a = v) then n else 0%nat.
Proof.
  induction n as [|n IH]; simpl.
  - unfold Counter. rewrite filter_nil. simpl. by case_decide.
  - rewrite Counter_cons, IH. by case_decide.
Qed.

Lemma Counter_app (l1 l2 : list Z) (v : Z) :
  Counter (l1 ++ l2) v = (Counter l1 v + Counter l2 v)%nat.
Proof. unfold Counter. by rewrite filter_app, length_app. Qed.

Lemma Counter_length (roll : list Z) (v : Z) : (Counter roll v <= length roll)%nat.
Proof. unfold Counter. apply length_filter. Qed.

(** A roll whose dice show [a] on [n] dice and [b] on the [m] others is,
    once sorted, a block of the smaller face followed by a block of the
    larger one. *)
Lemma two_faces_sorted (roll : list Z) (a b : Z) (n m : nat) :
  Sorted Z.le roll → a < b → length roll = (n + m)%nat →
  Counter roll a = n → Counter roll b = m →
  roll = replicate n a ++ replicate m b.
Proof.
  intros Hs Hab Hlen Ha Hb. symmetry.
  apply Sorted_le_unique; [apply Sorted_two_blocks; lia | done |].
  apply submseteq_length_Permutation.
  - apply submseteq_Counter. intros v.
    rewrite Counter_app, !Counter_replicate. repeat case_decide; subst; lia.
  - rewrite length_app, !length_replicate. lia.
Qed.

(** X18: on a sorted roll, [score_full_house] gives 25 exactly when the
    roll has five dice, three showing one face and two showing another. *)
Theorem score_full_house_spec (roll : list Z) :
  Sorted Z.le roll →
  (score_full_house roll = Ok 25 ↔
   length roll = 5%nat ∧
   ∃ a b, a ≠ b ∧ Counter roll a = 3%nat ∧ Counter roll b = 2%nat).
Proof.
  intros Hs. split.
  - unfold score_full_house. destruct roll as [|lo rest]; [done|].
    set (hi := List.last (lo :: rest) lo).
    destruct (negb (lo =? hi) && _) eqn:E; [|by intros [=]].
    intros _. apply andb_true_iff in E as [Hne E].
    apply negb_true_iff, Z.eqb_neq in Hne.
    apply orb_true_iff in E as [E|E]; apply bool_decide_eq_true in E; rewrite E.
    + split; [done|]. exists lo, hi. split; [done|].
      rewrite !Counter_cons. unfold Counter. rewrite filter_nil. simpl length.
      repeat case_decide; done.
    + split; [done|]. exists hi, lo. split; [done|].
      rewrite !Counter_cons. unfold Counter. rewrite filter_nil. simpl length.
      repeat case_decide; done.
  - intros (Hlen & a & b & Hab & Ha & Hb).
    destruct (Z.lt_total a b) as [Hlt | [-> | Hlt]]; [|done|].
    + rewrite (two_faces_sorted roll a b 3 2) by done. simpl.
      unfold score_full_house. simpl List.last.
      rewrite (proj2 (Z.eqb_neq a b)) by done.
      by rewrite bool_decide_eq_true_2.
    + rewrite (two_faces_sorted roll b a 2 3) by done. simpl.
      unfold score_full_house. simpl List.last.
      rewrite (proj2 (Z.eqb_neq b a)) by done.
      rewrite (bool_decide_eq_true_2 ([b; b; a; a; a] = [b; b; a; a; a])) by done.
      by rewrite orb_true_r.
Qed.

Lemma score_full_house_spec_witness :
  Sorted Z.le [2; 2; 5; 5; 5] ∧ score_full_house [2; 2; 5; 5; 5] = Ok 25.
Proof.
  assert (Sorted Z.le [2; 2; 5; 5; 5]) as Hs.
  { repeat constructor; lia. }
  split; [done|]. apply (score_full_house_spec [2; 2; 5; 5; 5] Hs).
  split; [done|]. exists 5, 2. by vm_compute.
Defined.

Lemma last_elem_of (d : Z) (l : list Z) : l ≠ [] → List.last l d ∈ l.
Proof.
  revert d. induction l as [|x l IH]; intros d; [done|]. intros _.
  rewrite last_cons_head. destruct l as [|y l]; [by left|].
  right. by apply IH.
Qed.

Lemma StronglySorted_le_last (d : Z) (l : list Z) (y : Z) :
  StronglySorted Z.le l → y ∈ l → y ≤ List.last l d.
Proof.
  revert d. induction l as [|x l IH]; intros d Hs; [by intros ?%elem_of_nil|].
  apply StronglySorted_inv in Hs as [Hs Hall]. rewrite last_cons_head.
  destruct l as [|z l].
  - intros ->%list_elem_of_singleton. simpl. lia.
  - intros [->|Hy]%elem_of_cons; [|by apply IH].
    rewrite Forall_forall in Hall. apply Hall. by apply last_elem_of.
Qed.

(** In a sorted roll whose first and last dice are equal, all dice are. *)
Lemma Sorted_head_last (x d : Z) (roll : list Z) :
  Sorted Z.le (x :: roll) → x = List.last (x :: roll) d →
  roll = replicate (length roll) x.
Proof.
  intros Hs%Sorted_StronglySorted Hlast; [|intros ? ? ?; lia].
  symmetry. apply replicate_as_Forall. split; [done|].
  apply Forall_forall. intros y Hy.
  pose proof (StronglySorted_le_last d (x :: roll) y Hs) as Hle.
  apply StronglySorted_inv in Hs as [_ Hall]. rewrite Forall_forall in Hall.
  specialize (Hall y Hy). rewrite <- Hlast in Hle.
  assert (y ≤ x) by (apply Hle; by right). lia.
Qed.

(** X19: on a sorted roll with at least one die, [score_yahtzee] gives 50
    if all dice show the same face and 0 otherwise; on the empty roll it
    raises [IndexError]. *)
Theorem score_yahtzee_spec (roll : list Z) :
  Sorted Z.le roll →
  (roll = [] → score_yahtzee roll = Raise (IndexError 0)) ∧
  (roll ≠ [] → (∃ a, roll = replicate (length roll) a) → score_yahtzee roll = Ok 50) ∧
  (roll ≠ [] → ¬ (∃ a, roll = replicate (length roll) a) → score_yahtzee roll = Ok 0).
Proof.
  intros Hs. split; [by intros ->|].
  destruct roll as [|x roll]; [done|]. unfold score_yahtzee.
  destruct (Z.eqb_spec x (List.last (x :: roll) x)) as [Heq|Hneq].
  - split; [done|]. intros _ Hnot. destruct Hnot. exists x. simpl. f_equal.
    by apply (Sorted_head_last x x).
  - split; [|done]. intros _ (a & Ha). destruct Hneq.
    simpl in Ha. injection Ha as <- Hroll. rewrite last_cons_head, Hroll.
    generalize (length roll). intros n. clear.
    induction n as [|n IH]; [done|]. simpl replicate. by rewrite last_cons_head.
Qed.

Lemma score_yahtzee_spec_witness :
  Sorted Z.le [3; 3; 3; 3; 3] ∧ score_yahtzee [3; 3; 3; 3; 3] = Ok 50 ∧
  Sorted Z.le [3; 3; 3; 3; 4] ∧ score_yahtzee [3; 3; 3; 3; 4] = Ok 0.
Proof.
  assert (Sorted Z.le [3; 3; 3; 3; 3]) as Hs1 by (repeat constructor; lia).
  assert (Sorted Z.le [3; 3; 3; 3; 4]) as Hs2 by (repeat constructor; lia).
  split; [done|]. split.
  - destruct (score_yahtzee_spec [3; 3; 3; 3; 3] Hs1) as (_ & H & _).
    apply H; [done|]. by exists 3.
  - split; [done|].
    destruct (score_yahtzee_spec [3; 3; 3; 3; 4] Hs2) as (_ & _ & H).
    apply H; [done|]. intros (a & Ha). simpl in Ha. congruence.
Defined.

(** ** Order of the dice *)

Lemma foldr_max_Permutation (l l' : list nat) :
  l ≡ₚ l' → foldr Nat.max 0%nat l = foldr Nat.max 0%nat l'.
Proof.
  induction 1 as [|x l l' _ IH|x y l|l l' l'' _ IH1 _ IH2]; simpl; lia.
Qed.

Lemma most_common_count_Permutation (roll roll' : list Z) :
  roll ≡ₚ roll' → most_common_count roll = most_common_count roll'.
Proof.
  intros Hp. unfold most_common_count.
  destruct roll as [|x roll], roll' as [|x' roll'].
  - done.
  - by apply Permutation_nil_l in Hp.
  - by apply Permutation_nil_r in Hp.
  - f_equal. rewrite (foldr_max_Permutation _ (Counter (x :: roll) <$> x' :: roll')).
    + f_equal. apply list_fmap_ext. intros _ v _. by apply Counter_Permutation.
    + by apply fmap_Permutation.
Qed.

(** X20: the upper-section, n-of-a-kind, small-straight and chance scores
    do not depend on the order of the dice. *)
Theorem scores_order_insensitive (roll roll' : list Z) (number min_count : Z) :
  roll ≡ₚ roll' →
  score_upper_section roll number = score_upper_section roll' number ∧
  score_kind roll min_count = score_kind roll' min_count ∧
  score_small_straight roll = score_small_straight roll' ∧
  score_chance roll = score_chance roll'.
Proof.
  intros Hp. split; [|split; [|split]].
  - unfold score_upper_section. apply sum_roll_Permutation. by rewrite Hp.
  - unfold score_kind.
    by rewrite (most_common_count_Permutation roll roll'), (sum_roll_Permutation roll roll').
  - unfold score_small_straight.
    assert (list_to_set roll = (list_to_set roll' : gset Z)) as ->; [|done].
    apply set_eq. intros x. by rewrite !elem_of_list_to_set, Hp.
  - by apply sum_roll_Permutation.
Qed.

Lemma scores_order_insensitive_witness :
  [6; 3; 4; 3; 5] ≡ₚ [3; 3; 4; 5; 6] ∧
  score_small_straight [6; 3; 4; 3; 5] = score_small_straight [3; 3; 4; 5; 6].
Proof.
  assert ([6; 3; 4; 3; 5] ≡ₚ [3; 3; 4; 5; 6]) as Hp.
  { assert (sorted [6; 3; 4; 3; 5] = [3; 3; 4; 5; 6]) as <- by reflexivity.
    symmetry. apply sorted_Permutation. }
  split; [done|]. apply (scores_order_insensitive _ _ 0 0 Hp).
Defined.

(** X21: a roll that scores as a large straight also scores as a small
    straight, and scores nothing as three of a kind, full house or
    yahtzee. *)
Theorem large_straight_scores (roll : list Z) :
  score_large_straight roll = 40 →
  score_small_straight roll = 30 ∧
  score_kind roll 3 = Ok 0 ∧
  score_full_house roll = Ok 0 ∧
  score_yahtzee roll = Ok 0.
Proof.
  unfold score_large_straight.
  destruct (bool_decide (roll = [1; 2; 3; 4; 5])) eqn:E1.
  { apply bool_decide_eq_true in E1 as ->. intros _. by vm_compute. }
  destruct (bool_decide (roll = [2; 3; 4; 5; 6])) eqn:E2; [|done].
  apply bool_decide_eq_true in E2 as ->. intros _. by vm_compute.
Qed.

Lemma large_straight_scores_witness :
  score_large_straight [2; 3; 4; 5; 6] = 40 ∧ score_small_straight [2; 3; 4; 5; 6] = 30.
Proof.
  split; [reflexivity|]. apply (large_straight_scores [2; 3; 4; 5; 6]). reflexivity.
Defined.

(** X22: a roll that scores as a full house scores its sum as three of a
    kind, and nothing as four of a kind or as yahtzee. *)
Theorem full_house_scores (roll : list Z) :
  score_full_house roll = Ok 25 →
  score_kind roll 3 = Ok (sum_roll roll) ∧
  score_kind roll 4 = Ok 0 ∧
  score_yahtzee roll = Ok 0.
Proof.
  unfold score_full_house. destruct roll as [|lo rest]; [done|].
  set (hi := List.last (lo :: rest) lo).
  destruct (negb (lo =? hi) && _) eqn:E; [|by intros [=]].
  intros _. apply andb_true_iff in E as [Hne E].
  apply negb_true_iff, Z.eqb_neq in Hne.
  assert (score_yahtzee (lo :: rest) = Ok 0) as Hy.
  { unfold score_yahtzee. fold hi. by rewrite (proj2 (Z.eqb_neq lo hi)). }
  split; [|split; [|done]].
  - apply orb_true_iff in E as [E|E]; apply bool_decide_eq_true in E; rewrite E;
      rewrite score_kind_nonempty by done; rewrite !fmap_cons, fmap_nil;
      rewrite !Counter_cons; unfold Counter; rewrite filter_nil; simpl length;
      repeat case_decide; try congruence; done.
  - apply orb_true_iff in E as [E|E]; apply bool_decide_eq_true in E; rewrite E;
      rewrite score_kind_nonempty by done; rewrite !fmap_cons, fmap_nil;
      rewrite !Counter_cons; unfold Counter; rewrite filter_nil; simpl length;
      repeat case_decide; try congruence; done.
Qed.

Lemma full_house_scores_witness :
  score_full_house [2; 2; 5; 5; 5] = Ok 25 ∧ score_kind [2; 2; 5; 5; 5] 3 = Ok 19.
Proof.
  split; [reflexivity|]. apply (full_house_scores [2; 2; 5; 5; 5]). reflexivity.
Defined.

(** ** The table of scoring functions

    [score_functions] maps a category name to a function object.  Its six
    upper-section entries are lambdas created by a dict comprehension; the
    body of each refers to the comprehension's variable [value], which is
    one cell shared by all six and read when the lambda is called.  Function
    objects are modelled with their free variable explicit: a [Lambda]
    holds the reference of the cell it reads, a [Def] has no free
    variable. *)

Inductive function : Type :=
  | Lambda (cell : nat) (body : Z → list Z → res Z)
  | Def (body : list Z → res Z).

(** [f(roll)], with the cells as they are at the time of the call. *)
Definition call (cells : list Z) (f : function) (roll : list Z) : res Z :=
  match f with
  | Lambda cell body =>
      match cells !! cell with
      | Some value => body value roll
      | None => Raise (IndexError cell)
      end
  | Def body => body roll
  end.

(** [enumerate(l, start)] *)
Definition enumerate {A : Type} (l : list A) (start : Z) : list (Z * A) :=
  zip (seqZ start (Z.of_nat (length l))) l.

(** [{name: lambda roll: score_upper_section(roll, value) for value, name in
    enumerate([...], 1)}]: every turn of the loop assigns [value], the
    variable of cell 0, and adds a lambda that refers to that cell. *)
Definition upper_section_functions : gmap string function * list Z :=
  foldl (λ '(d, cells) '(value, name),
           (<[name := Lambda 0 (λ value roll, Ok (score_upper_section roll value))]> d,
            <[0%nat := value]> cells))
        (∅, [0])
        (enumerate ["ones"; "twos"; "threes"; "fours"; "fives"; "sixes"]%string 1).

(** The module's table after [score_functions.update({...})], with the
    cells its lambdas refer to. *)
Definition score_functions : gmap string function * list Z :=
  let '(d, cells) := upper_section_functions in
  (<["chance" := Def (λ roll, Ok (score_chance roll))]> (
   <["yahtzee" := Def score_yahtzee]> (
   <["large straight" := Def (λ roll, Ok (score_large_straight roll))]> (
   <["small straight" := Def (λ roll, Ok (score_small_straight roll))]> (
   <["full house" := Def score_full_house]> (
   <["four of a kind" := Def (λ roll, score_kind roll 4)]> (
   <["three of a kind" := Def (λ roll, score_kind roll 3)]> d)))))),
   cells)%string.

(** [score_functions[name](roll)]; [None] stands for the [KeyError] of a
    name that is not in the table. *)
Definition score (name : string) (roll : list Z) : option (res Z) :=
  f ← score_functions.1 !! name; Some (call score_functions.2 f roll).

(** X23: each of the six upper-section entries of [score_functions], from
    "ones" to "sixes", scores the sixes of the roll: the lambdas share the
    comprehension's variable, which holds 6 when they are called. *)
Theorem upper_section_entries_score_sixes (name : string) (roll : list Z) :
  name ∈ ["ones"; "twos"; "threes"; "fours"; "fives"; "sixes"]%string →
  score name roll = Some (Ok (score_upper_section roll 6)).
Proof.
  intros Hname. repeat (apply elem_of_cons in Hname as [->|Hname]; [done|]).
  by apply elem_of_nil in Hname.
Qed.

Lemma upper_section_entries_score_sixes_witness :
  score "ones" [1; 1; 1; 2; 6] = Some (Ok 6).
Proof.
  apply (upper_section_entries_score_sixes "ones" [1; 1; 1; 2; 6]). by left.
Defined.

(** * The upper-section score table (yahtzee.py, YahtzeeOptimizer)

    The methods of [YahtzeeOptimizer] use numpy and raise exceptions of
    their own; these are the [inl] results of [attempt].  The elements of
    an integer numpy array are 64-bit: a Python integer that does not fit
    raises [OverflowError], and array arithmetic wraps around.

    [IntTooLarge] is that [OverflowError], [BadIndex] the [IndexError] of
    an array, [TupleIndexError] the [IndexError] of a tuple and
    [MissingKey] the [KeyError] of the table. *)

Inductive error : Type :=
  | ValueError
  | IntTooLarge
  | BadIndex (index : Z) (size : Z)
  | TupleIndexError
  | MissingKey (key : list bool).

Definition attempt (A : Type) : Type := (error + A)%type.

Definition attempt_bind {A B : Type} (m : attempt A) (k : A → attempt B) : attempt B :=
  match m with
  | inr a => k a
  | inl e => inl e
  end.

Notation "'run' x <- m ; k" := (attempt_bind m (λ x, k))
  (at level 10, x pattern, m at level 100, k at level 200).

Fixpoint attempt_each {A S : Type} (xs : list A) (body : A → S → attempt S) (s : S)
  : attempt S :=
  match xs with
  | [] => inr s
  | x :: xs' => run s' <- body x s; attempt_each xs' body s'
  end.

Definition int64 (z : Z) : bool := (- 2 ^ 63 <=? z) && (z <? 2 ^ 63).

Definition wrap64 (z : Z) : Z := (z + 2 ^ 63) mod 2 ^ 64 - 2 ^ 63.

(** [a[index]] for an array of [size] elements: the position that a
    possibly negative index denotes. *)
Definition np_position (size : Z) (index : Z) : attempt nat :=
  if (0 <=? index) && (index <? size) then inr (Z.to_nat index)
  else if (- size <=? index) && (index <? 0) then inr (Z.to_nat (size + index))
  else inl (BadIndex index size).

(** [np.array(inds, dtype=int) - lo] *)
Definition np_offsets (inds : list Z) (lo : Z) : attempt (list Z) :=
  if forallb int64 inds then
    if int64 lo then inr ((λ ind, wrap64 (ind - lo)) <$> inds)
    else inl IntTooLarge
  else inl IntTooLarge.

Fixpoint np_positions (size : Z) (indices : list Z) : attempt (list nat) :=
  match indices with
  | [] => inr []
  | index :: indices' =>
      run position <- np_position size index;
      run positions <- np_positions size indices';
      inr (position :: positions)
  end.

(** [np.zeros] refuses with [ValueError] a size that is negative and a
    size that does not fit a signed 64-bit integer.  A size that is too large
    for the memory of the machine raises [MemoryError]; this depends on the
    machine and is not modelled: the results about the vector returned are
    stated for the limits 1 and 7 with which the class calls the method. *)
Definition _to_bit_vector (inds : list Z) (lo hi : Z) : attempt (list bool) :=
  if hi - lo <? 0 then inl ValueError
  else if 2 ^ 63 <=? hi - lo then inl ValueError
  else
    let bit_vector := replicate (Z.to_nat (hi - lo)) false in
    run indices <- np_offsets inds lo;
    run positions <- np_positions (hi - lo) indices;
    inr (foldl (λ bit_vector position, <[position := true]> bit_vector) bit_vector positions).

(** [itertools.combinations(pool, r)] *)
Fixpoint combinations {A : Type} (pool : list A) (r : nat) : list (list A) :=
  match r, pool with
  | O, _ => [[]]
  | S _, [] => []
  | S r', x :: pool' => ((x ::.) <$> combinations pool' r') ++ combinations pool' r
  end.

(** [range(start, stop, step)] *)
Definition range_step (start stop step : Z) : attempt (list Z) :=
  if step =? 0 then inl ValueError
  else if 0 <? step then
    inr ((λ k, start + k * step) <$> seqZ 0 ((stop - start + step - 1) / step))
  else
    inr ((λ k, start + k * step) <$> seqZ 0 ((start - stop - step - 1) / (- step))).

(** An entry of the table: a set of scores, or the tuple [(min, max + 1)]
    that denotes a range. *)
Inductive Scores : Type :=
  | ScoreRange (lo hi : Z)
  | ScoreSet (scores : gset Z).

(** [min(scores)], [max(scores)] *)
Definition set_min (scores : gset Z) : attempt Z :=
  match elements scores with
  | [] => inl ValueError
  | score :: rest => inr (foldr Z.min score rest)
  end.

Definition set_max (scores : gset Z) : attempt Z :=
  match elements scores with
  | [] => inl ValueError
  | score :: rest => inr (foldr Z.max score rest)
  end.

(** [filled[0]] *)
Definition first (filled : list Z) : attempt Z :=
  match filled with
  | [] => inl TupleIndexError
  | face :: _ => inr face
  end.

(** [possible_scores[key]] *)
Definition lookup_scores (possible_scores : gmap (list bool) Scores) (key : list bool)
  : attempt Scores :=
  match possible_scores !! key with
  | Some scores => inr scores
  | None => inl (MissingKey key)
  end.

(** One element of the generator inside [set().union(...)], added to the
    union. *)
Definition add_scores (max_score : Z) (filled : list Z) (prev_score : Z) (scores : gset Z)
  : attempt (gset Z) :=
  if prev_score <? max_score then
    run face <- first filled;
    run more <- range_step prev_score (prev_score + face * 6) face;
    inr (scores ∪ list_to_set more)
  else inr (scores ∪ list_to_set [max_score]).

(** The body of the inner loop. *)
Definition fill_entry (max_score : Z) (filled : list Z)
    (possible_scores : gmap (list bool) Scores) : attempt (gmap (list bool) Scores) :=
  run prev_key <- _to_bit_vector (tail filled) 1 7;
  run prev_scores <- lookup_scores possible_scores prev_key;
  let prev_scores :=
    match prev_scores with
    | ScoreRange lo hi => range lo hi
    | ScoreSet scores => elements scores
    end in
  run scores <- attempt_each prev_scores (add_scores max_score filled) ∅;
  let scores : gset Z := set_map (λ score, Z.min score max_score) scores in
  run lo <- set_min scores;
  run hi <- set_max scores;
  let scores :=
    if Z.of_nat (size scores) =? hi - lo + 1 then ScoreRange lo (hi + 1)
    else ScoreSet scores in
  run key <- _to_bit_vector filled 1 7;
  inr (<[key := scores]> possible_scores).

Definition compute_possible_upper_section_scores : attempt (gmap (list bool) Scores) :=
  let max_score := 63 in
  let possible_scores : gmap (list bool) Scores := {[ replicate 6 false := ScoreRange 0 1 ]} in
  run possible_scores <-
    attempt_each (range 1 6) (λ num_filled possible_scores,
      attempt_each (combinations (range 1 7) (Z.to_nat num_filled))
        (fill_entry max_score) possible_scores) possible_scores;
  inr (<[replicate 6 true := ScoreRange 0 1]> possible_scores).

(** ** Bit vectors *)

Definition in_bounds (size index : Z) : Prop := - size ≤ index < size.

(** The position that an index within bounds denotes. *)
Definition position_of (size index : Z) : nat :=
  Z.to_nat (if 0 <=? index then index else size + index).

Lemma np_position_in_bounds (size index : Z) :
  in_bounds size index → np_position size index = inr (position_of size index).
Proof.
  unfold in_bounds, np_position, position_of. intros H.
  destruct (Z.leb_spec 0 index); simpl.
  - by rewrite (proj2 (Z.ltb_lt index size)) by lia.
  - rewrite (proj2 (Z.leb_le (- size) index)), (proj2 (Z.ltb_lt index 0)) by lia. done.
Qed.

Lemma np_position_out_of_bounds (size index : Z) :
  ¬ in_bounds size index → np_position size index = inl (BadIndex index size).
Proof.
  unfold in_bounds, np_position. intros H.
  destruct (Z.leb_spec 0 index), (Z.ltb_spec index size),
    (Z.leb_spec (- size) index), (Z.ltb_spec index 0); simpl; try done; lia.
Qed.

Lemma np_positions_in_bounds (size : Z) (indices : list Z) :
  Forall (in_bounds size) indices →
  np_positions size indices = inr (position_of size <$> indices).
Proof.
  induction 1 as [|index indices Hi _ IH]; [done|]. simpl.
  by rewrite np_position_in_bounds, IH.
Qed.

Lemma np_positions_out_of_bounds (size : Z) (indices : list Z) :
  ¬ Forall (in_bounds size) indices →
  ∃ index, index ∈ indices ∧ ¬ in_bounds size index ∧
           np_positions size indices = inl (BadIndex index size).
Proof.
  induction indices as [|index indices IH]; [by intros []|]. intros Hnot.
  destruct (decide (in_bounds size index)) as [Hin|Hout].
  - destruct IH as (i & Hi & Hbad & E).
    { intros Hall. apply Hnot. by constructor. }
    exists i. split; [by right|]. split; [done|]. simpl.
    by rewrite np_position_in_bounds, E.
  - exists index. split; [by left|]. split; [done|]. simpl.
    by rewrite np_position_out_of_bounds.
Qed.

Lemma set_bits_length (bit_vector : list bool) (positions : list nat) :
  length (foldl (λ bit_vector position, <[position := true]> bit_vector)
            bit_vector positions) = length bit_vector.
Proof.
  revert bit_vector. induction positions as [|p positions IH]; intros bv; [done|].
  simpl. by rewrite IH, length_insert.
Qed.

Lemma set_bits_lookup (bit_vector : list bool) (positions : list nat) (j : nat) :
  (j < length bit_vector)%nat →
  foldl (λ bit_vector position, <[position := true]> bit_vector) bit_vector positions !! j
  = if decide (j ∈ positions) then Some true else bit_vector !! j.
Proof.
  revert bit_vector. induction positions as [|p positions IH]; intros bv Hj.
  - rewrite decide_False; [done | by intros ?%elem_of_nil].
  - simpl. rewrite IH by (by rewrite length_insert).
    destruct (decide (j ∈ positions)) as [Hin|Hnin].
    + rewrite decide_True; [done | by right].
    + destruct (decide (j = p)) as [->|Hne].
      * rewrite decide_True by (by left). by rewrite list_lookup_insert_eq.
      * rewrite decide_False.
        -- by rewrite list_lookup_insert_ne.
        -- intros [?|?]%elem_of_cons; done.
Qed.

Lemma wrap64_small (z : Z) : - 2 ^ 63 ≤ z < 2 ^ 63 → wrap64 z = z.
Proof. intros H. unfold wrap64. rewrite Z.mod_small; lia. Qed.

Lemma np_offsets_small (inds : list Z) (lo size : Z) :
  int64 lo = true → Forall (λ ind, int64 ind = true) inds → size < 2 ^ 63 →
  Forall (λ ind, - 2 ^ 63 ≤ ind - lo < 2 ^ 63) inds →
  np_offsets inds lo = inr ((λ ind, ind - lo) <$> inds).
Proof.
  intros Hlo Hinds Hsize Hall. unfold np_offsets.
  rewrite (proj2 (forallb_forall int64 inds)), Hlo.
  - f_equal. apply list_fmap_ext. intros i ind Hind.
    apply wrap64_small. rewrite Forall_forall in Hall.
    apply Hall. by apply list_elem_of_lookup_2 in Hind.
  - intros ind Hind. rewrite Forall_forall in Hinds. apply Hinds.
    by apply list_elem_of_In.
Qed.

(** The bits of a vector whose indices are all within bounds: bit [j] is
    set when [lo + j] is an index, or when the index [lo + j - size] is,
    which numpy counts from the end of the array. *)
Lemma to_bit_vector_bits (inds : list Z) (lo hi : Z) :
  int64 lo = true → Forall (λ ind, int64 ind = true) inds →
  0 ≤ hi - lo < 2 ^ 63 →
  Forall (λ ind, lo - (hi - lo) ≤ ind < hi) inds →
  ∃ bit_vector,
    _to_bit_vector inds lo hi = inr bit_vector ∧
    length bit_vector = Z.to_nat (hi - lo) ∧
    ∀ j, 0 ≤ j < hi - lo →
      (bit_vector !! Z.to_nat j = Some true ∧
       (lo + j ∈ inds ∨ lo + j - (hi - lo) ∈ inds)) ∨
      (bit_vector !! Z.to_nat j = Some false ∧
       ¬ (lo + j ∈ inds) ∧ ¬ (lo + j - (hi - lo) ∈ inds)).
Proof.
  intros Hlo Hinds Hsize Hall. unfold _to_bit_vector.
  rewrite (proj2 (Z.ltb_ge (hi - lo) 0)) by lia.
  rewrite (proj2 (Z.leb_gt (2 ^ 63) (hi - lo))) by lia.
  rewrite (np_offsets_small inds lo (hi - lo)); [|done|done|lia|].
  2:{ eapply Forall_impl; [exact Hall|]. simpl. intros ind ?. lia. }
  simpl. rewrite np_positions_in_bounds.
  2:{ apply Forall_fmap. eapply Forall_impl; [exact Hall|].
      intros ind H. simpl in H. unfold in_bounds, compose. lia. }
  simpl. eexists. split; [done|].
  split; [by rewrite set_bits_length, length_replicate|].
  intros j Hj. rewrite set_bits_lookup by (rewrite length_replicate; lia).
  rewrite Forall_forall in Hall.
  case_decide as Hin.
  - left. split; [done|].
    apply list_elem_of_fmap in Hin as (index & Hpos & Hin).
    apply list_elem_of_fmap in Hin as (ind & -> & Hin).
    specialize (Hall ind Hin). unfold position_of in Hpos.
    destruct (Z.leb_spec 0 (ind - lo)).
    + left. by replace (lo + j) with ind by lia.
    + right. by replace (lo + j - (hi - lo)) with ind by lia.
  - right. split.
    { rewrite lookup_replicate_2; [done | lia]. }
    split; intros Hmem; destruct Hin; apply list_elem_of_fmap.
    + exists j. split.
      * unfold position_of. by rewrite (proj2 (Z.leb_le 0 j)) by lia.
      * apply list_elem_of_fmap. exists (lo + j). split; [lia | done].
    + exists (j - (hi - lo)). split.
      * unfold position_of. rewrite (proj2 (Z.leb_gt 0 (j - (hi - lo)))) by lia.
        f_equal. lia.
      * apply list_elem_of_fmap. exists (lo + j - (hi - lo)). split; [lia | done].
Qed.

Lemma int64_between (lo hi ind : Z) :
  int64 lo = true → int64 hi = true → lo ≤ ind < hi → int64 ind = true.
Proof.
  unfold int64. rewrite !andb_true_iff, !Z.leb_le, !Z.ltb_lt. lia.
Qed.

(** With every index in [lo, hi), the result is the characteristic vector
    of the indices. *)
Lemma to_bit_vector_in_range (inds : list Z) (lo hi : Z) :
  int64 lo = true → int64 hi = true → 0 ≤ hi - lo < 2 ^ 63 →
  Forall (λ ind, lo ≤ ind < hi) inds →
  ∃ bit_vector,
    _to_bit_vector inds lo hi = inr bit_vector ∧
    length bit_vector = Z.to_nat (hi - lo) ∧
    ∀ j, 0 ≤ j < hi - lo →
      bit_vector !! Z.to_nat j = Some (bool_decide (lo + j ∈ inds)).
Proof.
  intros Hlo Hhi Hsize Hall.
  destruct (to_bit_vector_bits inds lo hi) as (bv & E & Hlen & Hbits);
    [done| |lia| |].
  { eapply Forall_impl; [exact Hall|]. intros ind H. simpl in H.
    by apply (int64_between lo hi). }
  { eapply Forall_impl; [exact Hall|]. intros ind H. simpl in H. lia. }
  exists bv. split; [done|]. split; [done|]. intros j Hj.
  rewrite Forall_forall in Hall.
  destruct (Hbits j Hj) as [(-> & [Hin|Hin]) | (-> & Hnin & _)].
  - by rewrite bool_decide_eq_true_2.
  - specialize (Hall _ Hin). lia.
  - by rewrite bool_decide_eq_false_2.
Qed.

Lemma np_offsets_int64 (inds : list Z) (lo : Z) :
  int64 lo = true → Forall (λ ind, int64 ind = true) inds →
  np_offsets inds lo = inr ((λ ind, wrap64 (ind - lo)) <$> inds).
Proof.
  intros Hlo Hinds. unfold np_offsets.
  rewrite (proj2 (forallb_forall int64 inds)), Hlo; [done|].
  intros ind Hind. rewrite Forall_forall in Hinds. apply Hinds.
  by apply list_elem_of_In.
Qed.

Lemma np_offsets_overflow (inds : list Z) (lo : Z) :
  ¬ Forall (λ ind, int64 ind = true) inds → np_offsets inds lo = inl IntTooLarge.
Proof.
  intros Hnot. unfold np_offsets.
  destruct (forallb int64 inds) eqn:E; [|done].
  destruct Hnot. apply Forall_forall. intros ind Hind.
  rewrite forallb_forall in E. apply E. by apply list_elem_of_In.
Qed.

Lemma int64_spec (z : Z) : int64 z = true ↔ - 2 ^ 63 ≤ z < 2 ^ 63.
Proof. unfold int64. rewrite andb_true_iff, Z.leb_le, Z.ltb_lt. done. Qed.

(** With the limits 1 and 7, the offset of a 64-bit index is within the
    bounds of the array exactly when the index lies in -5..6. *)
Lemma offset_in_bounds (ind : Z) :
  int64 ind = true → in_bounds 6 (wrap64 (ind - 1)) ↔ -5 ≤ ind ≤ 6.
Proof.
  intros Hind%int64_spec. unfold in_bounds.
  destruct (decide (ind = - 2 ^ 63)) as [->|Hne].
  - assert (wrap64 (- 2 ^ 63 - 1) = 2 ^ 63 - 1) as -> by (vm_compute; reflexivity). lia.
  - rewrite wrap64_small by lia. lia.
Qed.

(** X24: called as the class calls it, with the limits 1 and 7, on a tuple
    whose elements all lie in 1..6, [_to_bit_vector] raises nothing and
    returns six booleans, of which the one at position [j] tells whether
    [j + 1] is in the tuple. *)
Theorem to_bit_vector_characteristic (inds : list Z) :
  Forall (λ ind, 1 ≤ ind ≤ 6) inds →
  ∃ bit_vector,
    _to_bit_vector inds 1 7 = inr bit_vector ∧
    length bit_vector = 6%nat ∧
    ∀ j, 0 ≤ j < 6 → bit_vector !! Z.to_nat j = Some (bool_decide (1 + j ∈ inds)).
Proof.
  intros Hall. apply (to_bit_vector_in_range inds 1 7); [done | done | lia |].
  eapply Forall_impl; [exact Hall|]. intros ind H. simpl in H. lia.
Qed.

Lemma to_bit_vector_characteristic_witness :
  ∃ bit_vector,
    _to_bit_vector [2; 5] 1 7 = inr bit_vector ∧
    length bit_vector = 6%nat ∧
    ∀ j, 0 ≤ j < 6 → bit_vector !! Z.to_nat j = Some (bool_decide (1 + j ∈ [2; 5])).
Proof.
  apply (to_bit_vector_characteristic [2; 5]). repeat constructor; lia.
Defined.

(** X25: called with the limits 1 and 7 on two tuples whose elements all
    lie in 1..6, [_to_bit_vector] returns the same bit vector exactly when
    the tuples have the same elements, whatever their order and
    repetitions. *)
Theorem to_bit_vector_injective (inds inds' : list Z) :
  Forall (λ ind, 1 ≤ ind ≤ 6) inds → Forall (λ ind, 1 ≤ ind ≤ 6) inds' →
  (_to_bit_vector inds 1 7 = _to_bit_vector inds' 1 7 ↔
   ∀ ind, ind ∈ inds ↔ ind ∈ inds').
Proof.
  intros Hall Hall'.
  destruct (to_bit_vector_in_range inds 1 7) as (bv & E & Hlen & Hbits);
    [done | done | lia | |].
  { eapply Forall_impl; [exact Hall|]. intros ind H. simpl in H. lia. }
  destruct (to_bit_vector_in_range inds' 1 7) as (bv' & E' & Hlen' & Hbits');
    [done | done | lia | |].
  { eapply Forall_impl; [exact Hall'|]. intros ind H. simpl in H. lia. }
  rewrite E, E'. rewrite Forall_forall in Hall, Hall'. split.
  - intros [= <-] ind. split; intros Hin.
    + specialize (Hall ind Hin).
      pose proof (Hbits (ind - 1)) as Hb. pose proof (Hbits' (ind - 1)) as Hb'.
      rewrite Hb in Hb' by lia. replace (1 + (ind - 1)) with ind in Hb' by lia.
      rewrite bool_decide_eq_true_2 in Hb' by done.
      assert (Some true = Some (bool_decide (ind ∈ inds'))) as [= Ht] by (apply Hb'; lia).
      symmetry in Ht. by apply bool_decide_eq_true in Ht.
    + specialize (Hall' ind Hin).
      pose proof (Hbits (ind - 1)) as Hb. pose proof (Hbits' (ind - 1)) as Hb'.
      rewrite Hb' in Hb by lia. replace (1 + (ind - 1)) with ind in Hb by lia.
      rewrite bool_decide_eq_true_2 in Hb by done.
      assert (Some true = Some (bool_decide (ind ∈ inds))) as [= Ht] by (apply Hb; lia).
      symmetry in Ht. by apply bool_decide_eq_true in Ht.
  - intros Hsame. f_equal. apply list_eq. intros n.
    destruct (decide (n < 6)%nat) as [Hn|Hn].
    + specialize (Hbits (Z.of_nat n)). specialize (Hbits' (Z.of_nat n)).
      rewrite Nat2Z.id in Hbits, Hbits'. rewrite Hbits, Hbits' by lia.
      f_equal. apply bool_decide_ext, Hsame.
    + rewrite !lookup_ge_None_2; [done | | ]; simpl in *; lia.
Qed.

Lemma to_bit_vector_injective_witness :
  _to_bit_vector [2; 5] 1 7 = _to_bit_vector [5; 2; 5] 1 7.
Proof.
  apply (to_bit_vector_injective [2; 5] [5; 2; 5]);
    [repeat constructor; lia | repeat constructor; lia |].
  intros ind. rewrite !elem_of_cons. pose proof (elem_of_nil ind). tauto.
Defined.

(** X26: [_to_bit_vector] raises [ValueError] whenever [hi < lo].  Called
    with the limits 1 and 7: an index that does not fit a signed 64-bit
    integer raises [OverflowError]; with 64-bit indices, one outside -5..6
    raises the index error; and an index in -5..0 is not rejected: it
    counts from the end of the array and gives the same vector as that
    index plus 6. *)
Theorem to_bit_vector_bounds (inds : list Z) :
  (∀ lo hi, hi < lo → _to_bit_vector inds lo hi = inl ValueError) ∧
  (¬ Forall (λ ind, int64 ind = true) inds →
   _to_bit_vector inds 1 7 = inl IntTooLarge) ∧
  (Forall (λ ind, int64 ind = true) inds → ¬ Forall (λ ind, -5 ≤ ind ≤ 6) inds →
   ∃ ind, ind ∈ inds ∧ ¬ (-5 ≤ ind ≤ 6) ∧
          _to_bit_vector inds 1 7 = inl (BadIndex (wrap64 (ind - 1)) 6)) ∧
  (∀ ind, Forall (λ ind, int64 ind = true) inds → -5 ≤ ind ≤ 0 →
          _to_bit_vector (ind :: inds) 1 7 = _to_bit_vector (ind + 6 :: inds) 1 7).
Proof.
  split; [|split; [|split]].
  - intros lo hi Hlt. unfold _to_bit_vector.
    by rewrite (proj2 (Z.ltb_lt (hi - lo) 0)) by lia.
  - intros Hnot. unfold _to_bit_vector.
    change (7 - 1 <? 0) with false. change (2 ^ 63 <=? 7 - 1) with false. cbv iota.
    by rewrite np_offsets_overflow.
  - intros Hinds Hnot. unfold _to_bit_vector.
    change (7 - 1 <? 0) with false. change (2 ^ 63 <=? 7 - 1) with false. cbv iota.
    rewrite np_offsets_int64 by done. cbn [attempt_bind]. change (7 - 1) with 6.
    destruct (np_positions_out_of_bounds 6 ((λ ind, wrap64 (ind - 1)) <$> inds))
      as (index & Hin & Hbad & ->).
    { intros Hall. apply Hnot. rewrite Forall_fmap in Hall.
      rewrite Forall_forall in Hall, Hinds. apply Forall_forall. intros ind Hind.
      apply offset_in_bounds; [by apply Hinds|]. by apply (Hall ind). }
    apply list_elem_of_fmap in Hin as (ind & -> & Hin).
    exists ind. split; [done|]. split; [|done].
    intros Hrange. apply Hbad. apply offset_in_bounds; [|done].
    rewrite Forall_forall in Hinds. by apply Hinds.
  - intros ind Hinds Hrange. unfold _to_bit_vector.
    change (7 - 1 <? 0) with false. change (2 ^ 63 <=? 7 - 1) with false. cbv iota.
    assert (int64 ind = true) as Hind by (apply int64_spec; lia).
    assert (int64 (ind + 6) = true) as Hind' by (apply int64_spec; lia).
    rewrite !np_offsets_int64 by (done || by constructor).
    cbn [attempt_bind]. rewrite !fmap_cons. cbn [np_positions]. change (7 - 1) with 6.
    rewrite !wrap64_small by lia.
    rewrite (np_position_in_bounds 6 (ind - 1)) by (unfold in_bounds; lia).
    rewrite (np_position_in_bounds 6 (ind + 6 - 1)) by (unfold in_bounds; lia).
    assert (position_of 6 (ind - 1) = position_of 6 (ind + 6 - 1)) as ->; [|done].
    unfold position_of.
    rewrite (proj2 (Z.leb_gt 0 (ind - 1))) by lia.
    rewrite (proj2 (Z.leb_le 0 (ind + 6 - 1))) by lia.
    f_equal. lia.
Qed.

Lemma to_bit_vector_bounds_witness :
  _to_bit_vector [2] 7 1 = inl ValueError ∧
  _to_bit_vector [2; 2 ^ 63] 1 7 = inl IntTooLarge ∧
  (∃ ind, ind ∈ [2; 7] ∧ ¬ (-5 ≤ ind ≤ 6) ∧
          _to_bit_vector [2; 7] 1 7 = inl (BadIndex (wrap64 (ind - 1)) 6)) ∧
  _to_bit_vector [0; 3] 1 7 = _to_bit_vector [0 + 6; 3] 1 7.
Proof.
  destruct (to_bit_vector_bounds [2]) as (H1 & _).
  destruct (to_bit_vector_bounds [2; 2 ^ 63]) as (_ & H2 & _).
  destruct (to_bit_vector_bounds [2; 7]) as (_ & _ & H3 & _).
  destruct (to_bit_vector_bounds [3]) as (_ & _ & _ & H4).
  split; [apply H1; lia|]. split; [|split].
  - apply H2. intros Hall. apply Forall_cons in Hall as [_ Hall].
    apply Forall_cons in Hall as [Hall _]. discriminate Hall.
  - apply H3; [by repeat constructor|].
    intros Hall. apply Forall_cons in Hall as [_ Hall].
    apply Forall_cons in Hall as [Hall _]. lia.
  - apply (H4 0); [by repeat constructor | lia].
Defined.

(** ** The table of possible upper-section scores *)

(** The scores that an entry denotes. *)
Definition scores_of (entry : Scores) : gset Z :=
  match entry with
  | ScoreRange lo hi => list_to_set (range lo hi)
  | ScoreSet scores => scores
  end.

(** The total of the upper section when face [i + 1] has been scored with
    [counts !! i] dice. *)
Definition upper_total (faces : list Z) (counts : list nat) : Z :=
  sum_roll (zip_with (λ face (count : nat), face * Z.of_nat count) faces counts).

(** [score] can be the capped total of the upper section when the
    categories [filled] are filled out: every filled category holds the
    score of 0 to 5 dice of its face, the others hold nothing. *)
Definition possible (filled : list bool) (score : Z) : Prop :=
  ∃ counts : list nat,
    Forall2 (λ (b : bool) (count : nat), (count <= 5)%nat ∧ (b = false → count = 0%nat))
            filled counts ∧
    score = Z.min 63 (upper_total (range 1 7) counts).

(** All totals, by enumeration. *)
Fixpoint totals (faces : list Z) (filled : list bool) : list Z :=
  match faces, filled with
  | face :: faces', b :: filled' =>
      count ← (if b then seq 0 6 else [0%nat]);
      rest ← totals faces' filled';
      [face * Z.of_nat count + rest]
  | _, _ => [0]
  end.

Lemma elem_of_totals_cons (face : Z) (faces : list Z) (b : bool) (filled : list bool)
    (total : Z) :
  total ∈ totals (face :: faces) (b :: filled) ↔
  ∃ (count : nat) (rest : Z),
    (count <= 5)%nat ∧ (b = false → count = 0%nat) ∧
    rest ∈ totals faces filled ∧ total = face * Z.of_nat count + rest.
Proof.
  simpl totals. rewrite list_elem_of_bind. split.
  - intros (count & Ht & Hcount).
    apply list_elem_of_bind in Ht as (rest & Ht & Hrest).
    apply list_elem_of_singleton in Ht as ->.
    exists count, rest. destruct b.
    + change (count ∈ seq 0 6) in Hcount. apply elem_of_seq in Hcount.
      split; [lia|]. by split.
    + apply list_elem_of_singleton in Hcount as ->. split; [lia|]. by split.
  - intros (count & rest & Hle & Hb & Hrest & ->). exists count. split.
    + apply list_elem_of_bind. exists rest. split; [|done].
      by apply list_elem_of_singleton.
    + destruct b.
      * change (count ∈ seq 0 6). apply elem_of_seq. lia.
      * apply list_elem_of_singleton. by apply Hb.
Qed.

Lemma elem_of_totals (faces : list Z) (filled : list bool) (total : Z) :
  length faces = length filled →
  total ∈ totals faces filled ↔
  ∃ counts : list nat,
    Forall2 (λ (b : bool) (count : nat), (count <= 5)%nat ∧ (b = false → count = 0%nat))
            filled counts ∧
    total = upper_total faces counts.
Proof.
  revert filled total. induction faces as [|face faces IH]; intros filled total Hlen.
  - destruct filled; [|done]. simpl. rewrite list_elem_of_singleton. split.
    + intros ->. exists []. split; [constructor | done].
    + intros (counts & Hc & ->). by apply Forall2_nil_inv_l in Hc as ->.
  - destruct filled as [|b filled]; [done|]. simpl in Hlen.
    rewrite elem_of_totals_cons. split.
    + intros (count & rest & Hle & Hb & Hrest & ->).
      apply IH in Hrest as (counts & Hc & ->); [|lia].
      exists (count :: counts). split; [by constructor|].
      unfold upper_total. simpl zip_with. by rewrite sum_roll_cons.
    + intros (counts & Hc & ->).
      apply Forall2_cons_inv_l in Hc as (count & counts' & [Hle Hb] & Hc & ->).
      exists count, (upper_total faces counts'). split; [done|]. split; [done|]. split.
      * apply IH; [lia|]. by exists counts'.
      * unfold upper_total. simpl zip_with. by rewrite sum_roll_cons.
Qed.

(** The largest total: five dice in every filled category. *)
Fixpoint top (faces : list Z) (filled : list bool) : Z :=
  match faces, filled with
  | face :: faces', b :: filled' => (if b then face * 5 else 0) + top faces' filled'
  | _, _ => 0
  end.

Lemma totals_bounds (faces : list Z) (filled : list bool) (total : Z) :
  Forall (λ face, 0 ≤ face) faces →
  total ∈ totals faces filled → 0 ≤ total ≤ top faces filled.
Proof.
  intros Hfaces. revert filled total.
  induction Hfaces as [|face faces Hface _ IH]; intros filled total.
  - simpl. destruct filled; intros ->%list_elem_of_singleton; lia.
  - destruct filled as [|b filled].
    + simpl. intros ->%list_elem_of_singleton. lia.
    + intros (count & rest & Hle & Hb & Hrest & ->)%elem_of_totals_cons.
      specialize (IH _ _ Hrest). simpl top. destruct b.
      * nia.
      * rewrite Hb by done. lia.
Qed.

Lemma top_elem_of_totals (faces : list Z) (filled : list bool) :
  top faces filled ∈ totals faces filled.
Proof.
  revert filled. induction faces as [|face faces IH]; intros filled.
  - simpl. destruct filled; by apply list_elem_of_singleton.
  - destruct filled as [|b filled]; [by apply list_elem_of_singleton|].
    apply elem_of_totals_cons. destruct b.
    + exists 5%nat, (top faces filled). split; [lia|]. split; [done|].
      split; [done|]. simpl top. lia.
    + exists 0%nat, (top faces filled). split; [lia|]. split; [done|].
      split; [done|]. simpl top. lia.
Qed.

(** The totals as the bits of an integer: shifting the bits by [n] adds [n]
    to every total. *)
Fixpoint total_mask (faces : list Z) (filled : list bool) : Z :=
  match faces, filled with
  | face :: faces', b :: filled' =>
      let rest := total_mask faces' filled' in
      if b then
        foldr (λ (count : nat) mask, Z.lor (Z.shiftl rest (face * Z.of_nat count)) mask)
              0 (seq 0 6)
      else rest
  | _, _ => 1
  end.

Lemma total_mask_cons (face : Z) (faces : list Z) (b : bool) (filled : list bool) :
  total_mask (face :: faces) (b :: filled) =
  if b then
    foldr (λ (count : nat) mask,
             Z.lor (Z.shiftl (total_mask faces filled) (face * Z.of_nat count)) mask)
          0 (seq 0 6)
  else total_mask faces filled.
Proof. done. Qed.

Lemma testbit_one (t : Z) : Z.testbit 1 t = true ↔ t = 0.
Proof.
  destruct (Z.lt_trichotomy t 0) as [Hlt | [-> | Hgt]].
  - rewrite Z.testbit_neg_r by done. split; [done | lia].
  - done.
  - change 1 with (2 ^ 0). rewrite Z.pow2_bits_eqb by lia.
    split; [intros ?%Z.eqb_eq | ]; lia.
Qed.

Lemma testbit_shifts (rest face t : Z) (counts : list nat) :
  0 ≤ t →
  Z.testbit (foldr (λ (count : nat) mask,
                      Z.lor (Z.shiftl rest (face * Z.of_nat count)) mask) 0 counts) t
  = true ↔
  ∃ count, count ∈ counts ∧ Z.testbit rest (t - face * Z.of_nat count) = true.
Proof.
  intros Ht. induction counts as [|count counts IH]; simpl.
  - rewrite Z.bits_0. split; [done|]. by intros (? & ?%elem_of_nil & _).
  - rewrite Z.lor_spec, orb_true_iff, IH, Z.shiftl_spec by done. split.
    + intros [H | (c & Hc & H)].
      * exists count. split; [by left | done].
      * exists c. split; [by right | done].
    + intros (c & [-> | Hc]%elem_of_cons & H); [by left|].
      right. by exists c.
Qed.

Lemma total_mask_spec (faces : list Z) (filled : list bool) (t : Z) :
  Forall (λ face, 0 ≤ face) faces →
  Z.testbit (total_mask faces filled) t = true ↔ t ∈ totals faces filled.
Proof.
  intros Hfaces. revert filled t.
  induction Hfaces as [|face faces Hface Hfaces IH]; intros filled t.
  - simpl. destruct filled; by rewrite testbit_one, list_elem_of_singleton.
  - destruct filled as [|b filled].
    + simpl. by rewrite testbit_one, list_elem_of_singleton.
    + rewrite elem_of_totals_cons, total_mask_cons.
      destruct (Z.lt_trichotomy t 0) as [Hlt | Hge].
      { rewrite Z.testbit_neg_r by done. split; [done|].
        intros (count & rest & _ & _ & Hrest & ->).
        pose proof (totals_bounds faces filled rest Hfaces Hrest). nia. }
      destruct b.
      * rewrite testbit_shifts by lia. split.
        -- intros (count & Hcount%elem_of_seq & Hbit).
           exists count, (t - face * Z.of_nat count). split; [lia|].
           split; [done|]. split; [by apply IH | lia].
        -- intros (count & rest & Hle & _ & Hrest & ->). exists count. split.
           ++ apply elem_of_seq. lia.
           ++ apply IH. by replace (face * Z.of_nat count + rest - face * Z.of_nat count)
                with rest by lia.
      * rewrite IH. split.
        -- intros Hrest. exists 0%nat, t. split; [lia|]. split; [done|].
           split; [done | lia].
        -- intros (count & rest & _ & Hb & Hrest & ->). rewrite Hb by done.
           by replace (face * Z.of_nat 0 + rest) with rest by lia.
Qed.

(** Whether [score] is a capped total for [filled]. *)
Definition possible_check (filled : list bool) (score : Z) : bool :=
  if score <? 63 then Z.testbit (total_mask (range 1 7) filled) score
  else (score =? 63) && (63 <=? top (range 1 7) filled).

Lemma faces_nonneg : Forall (λ face, 0 ≤ face) (range 1 7).
Proof. repeat constructor; lia. Qed.

Lemma possible_check_spec (filled : list bool) (score : Z) :
  length filled = 6%nat →
  possible_check filled score = true ↔ possible filled score.
Proof.
  intros Hlen.
  assert (possible filled score ↔
          ∃ total, total ∈ totals (range 1 7) filled ∧ score = Z.min 63 total) as ->.
  { unfold possible. split.
    - intros (counts & Hc & ->). exists (upper_total (range 1 7) counts).
      split; [|done]. apply elem_of_totals; [done|]. by exists counts.
    - intros (total & Ht & ->). apply elem_of_totals in Ht as (counts & Hc & ->); [|done].
      by exists counts. }
  unfold possible_check. destruct (Z.ltb_spec score 63) as [Hlt|Hge].
  - rewrite total_mask_spec by apply faces_nonneg. split.
    + intros Ht. exists score. split; [done | lia].
    + intros (total & Ht & ->). by replace (Z.min 63 total) with total by lia.
  - rewrite andb_true_iff, Z.eqb_eq, Z.leb_le. split.
    + intros [-> Htop]. exists (top (range 1 7) filled).
      split; [apply top_elem_of_totals | lia].
    + intros (total & Ht & ->).
      pose proof (totals_bounds _ _ _ faces_nonneg Ht). lia.
Qed.

(** What is checked of an entry, by evaluation. *)
Definition entry_checked (key : list bool) (entry : Scores) : bool :=
  if bool_decide (key = replicate 6 true) then
    match entry with
    | ScoreRange lo hi => (lo =? 0) && (hi =? 1)
    | ScoreSet _ => false
    end
  else
    forallb (λ score, bool_decide (0 ≤ score ≤ 63)) (elements (scores_of entry)) &&
    forallb (λ score, Bool.eqb (bool_decide (score ∈ scores_of entry))
                               (possible_check key score)) (range 0 64).

Lemma entry_checked_spec (key : list bool) (entry : Scores) (score : Z) :
  length key = 6%nat → key ≠ replicate 6 true → entry_checked key entry = true →
  score ∈ scores_of entry ↔ possible key score.
Proof.
  intros Hlen Hkey. unfold entry_checked.
  rewrite bool_decide_eq_false_2 by done.
  rewrite andb_true_iff, !forallb_forall. intros [Hbound Hsame].
  rewrite <- possible_check_spec by done.
  destruct (decide (0 ≤ score ≤ 63)) as [Hin|Hout].
  - specialize (Hsame score). rewrite <- list_elem_of_In in Hsame.
    unfold range in Hsame. rewrite elem_of_seqZ in Hsame.
    apply Bool.eqb_prop in Hsame; [|lia]. rewrite <- Hsame.
    by rewrite bool_decide_eq_true.
  - split.
    + intros Hs. specialize (Hbound score). rewrite <- list_elem_of_In in Hbound.
      rewrite elem_of_elements in Hbound. apply Hbound in Hs.
      by apply bool_decide_eq_true in Hs.
    + intros Hp. unfold possible_check in Hp.
      destruct (Z.ltb_spec score 63).
      * by rewrite Z.testbit_neg_r in Hp by lia.
      * apply andb_true_iff in Hp as [Heq%Z.eqb_eq _]. lia.
Qed.

(** All bit vectors of a length. *)
Fixpoint bit_vectors (n : nat) : list (list bool) :=
  match n with
  | O => [[]]
  | S n' => ((false ::.) <$> bit_vectors n') ++ ((true ::.) <$> bit_vectors n')
  end.

Lemma elem_of_bit_vectors (n : nat) (key : list bool) :
  key ∈ bit_vectors n ↔ length key = n.
Proof.
  revert key. induction n as [|n IH]; intros key; simpl.
  - rewrite list_elem_of_singleton. split; [by intros -> | by destruct key].
  - rewrite elem_of_app, !list_elem_of_fmap. split.
    + intros [(key' & -> & Hk) | (key' & -> & Hk)]; apply IH in Hk; simpl; lia.
    + intros Hlen. destruct key as [|b key]; [done|].
      assert (key ∈ bit_vectors n) by (apply IH; simpl in Hlen; lia).
      destruct b; [right | left]; by exists key.
Qed.

Definition table_checked (table : gmap (list bool) Scores) : bool :=
  bool_decide (map_Forall (λ key _, length key = 6%nat) table) &&
  forallb (λ key,
             match table !! key with
             | Some entry => entry_checked key entry
             | None => false
             end) (bit_vectors 6).

Lemma table_computed :
  ∃ table, compute_possible_upper_section_scores = inr table ∧ table_checked table = true.
Proof.
  assert (match compute_possible_upper_section_scores with
          | inr table => table_checked table
          | inl _ => false
          end = true) as H by (vm_compute; reflexivity).
  destruct compute_possible_upper_section_scores as [e|table]; [done|].
  by exists table.
Qed.

(** X27: [compute_possible_upper_section_scores] raises nothing; the keys of
    its table are the 64 bit vectors of length 6; for every key but the
    all-true one, the entry denotes exactly the totals, capped at 63, that
    the filled categories can hold when each holds the score of 0 to 5 dice
    of its face; the all-true key holds [(0, 1)]. *)
Theorem possible_upper_section_scores_spec :
  ∃ table,
    compute_possible_upper_section_scores = inr table ∧
    (∀ key, is_Some (table !! key) ↔ length key = 6%nat) ∧
    (∀ key entry score,
       table !! key = Some entry → key ≠ replicate 6 true →
       score ∈ scores_of entry ↔ possible key score) ∧
    table !! replicate 6 true = Some (ScoreRange 0 1).
Proof.
  destruct table_computed as (table & E & Hchecked). exists table.
  split; [exact E|]. clear E.
  unfold table_checked in Hchecked.
  apply andb_true_iff in Hchecked as [Hkeys Hentries].
  apply bool_decide_eq_true in Hkeys. rewrite forallb_forall in Hentries.
  assert (∀ key, length key = 6%nat →
            ∃ entry, table !! key = Some entry ∧ entry_checked key entry = true) as Hall.
  { intros key Hlen. specialize (Hentries key).
    rewrite <- list_elem_of_In, elem_of_bit_vectors in Hentries.
    specialize (Hentries Hlen). destruct (table !! key) as [entry|]; [|done].
    by exists entry. }
  split; [|split].
  - intros key. split.
    + intros [entry Hentry]. by apply (Hkeys key entry).
    + intros Hlen. destruct (Hall key Hlen) as (entry & -> & _). by eexists.
  - intros key entry score Hentry Hkey.
    pose proof (Hkeys key entry Hentry) as Hlen. simpl in Hlen.
    destruct (Hall key Hlen) as (entry' & Hentry' & Hc).
    rewrite Hentry in Hentry'. injection Hentry' as <-.
    by apply entry_checked_spec.
  - destruct (Hall (replicate 6 true)) as (entry & Hentry & Hc); [done|].
    rewrite Hentry. unfold entry_checked in Hc.
    rewrite bool_decide_eq_true_2 in Hc by done.
    destruct entry as [lo hi|]; [|done].
    apply andb_true_iff in Hc as [->%Z.eqb_eq ->%Z.eqb_eq]. done.
Qed.
